(** * A sequential model of badger's arena-backed skiplist (skl/skl_mmap.go)

    The Go code stores every node inside one arena and links nodes by
    32-bit offsets.  The model keeps that shape: a node pointer is the
    offset of the node in the arena (0 is the nil pointer), every read or
    write of a node field goes through the arena, and every loop of the
    source is a fuelled recursive function whose fuel is shown to suffice
    on well-formed skiplists. *)

From Stdlib Require Import ZArith Lia.
From Stdlib Require Strings.Byte.
From stdpp Require Import base list gmap.
Import Stdlib.Strings.Byte.

Local Open Scope Z_scope.

(* ===================================================================== *)
(** ** Outcomes of running a piece of the program *)
(* ===================================================================== *)

(** What stops the Go program, or the model of it. *)
Inductive fault :=
| AssertFailed   (* y.AssertTrue / y.AssertTruef on a false condition *)
| ArenaFull      (* the arena cannot serve a reservation *)
| NilDeref       (* a field of the nil node is read or written *)
| BadAccess      (* an index, or an offset that holds no node or key *)
| OutOfFuel.     (* the model's loop bound was reached *)

Inductive res (A : Type) :=
| Ok (a : A)
| Err (e : fault).
Arguments Ok {A} a.
Arguments Err {A} e.

Definition rbind {A B} (c : res A) (k : A -> res B) : res B :=
  match c with
  | Ok a => k a
  | Err e => Err e
  end.

Notation "x <- c ;; k" := (rbind c (fun x => k))
  (at level 100, c at next level, right associativity).
#[warnings="-notation-incompatible-prefix"]
Notation "' p <- c ;; k" := (rbind c (fun p => k))
  (at level 100, p pattern, c at next level, right associativity).

(** y.AssertTrue(b): fatal when [b] is false. *)
Definition AssertTrue (b : bool) : res unit :=
  if b then Ok tt else Err AssertFailed.

(* ===================================================================== *)
(** ** Keys and their order *)
(* ===================================================================== *)

Abbreviation key := (list byte).

(** bytes.Compare: byte-wise lexicographic order, a proper prefix first. *)
Fixpoint bytes_Compare (a b : key) : comparison :=
  match a, b with
  | [], [] => Eq
  | [], _ :: _ => Lt
  | _ :: _, [] => Gt
  | x :: a', y :: b' =>
      match N.compare (Byte.to_N x) (Byte.to_N y) with
      | Eq => bytes_Compare a' b'
      | c => c
      end
  end.

(** bytes.Equal *)
Definition bytes_Equal (a b : key) : bool :=
  match bytes_Compare a b with Eq => true | _ => false end.

Definition key_lt (a b : key) : Prop := bytes_Compare a b = Lt.

(* ===================================================================== *)
(** ** Constants *)
(* ===================================================================== *)

(** Modelled from the spec: the constant maxHeight (H_MAX) is declared in a
    file of the package that is not part of the sources at hand; the spec
    gives its default, 20. *)
Definition maxHeight : nat := 20.

(** Modelled from the spec: heightIncrease, the threshold a 32-bit draw is
    compared with when a tower grows, is declared next to maxHeight; the
    spec asks for an expected fan-out of about 3 per level, that is a third
    of the 32-bit range. *)
Definition heightIncrease : Z := (2 ^ 32 - 1) / 3.

(* ===================================================================== *)
(** ** Nodes and the arena *)
(* ===================================================================== *)

(** Modelled from the spec: the node struct (value word, key offset, 16-bit
    key size, 16-bit height, tower of next offsets).  [node_tower] has one
    entry per slot the arena reserved for the node. *)
Record node := mkNode {
  node_value : Z;
  node_keyOffset : Z;
  node_keySize : nat;
  node_height : nat;
  node_tower : list Z
}.

(** Modelled from the spec: the arena (ArenaMmap) is declared in a file that
    is not part of the sources at hand.  It has a cursor [arena_n] that
    starts at 1, a fixed capacity, and regions handed out by bumping the
    cursor.  The buffer is kept as two views: the nodes by the offset of
    their header and the key bytes by the offset they were copied to. *)
Record ArenaMmap := mkArena {
  arena_n : Z;
  arena_cap : Z;
  arena_nodes : gmap Z node;
  arena_keys : gmap Z key
}.

(** Modelled from the spec: the sizes of the node header and of a tower
    slot, and the alignment of a node. *)
Definition nodeHeaderSize : Z := 16.
Definition offsetSize : Z := 4.
Definition nodeAlign : Z := 8.

Definition align_up (n : Z) : Z := ((n + nodeAlign - 1) / nodeAlign) * nodeAlign.

(** Modelled from the spec: newArenaMmap(capacity), an empty arena whose
    cursor is at 1. *)
Definition newArenaMmap (capacity : Z) : ArenaMmap :=
  mkArena 1 capacity ∅ ∅.

(** Modelled from the spec: putNode(height): reserve header and [height] tower slots, aligned to 8;
    the region reads as zero. *)
Definition putNode (a : ArenaMmap) (height : nat) : res (Z * ArenaMmap) :=
  let m := align_up (arena_n a) in
  let n' := m + nodeHeaderSize + Z.of_nat height * offsetSize in
  if arena_cap a <? n' then Err ArenaFull
  else Ok (m, mkArena n' (arena_cap a)
                (<[m := mkNode 0 0 0 0 (replicate height 0)]> (arena_nodes a))
                (arena_keys a)).

(** Modelled from the spec: putKey(bytes): reserve len(bytes) bytes and copy the key in. *)
Definition putKey (a : ArenaMmap) (k : key) : res (Z * ArenaMmap) :=
  let m := arena_n a in
  let n' := m + Z.of_nat (length k) in
  if arena_cap a <? n' then Err ArenaFull
  else Ok (m, mkArena n' (arena_cap a) (arena_nodes a) (<[m := k]> (arena_keys a))).

(** Modelled from the spec: getNode(offset): offset 0 is the nil node; any other offset is the
    pointer to the node at that offset. *)
Definition getNode (a : ArenaMmap) (offset : Z) : Z := offset.

(** Modelled from the spec: getNodeOffset(node): nil gives 0. *)
Definition getNodeOffset (a : ArenaMmap) (nd : Z) : Z := nd.

(** Modelled from the spec: getKey(offset, size): the [size] bytes at
    [offset]. *)
Definition getKey (a : ArenaMmap) (offset : Z) (size : nat) : res key :=
  match arena_keys a !! offset with
  | Some k => Ok (take size k)
  | None => Err BadAccess
  end.

(** Modelled from the spec: arena.size(), the cursor. *)
Definition arena_size (a : ArenaMmap) : Z := arena_n a.

(** Reading the struct behind a node pointer. *)
Definition deref (a : ArenaMmap) (nd : Z) : res node :=
  if nd =? 0 then Err NilDeref
  else match arena_nodes a !! nd with
       | Some x => Ok x
       | None => Err BadAccess
       end.

(** Writing the struct behind a node pointer. *)
Definition store (a : ArenaMmap) (nd : Z) (x : node) : ArenaMmap :=
  mkArena (arena_n a) (arena_cap a) (<[nd := x]> (arena_nodes a)) (arena_keys a).

Definition set_value (x : node) (v : Z) : node :=
  mkNode v (node_keyOffset x) (node_keySize x) (node_height x) (node_tower x).
Definition set_keyOffset (x : node) (o : Z) : node :=
  mkNode (node_value x) o (node_keySize x) (node_height x) (node_tower x).
Definition set_keySize (x : node) (n : nat) : node :=
  mkNode (node_value x) (node_keyOffset x) n (node_height x) (node_tower x).
Definition set_height (x : node) (h : nat) : node :=
  mkNode (node_value x) (node_keyOffset x) (node_keySize x) h (node_tower x).
Definition set_tower (x : node) (t : list Z) : node :=
  mkNode (node_value x) (node_keyOffset x) (node_keySize x) (node_height x) t.

(** Modelled from the spec: node.getNextOffset(level), the load of
    tower[level]. *)
Definition getNextOffset (a : ArenaMmap) (nd : Z) (level : nat) : res Z :=
  x <- deref a nd ;;
  match node_tower x !! level with
  | Some o => Ok o
  | None => Err BadAccess
  end.

(** Modelled from the spec: node.casNextOffset(level, old, new), the
    compare-and-swap of tower[level]. *)
Definition casNextOffset (a : ArenaMmap) (nd : Z) (level : nat) (old new : Z)
  : res (bool * ArenaMmap) :=
  x <- deref a nd ;;
  match node_tower x !! level with
  | Some o =>
      if o =? old
      then Ok (true, store a nd (set_tower x (<[level := new]> (node_tower x))))
      else Ok (false, a)
  | None => Err BadAccess
  end.

(** x.tower[i] = off, a plain store. *)
Definition setTower (a : ArenaMmap) (nd : Z) (level : nat) (off : Z) : res ArenaMmap :=
  x <- deref a nd ;;
  if (level <? length (node_tower x))%nat
  then Ok (store a nd (set_tower x (<[level := off]> (node_tower x))))
  else Err BadAccess.

(** nd.value = uid, a plain store. *)
Definition setValue (a : ArenaMmap) (nd : Z) (uid : Z) : res ArenaMmap :=
  x <- deref a nd ;;
  Ok (store a nd (set_value x uid)).

(** node.keyMmap(arena) *)
Definition keyMmap (a : ArenaMmap) (nd : Z) : res key :=
  x <- deref a nd ;;
  getKey a (node_keyOffset x) (node_keySize x).

(** node.getValue() *)
Definition getValue (a : ArenaMmap) (nd : Z) : res Z :=
  x <- deref a nd ;;
  Ok (node_value x).

(** uint16(n) *)
Definition uint16 (n : nat) : nat := Z.to_nat (Z.of_nat n mod 65536).

(** newNodeMmap(arena, key, uid, height) *)
Definition newNodeMmap (a : ArenaMmap) (k : key) (uid : Z) (height : nat)
  : res (Z * ArenaMmap) :=
  '(offset, a) <- putNode a height ;;
  let nd := getNode a offset in
  x <- deref a nd ;;
  '(ko, a) <- putKey a k ;;
  let x := set_keyOffset x ko in
  let x := set_keySize x (uint16 (length k)) in
  let x := set_height x (uint16 height) in
  let x := set_value x uid in
  Ok (nd, store a nd x).

(* ===================================================================== *)
(** ** The skiplist *)
(* ===================================================================== *)

Record SkiplistMmap := mkSkl {
  skl_height : nat;
  skl_head : Z;
  skl_ref : Z;
  skl_arena : ArenaMmap
}.

Definition with_arena (s : SkiplistMmap) (a : ArenaMmap) : SkiplistMmap :=
  mkSkl (skl_height s) (skl_head s) (skl_ref s) a.

Definition with_height (s : SkiplistMmap) (h : nat) : SkiplistMmap :=
  mkSkl h (skl_head s) (skl_ref s) (skl_arena s).

(** The bound given to every loop that walks the list: a walk visits a node
    or a level per turn, and each node takes arena space. *)
Definition loop_fuel (s : SkiplistMmap) : nat :=
  (Z.to_nat (arena_n (skl_arena s)) + maxHeight)%nat.

(** NewSkiplistMmap(arenaSize) *)
Definition NewSkiplistMmap (arenaSize : Z) : res SkiplistMmap :=
  let arena := newArenaMmap arenaSize in
  '(head, arena) <- newNodeMmap arena [] 0 maxHeight ;;
  Ok (mkSkl 1 head 1 arena).

(** z.FastRand(), a 32-bit draw: the [i]-th draw of a call to Put is taken
    from the sequence [rnd] the call is given. *)
Definition FastRand (rnd : nat -> Z) (i : nat) : Z := rnd i mod 2 ^ 32.

Fixpoint randomHeight_loop (fuel : nat) (rnd : nat -> Z) (draws : nat) (h : nat)
  : res nat :=
  match fuel with
  | O => Err OutOfFuel
  | S fuel' =>
      if (h <? maxHeight)%nat && (FastRand rnd draws <=? heightIncrease)
      then randomHeight_loop fuel' rnd (S draws) (S h)
      else Ok h
  end.

(** s.randomHeight() *)
Definition randomHeight (rnd : nat -> Z) : res nat :=
  randomHeight_loop (S maxHeight) rnd 0 1.

(** s.getHeight() *)
Definition getHeight (s : SkiplistMmap) : nat := skl_height s.

(** s.getNext(nd, height) *)
Definition getNext (s : SkiplistMmap) (nd : Z) (height : nat) : res Z :=
  o <- getNextOffset (skl_arena s) nd height ;;
  Ok (getNode (skl_arena s) o).

(** What findNear returns when it has to answer with [x]: never the head. *)
Definition not_head (s : SkiplistMmap) (x : Z) : Z * bool :=
  if x =? skl_head s then (0, false) else (x, false).

Fixpoint findNear_loop (fuel : nat) (s : SkiplistMmap) (k : key)
    (less allowEqual : bool) (x : Z) (level : nat) : res (Z * bool) :=
  match fuel with
  | O => Err OutOfFuel
  | S fuel' =>
      next <- getNext s x level ;;
      if next =? 0 then
        if (0 <? level)%nat
        then findNear_loop fuel' s k less allowEqual x (level - 1)
        else if negb less then Ok (0, false)
        else Ok (not_head s x)
      else
        nextKey <- keyMmap (skl_arena s) next ;;
        match bytes_Compare k nextKey with
        | Gt => findNear_loop fuel' s k less allowEqual next level
        | Eq =>
            if allowEqual then Ok (next, true)
            else if negb less then
              n0 <- getNext s next 0 ;; Ok (n0, false)
            else if (0 <? level)%nat
            then findNear_loop fuel' s k less allowEqual x (level - 1)
            else Ok (not_head s x)
        | Lt =>
            if (0 <? level)%nat
            then findNear_loop fuel' s k less allowEqual x (level - 1)
            else if negb less then Ok (next, false)
            else Ok (not_head s x)
        end
  end.

(** s.findNear(key, less, allowEqual).  The walk starts at level
    height - 1; a height of 0 would index the tower at -1. *)
Definition findNear (s : SkiplistMmap) (k : key) (less allowEqual : bool)
  : res (Z * bool) :=
  if (getHeight s =? 0)%nat then Err BadAccess
  else findNear_loop (loop_fuel s) s k less allowEqual (skl_head s) (getHeight s - 1).

Fixpoint findSpliceForLevel_loop (fuel : nat) (s : SkiplistMmap) (k : key)
    (before : Z) (level : nat) : res (Z * Z) :=
  match fuel with
  | O => Err OutOfFuel
  | S fuel' =>
      next <- getNext s before level ;;
      if next =? 0 then Ok (before, next)
      else
        nextKey <- keyMmap (skl_arena s) next ;;
        match bytes_Compare k nextKey with
        | Eq => Ok (next, next)
        | Lt => Ok (before, next)
        | Gt => findSpliceForLevel_loop fuel' s k next level
        end
  end.

(** s.findSpliceForLevel(key, before, level) *)
Definition findSpliceForLevel (s : SkiplistMmap) (k : key) (before : Z) (level : nat)
  : res (Z * Z) :=
  findSpliceForLevel_loop (loop_fuel s) s k before level.

(** The arrays prev and next of Put, of maxHeight + 1 node pointers. *)
Definition arr_get (l : list Z) (i : nat) : res Z :=
  match l !! i with
  | Some v => Ok v
  | None => Err BadAccess
  end.

Definition arr_set (l : list Z) (i : nat) (v : Z) : res (list Z) :=
  if (i <? length l)%nat then Ok (<[i := v]> l) else Err BadAccess.

(** The first loop of Put, for i := listHeight - 1 down to 0; [i] counts the
    levels still to search.  The third component is the node found with an
    equal key, when the loop ends on one. *)
Fixpoint Put_search (s : SkiplistMmap) (k : key) (i : nat) (prev next : list Z)
  : res (list Z * list Z * option Z) :=
  match i with
  | O => Ok (prev, next, None)
  | S i' =>
      before <- arr_get prev (S i') ;;
      '(p, n) <- findSpliceForLevel s k before i' ;;
      prev <- arr_set prev i' p ;;
      next <- arr_set next i' n ;;
      if p =? n then Ok (prev, next, Some p)
      else Put_search s k i' prev next
  end.

(** atomic.CompareAndSwapInt32(&s.height, old, new) *)
Definition casHeight (s : SkiplistMmap) (old new : nat) : bool * SkiplistMmap :=
  if (skl_height s =? old)%nat then (true, with_height s new) else (false, s).

(** The loop of Put that raises s.height to the height of the new node. *)
Fixpoint raiseHeight (fuel : nat) (s : SkiplistMmap) (height listHeight : nat)
  : res SkiplistMmap :=
  match fuel with
  | O => Err OutOfFuel
  | S fuel' =>
      if (listHeight <? height)%nat then
        let '(ok, s') := casHeight s listHeight height in
        if ok then Ok s'
        else raiseHeight fuel' s' height (getHeight s')
      else Ok s
  end.

(** The block of Put under  if prev[i] == nil : the levels above the height
    the list had are searched from the head. *)
Definition Put_recompute (s : SkiplistMmap) (k : key) (i : nat) (prev next : list Z)
  : res (list Z * list Z) :=
  p <- arr_get prev i ;;
  if p =? 0 then
    _ <- AssertTrue (1 <? i)%nat ;;
    '(p, n) <- findSpliceForLevel s k (skl_head s) i ;;
    prev <- arr_set prev i p ;;
    next <- arr_set next i n ;;
    _ <- AssertTrue (negb (p =? n)) ;;
    Ok (prev, next)
  else Ok (prev, next).

(** The inner loop of Put at level [i]: link [x] between prev[i] and
    next[i].  The boolean tells that Put returned from inside the loop. *)
Fixpoint Put_link_level (fuel : nat) (s : SkiplistMmap) (k : key) (uid : Z)
    (x : Z) (i : nat) (prev next : list Z)
  : res (SkiplistMmap * list Z * list Z * bool) :=
  match fuel with
  | O => Err OutOfFuel
  | S fuel' =>
      '(prev, next) <- Put_recompute s k i prev next ;;
      n <- arr_get next i ;;
      let nextOffset := getNodeOffset (skl_arena s) n in
      a <- setTower (skl_arena s) x i nextOffset ;;
      p <- arr_get prev i ;;
      '(swapped, a) <- casNextOffset a p i nextOffset (getNodeOffset a x) ;;
      let s := with_arena s a in
      if swapped : bool then Ok (s, prev, next, false)
      else
        '(p, n) <- findSpliceForLevel s k p i ;;
        prev <- arr_set prev i p ;;
        next <- arr_set next i n ;;
        if p =? n then
          _ <- AssertTrue (i =? 0)%nat ;;
          a <- setValue (skl_arena s) p uid ;;
          Ok (with_arena s a, prev, next, true)
        else Put_link_level fuel' s k uid x i prev next
  end.

(** The loop of Put for i := 0; i < height; i++; [todo] counts the levels
    still to link. *)
Fixpoint Put_link (s : SkiplistMmap) (k : key) (uid : Z) (x : Z)
    (todo i : nat) (prev next : list Z) : res SkiplistMmap :=
  match todo with
  | O => Ok s
  | S todo' =>
      '(s, prev, next, returned) <- Put_link_level (loop_fuel s) s k uid x i prev next ;;
      if returned : bool then Ok s
      else Put_link s k uid x todo' (S i) prev next
  end.

(** s.Put(key, uid); [rnd] is the sequence of draws FastRand gives to this
    call. *)
Definition Put (rnd : nat -> Z) (s : SkiplistMmap) (k : key) (uid : Z)
  : res SkiplistMmap :=
  let listHeight := getHeight s in
  let prev := replicate (maxHeight + 1) 0 in
  let next := replicate (maxHeight + 1) 0 in
  prev <- arr_set prev listHeight (skl_head s) ;;
  next <- arr_set next listHeight 0 ;;
  '(prev, next, found) <- Put_search s k listHeight prev next ;;
  match found with
  | Some nd =>
      a <- setValue (skl_arena s) nd uid ;;
      Ok (with_arena s a)
  | None =>
      height <- randomHeight rnd ;;
      '(x, a) <- newNodeMmap (skl_arena s) k uid height ;;
      let s := with_arena s a in
      s <- raiseHeight (loop_fuel s) s height (getHeight s) ;;
      Put_link s k uid x height 0 prev next
  end.

Fixpoint findLast_loop (fuel : nat) (s : SkiplistMmap) (n : Z) (level : nat)
  : res Z :=
  match fuel with
  | O => Err OutOfFuel
  | S fuel' =>
      next <- getNext s n level ;;
      if negb (next =? 0) then findLast_loop fuel' s next level
      else if (level =? 0)%nat then
        if n =? skl_head s then Ok 0 else Ok n
      else findLast_loop fuel' s n (level - 1)
  end.

(** s.findLast() *)
Definition findLast (s : SkiplistMmap) : res Z :=
  if (getHeight s =? 0)%nat then Err BadAccess
  else findLast_loop (loop_fuel s) s (skl_head s) (getHeight s - 1).

(** s.Empty() *)
Definition Empty (s : SkiplistMmap) : res bool :=
  n <- findLast s ;;
  Ok (n =? 0).

(** s.Get(key) *)
Definition Get (s : SkiplistMmap) (k : key) : res Z :=
  '(n, _) <- findNear s k false true ;;
  if n =? 0 then Ok 0
  else
    x <- deref (skl_arena s) n ;;
    nextKey <- getKey (skl_arena s) (node_keyOffset x) (node_keySize x) ;;
    if negb (bytes_Equal k nextKey) then Ok 0
    else getValue (skl_arena s) n.

(** s.MemSize() *)
Definition MemSize (s : SkiplistMmap) : Z := arena_size (skl_arena s).

(* ===================================================================== *)
(** ** Iterators *)
(* ===================================================================== *)

(** An iterator is the node it stands on; the list it walks is passed to
    each of its operations. *)
Record IteratorMmap := mkIter { it_n : Z }.

(** Go's int32, with its wrap-around. *)
Definition wrap_int32 (z : Z) : Z := (z + 2 ^ 31) mod 2 ^ 32 - 2 ^ 31.

(** s.IncrRef(): atomic.AddInt32(&s.ref, 1) *)
Definition IncrRef (s : SkiplistMmap) : SkiplistMmap :=
  mkSkl (skl_height s) (skl_head s) (wrap_int32 (skl_ref s + 1)) (skl_arena s).

(** s.NewIterator() *)
Definition NewIterator (s : SkiplistMmap) : SkiplistMmap * IteratorMmap :=
  (IncrRef s, mkIter 0).

Definition Valid (it : IteratorMmap) : bool := negb (it_n it =? 0).

Definition Key (s : SkiplistMmap) (it : IteratorMmap) : res key :=
  x <- deref (skl_arena s) (it_n it) ;;
  getKey (skl_arena s) (node_keyOffset x) (node_keySize x).

Definition Value (s : SkiplistMmap) (it : IteratorMmap) : res Z :=
  getValue (skl_arena s) (it_n it).

Definition Next (s : SkiplistMmap) (it : IteratorMmap) : res IteratorMmap :=
  _ <- AssertTrue (Valid it) ;;
  n <- getNext s (it_n it) 0 ;;
  Ok (mkIter n).

Definition Prev (s : SkiplistMmap) (it : IteratorMmap) : res IteratorMmap :=
  _ <- AssertTrue (Valid it) ;;
  k <- Key s it ;;
  '(n, _) <- findNear s k true false ;;
  Ok (mkIter n).

Definition Seek (s : SkiplistMmap) (it : IteratorMmap) (target : key)
  : res IteratorMmap :=
  '(n, _) <- findNear s target false true ;;
  Ok (mkIter n).

Definition SeekForPrev (s : SkiplistMmap) (it : IteratorMmap) (target : key)
  : res IteratorMmap :=
  '(n, _) <- findNear s target true true ;;
  Ok (mkIter n).

Definition SeekToFirst (s : SkiplistMmap) (it : IteratorMmap) : res IteratorMmap :=
  n <- getNext s (skl_head s) 0 ;;
  Ok (mkIter n).

Definition SeekToLast (s : SkiplistMmap) (it : IteratorMmap) : res IteratorMmap :=
  n <- findLast s ;;
  Ok (mkIter n).

(* ===================================================================== *)
(** ** zeroOut *)
(* ===================================================================== *)

(** Go's int, 64 bits wide, with its wrap-around. *)
Definition wrap_int (z : Z) : Z := (z + 2 ^ 63) mod 2 ^ 64 - 2 ^ 63.

(** copy(data[bp:], data[:bp]) on a slice [data] with 0 <= bp <= len(data):
    the first min(bp, len - bp) bytes are copied to position bp. *)
Definition copy_from_start (data : list byte) (bp : nat) : list byte :=
  take bp data ++ take (length data - bp) (take bp data) ++ drop (bp + bp) data.

Fixpoint zeroOut_loop (fuel : nat) (data : list byte) (bp : Z) : res (list byte) :=
  match fuel with
  | O => Err OutOfFuel
  | S fuel' =>
      if bp <? Z.of_nat (length data) then
        if bp <? 0 then Err BadAccess
        else zeroOut_loop fuel' (copy_from_start data (Z.to_nat bp)) (wrap_int (bp * 2))
      else Ok data
  end.

(** zeroOut(data, offset): the slice data[offset:] shares its bytes with
    data, so the result is the whole of data after the call. *)
Definition zeroOut (data : list byte) (offset : Z) : res (list byte) :=
  if (offset <? 0) || (Z.of_nat (length data) <? offset) then Err BadAccess
  else
    let pre := take (Z.to_nat offset) data in
    let data := drop (Z.to_nat offset) data in
    match data with
    | [] => Err BadAccess
    | _ :: rest =>
        tl <- zeroOut_loop 64 (x00 :: rest) 1 ;;
        Ok (pre ++ tl)
    end.

(* ===================================================================== *)
(** ** Well-formed skiplists *)
(* ===================================================================== *)

(** The height field, the stored key and the value of the node at [p]. *)
Definition hgt (a : ArenaMmap) (p : Z) : nat :=
  match arena_nodes a !! p with
  | Some x => node_height x
  | None => 0%nat
  end.

Definition skey (a : ArenaMmap) (p : Z) : key :=
  match keyMmap a p with
  | Ok k => k
  | Err _ => []
  end.

Definition sval (a : ArenaMmap) (p : Z) : Z :=
  match getValue a p with
  | Ok v => v
  | Err _ => 0
  end.

(** [path a L x l e]: following the level-[L] links from [x] visits the
    nodes [l], in that order, and then reaches [e]. *)
Fixpoint path (a : ArenaMmap) (L : nat) (x : Z) (l : list Z) (e : Z) : Prop :=
  match l with
  | [] => getNextOffset a x L = Ok e
  | y :: l' => getNextOffset a x L = Ok y /\ path a L y l' e
  end.

(** The nodes of [l] linked at level [L], when [lh p] levels of [p] are
    linked. *)
Definition level_list (lh : Z -> nat) (L : nat) (l : list Z) : list Z :=
  filter (fun p => (L < lh p)%nat) l.

(** Every level below maxHeight is a null-terminated list from the head
    through the nodes of [l0] linked at that level. *)
Definition links (a : ArenaMmap) (hd : Z) (lh : Z -> nat) (l0 : list Z) : Prop :=
  forall L, (L < maxHeight)%nat -> path a L hd (level_list lh L l0) 0.

Definition lastd (x : Z) (l : list Z) : Z := default x (last l).
Definition hd0 (l : list Z) : Z := default 0 (head l).

Definition node_ok (s : SkiplistMmap) (p : Z) : Prop :=
  p <> 0 /\
  exists x kb,
    arena_nodes (skl_arena s) !! p = Some x /\
    (1 <= node_height x <= skl_height s)%nat /\
    length (node_tower x) = node_height x /\
    arena_keys (skl_arena s) !! node_keyOffset x = Some kb.

(** Everything a well-formed skiplist with base list [l0] satisfies, apart
    from the links. *)
Record wf_base (s : SkiplistMmap) (l0 : list Z) : Prop := mk_wf_base {
  wf_height : (1 <= skl_height s <= maxHeight)%nat;
  wf_head_ne : skl_head s <> 0;
  wf_head : exists x, arena_nodes (skl_arena s) !! skl_head s = Some x /\
                      length (node_tower x) = maxHeight;
  wf_head_fresh : skl_head s ∉ l0;
  wf_nodup : NoDup l0;
  wf_nodes : Forall (node_ok s) l0;
  wf_alloc_nodes : forall p, is_Some (arena_nodes (skl_arena s) !! p) ->
                             0 < p < arena_n (skl_arena s);
  wf_alloc_keys : forall o, is_Some (arena_keys (skl_arena s) !! o) ->
                            o <= arena_n (skl_arena s);
  wf_count : Z.of_nat (length l0) < arena_n (skl_arena s);
  wf_head_key : keyMmap (skl_arena s) (skl_head s) = Ok []
}.

(** [wf s l0]: [s] is a skiplist whose nodes are, in the order of the base
    level, [l0]; a node of height h is linked at the levels below h. *)
Definition wf (s : SkiplistMmap) (l0 : list Z) : Prop :=
  wf_base s l0 /\ links (skl_arena s) (skl_head s) (hgt (skl_arena s)) l0.

(** Strictly increasing lists of keys. *)
Fixpoint increasing (l : list key) : Prop :=
  match l with
  | [] => True
  | k :: l' => Forall (key_lt k) l' /\ increasing l'
  end.

(** [sorted s l0]: the keys stored in the nodes [l0] increase strictly. *)
Definition sorted (s : SkiplistMmap) (l0 : list Z) : Prop :=
  increasing (map (skey (skl_arena s)) l0).

(** The key-value pairs of the nodes [l0], in order. *)
Definition contents (s : SkiplistMmap) (l0 : list Z) : list (key * Z) :=
  map (fun p => (skey (skl_arena s) p, sval (skl_arena s) p)) l0.

(** [below a k y]: the key stored in node [y] is smaller than [k], which
    is what makes a search for [k] step over [y]. *)
Definition below (a : ArenaMmap) (k : key) (y : Z) : Prop :=
  bytes_Compare k (skey a y) = Gt.

(** The state of the first loop of Put before it searches level [i - 1]:
    the base list is cut in [a ++ b] where the search stands, and at each
    level from [i] up to the list height prev and next hold the last node
    of [a] and the first node of [b] linked at that level. *)
Definition splice_at (s : SkiplistMmap) (l0 a b : list Z) (k : key) (i : nat)
    (prev next : list Z) : Prop :=
  l0 = a ++ b /\
  length prev = S maxHeight /\
  length next = S maxHeight /\
  (forall j, (i <= j <= skl_height s)%nat ->
     prev !! j = Some (lastd (skl_head s) (level_list (hgt (skl_arena s)) j a)) /\
     next !! j = Some (hd0 (level_list (hgt (skl_arena s)) j b))) /\
  (forall j, (skl_height s < j <= maxHeight)%nat -> prev !! j = Some 0) /\
  (forall y, last a = Some y -> (i < hgt (skl_arena s) y)%nat /\ below (skl_arena s) k y) /\
  (forall y, head (level_list (hgt (skl_arena s)) i b) = Some y ->
     bytes_Compare k (skey (skl_arena s) y) = Lt).

(** A store that keeps the key, the height and the number of tower slots
    of the node. *)
Definition same_frame (x x' : node) : Prop :=
  node_keyOffset x' = node_keyOffset x /\
  node_keySize x' = node_keySize x /\
  node_height x' = node_height x /\
  length (node_tower x') = length (node_tower x).

(** The levels of [p] that are linked while Put links the new node [x]
    and has done so below level [i]. *)
Definition lh_ins (a : ArenaMmap) (x : Z) (i : nat) (p : Z) : nat :=
  if decide (p = x) then i else hgt a p.

(** The state of the second loop of Put before it links level [i]: the new
    node [x] sits between [a] and [b] and is linked below level [i]. *)
Definition linking (s : SkiplistMmap) (a b : list Z) (x : Z) (i : nat) : Prop :=
  wf_base s (a ++ x :: b) /\
  links (skl_arena s) (skl_head s) (lh_ins (skl_arena s) x i) (a ++ x :: b).

(** What prev and next hold from level [i] up: the neighbours of the new
    node at the levels the first loop searched, nil above the height [H0]
    the list had then. *)
Definition link_arrays (s : SkiplistMmap) (a b : list Z) (x : Z) (H0 i : nat)
    (prev next : list Z) : Prop :=
  length prev = S maxHeight /\
  length next = S maxHeight /\
  Forall (fun p => (hgt (skl_arena s) p <= H0)%nat) (a ++ b) /\
  (1 <= H0)%nat /\
  forall j, (i <= j < hgt (skl_arena s) x)%nat ->
    (prev !! j = Some (lastd (skl_head s) (level_list (hgt (skl_arena s)) j a)) /\
     next !! j = Some (hd0 (level_list (hgt (skl_arena s)) j b))) \/
    ((H0 < j)%nat /\ prev !! j = Some 0).

(** The arena after newNodeMmap(arena, k, uid, h) has allocated a node. *)
Definition arena_with_node (a : ArenaMmap) (k : key) (uid : Z) (h : nat) : ArenaMmap :=
  let x := align_up (arena_n a) in
  let ko := x + nodeHeaderSize + Z.of_nat h * offsetSize in
  mkArena (ko + Z.of_nat (length k)) (arena_cap a)
    (<[x := mkNode uid ko (uint16 (length k)) (uint16 h) (replicate h 0)]> (arena_nodes a))
    (<[ko := k]> (arena_keys a)).

(** [same_data s s']: [s'] differs from [s] in tower slots only. *)
Definition same_data (s s' : SkiplistMmap) : Prop :=
  skl_height s' = skl_height s /\
  skl_head s' = skl_head s /\
  skl_ref s' = skl_ref s /\
  arena_n (skl_arena s') = arena_n (skl_arena s) /\
  arena_cap (skl_arena s') = arena_cap (skl_arena s) /\
  arena_keys (skl_arena s') = arena_keys (skl_arena s) /\
  forall p, skey (skl_arena s') p = skey (skl_arena s) p /\
            sval (skl_arena s') p = sval (skl_arena s) p /\
            hgt (skl_arena s') p = hgt (skl_arena s) p.

(** ** Runs of Put, and what they should leave in the list *)

(** A call Put(k, v) together with the draws FastRand gives it. *)
Record put_call := mkPut {
  put_rnd : nat -> Z;
  put_key : key;
  put_val : Z
}.

(** Put applied to each call in turn. *)
Fixpoint Puts (s : SkiplistMmap) (ops : list put_call) : res SkiplistMmap :=
  match ops with
  | [] => Ok s
  | op :: ops' =>
      s' <- Put (put_rnd op) s (put_key op) (put_val op) ;;
      Puts s' ops'
  end.

(** The value of the last call with key [k], if there is one. *)
Fixpoint last_put (ops : list put_call) (k : key) : option Z :=
  match ops with
  | [] => None
  | op :: ops' =>
      match last_put ops' k with
      | Some v => Some v
      | None => if bytes_Equal k (put_key op) then Some (put_val op) else None
      end
  end.

(** The first value paired with [k] in a list of pairs. *)
Fixpoint lookup_key (c : list (key * Z)) (k : key) : option Z :=
  match c with
  | [] => None
  | (k', v) :: c' => if bytes_Equal k k' then Some v else lookup_key c' k
  end.

(** Keys that fit the 16-bit keySize field. *)
Definition short_key (k : key) : Prop := Z.of_nat (length k) < 65536.

(** What findNear answers when the base list is cut in [a ++ b] with the
    keys of [a] below [k] and the first key of [b] not below [k]. *)
Definition near_result (s : SkiplistMmap) (k : key) (less allowEqual : bool)
    (a b : list Z) : Z * bool :=
  match b with
  | [] => if less then not_head s (lastd (skl_head s) a) else (0, false)
  | y :: b' =>
      match bytes_Compare k (skey (skl_arena s) y) with
      | Eq => if allowEqual then (y, true)
              else if less then not_head s (lastd (skl_head s) a)
              else (hd0 b', false)
      | _ => if less then not_head s (lastd (skl_head s) a) else (y, false)
      end
  end.

(** A new skiplist and then the calls [ops]. *)
Definition NewAndPuts (arenaSize : Z) (ops : list put_call) : res SkiplistMmap :=
  s0 <- NewSkiplistMmap arenaSize ;;
  Puts s0 ops.

(** it.Next() repeated for as long as the iterator is valid, collecting
    the key at each position; the iterator the walk ends with is
    returned too. *)
Fixpoint walk (fuel : nat) (s : SkiplistMmap) (it : IteratorMmap)
  : res (list key * IteratorMmap) :=
  match fuel with
  | O => Err OutOfFuel
  | S fuel' =>
      if Valid it then
        k <- Key s it ;;
        it' <- Next s it ;;
        '(ks, last) <- walk fuel' s it' ;;
        Ok (k :: ks, last)
      else Ok ([], it)
  end.

(** SeekToFirst followed by repeated Next. *)
Definition iterate (s : SkiplistMmap) : res (list key * IteratorMmap) :=
  it <- SeekToFirst s (mkIter 0) ;;
  walk (loop_fuel s) s it.

(** The nodes reached from the head by following links, at any level. *)
Inductive reachable (s : SkiplistMmap) : Z -> Prop :=
| reach_first (L : nat) (p : Z) :
    getNext s (skl_head s) L = Ok p -> p <> 0 -> reachable s p
| reach_next (L : nat) (q p : Z) :
    reachable s q -> getNext s q L = Ok p -> p <> 0 -> reachable s p.

(** ** Concrete calls used in the examples *)

(** Draws that keep every tower at height 1, and draws that grow it. *)
Definition rnd_low : nat -> Z := fun _ => 2 ^ 32 - 1.
Definition rnd_grow : nat -> Z := fun i => if (i <? 2)%nat then 0 else 2 ^ 32 - 1.

Definition key_a : key := ["a"%byte].
Definition key_b : key := ["b"%byte].
Definition key_c : key := ["c"%byte].

(** A key of 65536 bytes, one more than the keySize field can count. *)
Definition key_64k : key := replicate (Z.to_nat 65536) x00.

(** A key of 65537 bytes that starts with "c". *)
Definition key_c_long : key := "c"%byte :: replicate (Z.to_nat 65536) "z"%byte.

Definition puts_abc : list put_call :=
  [mkPut rnd_grow key_b 2; mkPut rnd_low key_a 1; mkPut rnd_grow key_c 3].

(** The skiplist after the calls [puts_abc] on a new skiplist. *)
Definition skl_abc : SkiplistMmap :=
  match NewAndPuts 4096 puts_abc with
  | Ok s => s
  | Err _ => mkSkl 0 0 0 (newArenaMmap 0)
  end.

(** Arena space that is enough for the calls [ops], whatever the draws:
    a node is aligned to 8 and has at most maxHeight tower slots. *)
Definition put_space (k : key) : Z := 103 + Z.of_nat (length k).

Fixpoint puts_space (ops : list put_call) : Z :=
  match ops with
  | [] => 0
  | op :: ops' => put_space (put_key op) + puts_space ops'
  end.

(* ===================================================================== *)
(** ** Reference counting and the unidirectional iterator *)
(* ===================================================================== *)

(** A skiplist is live, or it was released by DecrRef: then its arena and
    its head are nil and only the height and the count are left. *)
Inductive lifetime :=
| Live (s : SkiplistMmap)
| Released (height : nat) (ref : Z).

(** s.DecrRef(): the count goes down by one; when it is no longer positive
    the arena is reset and the arena and the head are set to nil. *)
Definition DecrRef (s : SkiplistMmap) : lifetime :=
  let newRef := wrap_int32 (skl_ref s - 1) in
  if 0 <? newRef
  then Live (mkSkl (skl_height s) (skl_head s) newRef (skl_arena s))
  else Released (skl_height s) newRef.

(** it.Close(): s.list.DecrRef() *)
Definition Close (s : SkiplistMmap) (it : IteratorMmap) : lifetime := DecrRef s.

(** NewIterator [n] times, keeping the list. *)
Fixpoint open_iterators (n : nat) (s : SkiplistMmap) : SkiplistMmap :=
  match n with
  | O => s
  | S n' => open_iterators n' (fst (NewIterator s))
  end.

(** Close on [n] iterators of the list, for as long as it is live. *)
Fixpoint close_iterators (n : nat) (s : SkiplistMmap) : lifetime :=
  match n with
  | O => Live s
  | S n' =>
      match Close s (mkIter 0) with
      | Live s' => close_iterators n' s'
      | Released h r => Released h r
      end
  end.

Record UniIteratorMmap := mkUni {
  uni_iter : IteratorMmap;
  uni_reversed : bool
}.

(** s.NewUniIterator(reversed) *)
Definition NewUniIterator (s : SkiplistMmap) (reversed : bool)
  : SkiplistMmap * UniIteratorMmap :=
  let '(s', it) := NewIterator s in (s', mkUni it reversed).

Definition with_iter (u : UniIteratorMmap) (it : IteratorMmap) : UniIteratorMmap :=
  mkUni it (uni_reversed u).

(** UniIteratorMmap.Next *)
Definition UniNext (s : SkiplistMmap) (u : UniIteratorMmap) : res UniIteratorMmap :=
  if negb (uni_reversed u)
  then it <- Next s (uni_iter u) ;; Ok (with_iter u it)
  else it <- Prev s (uni_iter u) ;; Ok (with_iter u it).

(** UniIteratorMmap.Rewind *)
Definition UniRewind (s : SkiplistMmap) (u : UniIteratorMmap) : res UniIteratorMmap :=
  if negb (uni_reversed u)
  then it <- SeekToFirst s (uni_iter u) ;; Ok (with_iter u it)
  else it <- SeekToLast s (uni_iter u) ;; Ok (with_iter u it).

(** UniIteratorMmap.Seek *)
Definition UniSeek (s : SkiplistMmap) (u : UniIteratorMmap) (k : key)
  : res UniIteratorMmap :=
  if negb (uni_reversed u)
  then it <- Seek s (uni_iter u) k ;; Ok (with_iter u it)
  else it <- SeekForPrev s (uni_iter u) k ;; Ok (with_iter u it).

(** UniIteratorMmap.Key, Value, Valid and Close *)
Definition UniKey (s : SkiplistMmap) (u : UniIteratorMmap) : res key :=
  Key s (uni_iter u).
Definition UniValue (s : SkiplistMmap) (u : UniIteratorMmap) : res Z :=
  Value s (uni_iter u).
Definition UniValid (u : UniIteratorMmap) : bool := Valid (uni_iter u).
Definition UniClose (s : SkiplistMmap) (u : UniIteratorMmap) : lifetime :=
  Close s (uni_iter u).

(** Rewind, then Next for as long as the iterator is valid, collecting the
    key and the value at each position. *)
Fixpoint uni_walk (fuel : nat) (s : SkiplistMmap) (u : UniIteratorMmap)
  : res (list (key * Z)) :=
  match fuel with
  | O => Err OutOfFuel
  | S fuel' =>
      if UniValid u then
        k <- UniKey s u ;;
        v <- UniValue s u ;;
        u' <- UniNext s u ;;
        kvs <- uni_walk fuel' s u' ;;
        Ok ((k, v) :: kvs)
      else Ok []
  end.

(** s.NewUniIterator(reversed), Rewind, and the walk to the end. *)
Definition uni_iterate (s : SkiplistMmap) (reversed : bool) : res (list (key * Z)) :=
  let '(s', u) := NewUniIterator s reversed in
  u <- UniRewind s' u ;;
  uni_walk (loop_fuel s') s' u.

(** A new skiplist with an arena of 4096 bytes. *)
Definition skl_new : SkiplistMmap :=
  match NewSkiplistMmap 4096 with
  | Ok s => s
  | Err _ => mkSkl 0 0 0 (newArenaMmap 0)
  end.

Definition key_d : key := ["d"%byte].

(** The skiplist [skl_abc] after Put("d", 4). *)
Definition skl_abcd : SkiplistMmap :=
  match Put rnd_low skl_abc key_d 4 with
  | Ok s => s
  | Err _ => mkSkl 0 0 0 (newArenaMmap 0)
  end.

(** A key of 65536 bytes above "b": its length does not fit the keySize
    field, which holds 0 for it. *)
Definition key_z64k : key := replicate (Z.to_nat 65536) "z"%byte.

(* ===================================================================== *)
(** * Properties *)
(* ===================================================================== *)

(** ** The order on keys *)

Lemma byte_to_N_inj (x y : byte) : Byte.to_N x = Byte.to_N y -> x = y.
Proof.
  intros H.
  assert (Hs : Some x = Some y)
    by (rewrite <- (Byte.of_to_N x), <- (Byte.of_to_N y); now rewrite H).
  now inversion Hs.
Qed.

Lemma bytes_Compare_refl (a : key) : bytes_Compare a a = Eq.
Proof.
  induction a as [|x a IH]; simpl; [reflexivity|].
  now rewrite N.compare_refl.
Qed.

Lemma bytes_Compare_eq (a b : key) : bytes_Compare a b = Eq -> a = b.
Proof.
  revert b; induction a as [|x a IH]; intros [|y b]; simpl; try easy.
  destruct (N.compare (Byte.to_N x) (Byte.to_N y)) eqn:E; try easy.
  intros H. apply N.compare_eq in E. apply byte_to_N_inj in E.
  f_equal; auto.
Qed.

Lemma bytes_Compare_antisym (a b : key) :
  bytes_Compare b a = CompOpp (bytes_Compare a b).
Proof.
  revert b; induction a as [|x a IH]; intros [|y b]; simpl; try easy.
  rewrite (N.compare_antisym (Byte.to_N x) (Byte.to_N y)).
  destruct (N.compare (Byte.to_N x) (Byte.to_N y)); simpl; auto.
Qed.

Lemma bytes_Compare_Gt_Lt (a b : key) :
  bytes_Compare a b = Gt <-> bytes_Compare b a = Lt.
Proof.
  rewrite (bytes_Compare_antisym a b).
  destruct (bytes_Compare a b); simpl; split; congruence.
Qed.

Lemma key_lt_trans (a b c : key) : key_lt a b -> key_lt b c -> key_lt a c.
Proof.
  unfold key_lt. revert b c.
  induction a as [|x a IH]; intros [|y b] [|z c]; simpl; try easy.
  destruct (N.compare (Byte.to_N x) (Byte.to_N y)) eqn:Exy;
    destruct (N.compare (Byte.to_N y) (Byte.to_N z)) eqn:Eyz; try easy.
  - apply N.compare_eq in Exy, Eyz. rewrite Exy, Eyz, N.compare_refl. eauto.
  - apply N.compare_eq in Exy. rewrite Exy, Eyz. auto.
  - apply N.compare_eq in Eyz. rewrite <- Eyz, Exy. auto.
  - intros _ _.
    rewrite N.compare_lt_iff in Exy, Eyz.
    assert (E : N.compare (Byte.to_N x) (Byte.to_N z) = Lt)
      by (apply N.compare_lt_iff; lia).
    now rewrite E.
Qed.

Lemma key_lt_irrefl (a : key) : ~ key_lt a a.
Proof. unfold key_lt. now rewrite bytes_Compare_refl. Qed.

Lemma bytes_Equal_true (a b : key) : bytes_Equal a b = true <-> a = b.
Proof.
  unfold bytes_Equal. split.
  - destruct (bytes_Compare a b) eqn:E; try easy. intros _. now apply bytes_Compare_eq.
  - intros ->. now rewrite bytes_Compare_refl.
Qed.

(** ** zeroOut *)

Lemma copy_from_start_length (data : list byte) (bp : nat) :
  (bp <= length data)%nat -> length (copy_from_start data bp) = length data.
Proof.
  intros H. unfold copy_from_start.
  rewrite !length_app, !length_take, length_drop. lia.
Qed.

Lemma copy_from_start_zero (data : list byte) (bp : nat) :
  (bp <= length data)%nat ->
  Forall (eq x00) (take bp data) ->
  Forall (eq x00) (take (bp + bp) (copy_from_start data bp)).
Proof.
  intros Hle Hz. unfold copy_from_start.
  rewrite app_assoc.
  assert (Hab : Forall (eq x00) (take bp data ++ take (length data - bp) (take bp data))).
  { apply Forall_app; split; [assumption|]. now apply Forall_take. }
  destruct (decide (bp + bp <= length data)%nat) as [Hfit|Hfit].
  - rewrite take_app_le; [now apply Forall_take|].
    rewrite length_app, !length_take. lia.
  - rewrite drop_ge by lia. rewrite app_nil_r. now apply Forall_take.
Qed.

Lemma zeroOut_loop_spec (fuel : nat) :
  forall (data : list byte) (bp : Z),
    1 <= bp ->
    Z.of_nat (length data) <= 2 ^ 62 ->
    Z.of_nat (length data) <= bp * 2 ^ Z.of_nat fuel ->
    Forall (eq x00) (take (Z.to_nat bp) data) ->
    zeroOut_loop (S fuel) data bp = Ok (replicate (length data) x00).
Proof.
  induction fuel as [|fuel IH]; intros data bp Hbp Hlen Hfuel Hz.
  - simpl in *. replace (bp <? Z.of_nat (length data)) with false by lia.
    f_equal. rewrite take_ge in Hz by lia.
    symmetry. apply replicate_as_Forall. split; [reflexivity|].
    eapply Forall_impl; [exact Hz|]. now intros ? <-.
  - cbn [zeroOut_loop].
    destruct (bp <? Z.of_nat (length data)) eqn:E.
    + replace (bp <? 0) with false by lia.
      assert (Hw : wrap_int (bp * 2) = bp * 2).
      { unfold wrap_int. rewrite Z.mod_small; lia. }
      rewrite Hw.
      assert (Hl : length (copy_from_start data (Z.to_nat bp)) = length data)
        by (apply copy_from_start_length; lia).
      change (zeroOut_loop (S fuel) (copy_from_start data (Z.to_nat bp)) (bp * 2)
              = Ok (replicate (length data) x00)).
      rewrite <- Hl. apply IH; try lia.
      * rewrite Hl. rewrite Nat2Z.inj_succ, Z.pow_succ_r in Hfuel by lia. lia.
      * replace (Z.to_nat (bp * 2)) with (Z.to_nat bp + Z.to_nat bp)%nat by lia.
        apply copy_from_start_zero; [lia|assumption].
    + f_equal. rewrite take_ge in Hz by lia.
      symmetry. apply replicate_as_Forall. split; [reflexivity|].
      eapply Forall_impl; [exact Hz|]. now intros ? <-.
Qed.

(** C7.  For a slice [data] (of at most 2^62 bytes, so that the doubling
    of the int [bp] stays in range) and an offset with
    0 <= offset < len(data), zeroOut returns normally, every byte at an
    index >= offset is then zero, and every byte at an index < offset is
    what it was. *)
Theorem zeroOut_clears_from_offset (data : list byte) (offset : Z) :
  0 <= offset < Z.of_nat (length data) ->
  Z.of_nat (length data) <= 2 ^ 62 ->
  exists data',
    zeroOut data offset = Ok data' /\
    length data' = length data /\
    (forall i : nat, (Z.to_nat offset <= i < length data)%nat -> data' !! i = Some x00) /\
    (forall i : nat, (i < Z.to_nat offset)%nat -> data' !! i = data !! i).
Proof.
  intros Hoff Hlen.
  unfold zeroOut.
  replace ((offset <? 0) || (Z.of_nat (length data) <? offset)) with false
    by (symmetry; apply orb_false_iff; lia).
  assert (Hdl : length (drop (Z.to_nat offset) data) = (length data - Z.to_nat offset)%nat)
    by apply length_drop.
  destruct (drop (Z.to_nat offset) data) as [|b rest] eqn:Ed.
  { simpl in Hdl. lia. }
  rewrite (zeroOut_loop_spec 63 (x00 :: rest) 1); try lia.
  - simpl rbind. eexists; split; [reflexivity|].
    simpl in Hdl.
    assert (Htl : length (take (Z.to_nat offset) data) = Z.to_nat offset)
      by (rewrite length_take; lia).
    split; [|split].
    + rewrite length_app, Htl. simpl. rewrite length_replicate. lia.
    + intros i Hi. rewrite lookup_app_r by lia.
      rewrite Htl. apply (lookup_replicate_2 (S (length rest)) x00). lia.
    + intros i Hi. rewrite lookup_app_l by lia. apply lookup_take_lt. lia.
  - simpl length in *. lia.
  - simpl length in *. change (2 ^ Z.of_nat 63) with (2 ^ 63). lia.
  - simpl. constructor; [reflexivity|constructor].
Qed.

Lemma zeroOut_clears_from_offset_witness :
  exists data',
    zeroOut [x01; x02; x03; x04; x05; x06; x07] 2 = Ok data' /\
    length data' = 7%nat /\
    (forall i : nat, (Z.to_nat 2 <= i < 7)%nat -> data' !! i = Some x00) /\
    (forall i : nat, (i < Z.to_nat 2)%nat ->
       data' !! i = [x01; x02; x03; x04; x05; x06; x07] !! i).
Proof.
  apply (zeroOut_clears_from_offset [x01; x02; x03; x04; x05; x06; x07] 2).
  - simpl. lia.
  - simpl. lia.
Defined.

(** ** Paths *)

Lemma lastd_nil (x : Z) : lastd x [] = x.
Proof. reflexivity. Qed.

Lemma last_cons_lastd (y : Z) (l : list Z) : last (y :: l) = Some (lastd y l).
Proof.
  unfold lastd. revert y. induction l as [|z l IH]; intros y; [reflexivity|].
  rewrite last_cons_cons, (IH z). reflexivity.
Qed.

Lemma lastd_cons (x y : Z) (l : list Z) : lastd x (y :: l) = lastd y l.
Proof. unfold lastd at 1. now rewrite last_cons_lastd. Qed.

Lemma lastd_app (x : Z) (l1 l2 : list Z) : lastd x (l1 ++ l2) = lastd (lastd x l1) l2.
Proof.
  revert x. induction l1 as [|y l1 IH]; intros x; [reflexivity|].
  simpl. rewrite !lastd_cons. apply IH.
Qed.

Lemma lastd_snoc (x y : Z) (l : list Z) : lastd x (l ++ [y]) = y.
Proof. now rewrite lastd_app. Qed.

Lemma lastd_elem (x : Z) (l : list Z) : lastd x l = x \/ lastd x l ∈ l.
Proof.
  revert x. induction l as [|y l IH]; intros x; [now left|].
  right. rewrite lastd_cons. destruct (IH y) as [->|H].
  - apply list_elem_of_here.
  - now apply list_elem_of_further.
Qed.

Lemma lastd_in (x : Z) (l : list Z) : l <> [] -> lastd x l ∈ l.
Proof.
  destruct l as [|y l]; [easy|]. intros _. rewrite lastd_cons.
  destruct (lastd_elem y l) as [->|H].
  - apply list_elem_of_here.
  - now apply list_elem_of_further.
Qed.

Lemma path_next (a : ArenaMmap) (L : nat) (x : Z) (l : list Z) (e : Z) :
  path a L x l e -> getNextOffset a x L = Ok (default e (head l)).
Proof. destruct l; simpl; tauto. Qed.

Lemma path_app_inv (a : ArenaMmap) (L : nat) (l1 l2 : list Z) (e : Z) :
  forall x, path a L x (l1 ++ l2) e ->
            path a L x l1 (default e (head l2)) /\ path a L (lastd x l1) l2 e.
Proof.
  induction l1 as [|y l1 IH]; intros x H; simpl in *.
  - split; [now apply path_next|exact H].
  - destruct H as [H1 H2]. apply IH in H2 as [H2 H3].
    rewrite lastd_cons. tauto.
Qed.

Lemma path_app (a : ArenaMmap) (L : nat) (l1 l2 : list Z) (e : Z) :
  forall x, path a L x l1 (default e (head l2)) ->
            path a L (lastd x l1) l2 e ->
            path a L x (l1 ++ l2) e.
Proof.
  induction l1 as [|y l1 IH]; intros x H1 H2; simpl in *.
  - exact H2.
  - destruct H1 as [H1 H1']. rewrite lastd_cons in H2. auto.
Qed.

Lemma path_frame (a a' : ArenaMmap) (L : nat) (l : list Z) (e : Z) :
  forall x,
    (forall y, y ∈ x :: l -> getNextOffset a' y L = getNextOffset a y L) ->
    path a L x l e -> path a' L x l e.
Proof.
  induction l as [|z l IH]; intros x Hf H; simpl in *.
  - rewrite Hf; [exact H|apply list_elem_of_here].
  - destruct H as [H1 H2]. split.
    + rewrite Hf; [exact H1|apply list_elem_of_here].
    + apply IH; [|exact H2]. intros y Hy. apply Hf. now apply list_elem_of_further.
Qed.

(** ** Reading nodes of a well-formed list *)

Lemma deref_Some (a : ArenaMmap) (p : Z) (x : node) :
  p <> 0 -> arena_nodes a !! p = Some x -> deref a p = Ok x.
Proof.
  intros Hp Hx. unfold deref.
  destruct (Z.eqb_spec p 0); [contradiction|]. now rewrite Hx.
Qed.

Lemma node_ok_key (s : SkiplistMmap) (p : Z) :
  node_ok s p -> keyMmap (skl_arena s) p = Ok (skey (skl_arena s) p).
Proof.
  intros (Hp & x & kb & Hx & _ & _ & Hk).
  unfold skey, keyMmap. rewrite (deref_Some _ _ _ Hp Hx). cbn [rbind].
  unfold getKey. now rewrite Hk.
Qed.

Lemma node_ok_hgt (s : SkiplistMmap) (p : Z) :
  node_ok s p -> (1 <= hgt (skl_arena s) p <= skl_height s)%nat.
Proof.
  intros (Hp & x & kb & Hx & Hh & _). unfold hgt. now rewrite Hx.
Qed.

Lemma level_list_app (lh : Z -> nat) (L : nat) (l1 l2 : list Z) :
  level_list lh L (l1 ++ l2) = level_list lh L l1 ++ level_list lh L l2.
Proof. apply filter_app. Qed.

Lemma level_list_elem (lh : Z -> nat) (L : nat) (l : list Z) (p : Z) :
  p ∈ level_list lh L l <-> (L < lh p)%nat /\ p ∈ l.
Proof. unfold level_list. now rewrite list_elem_of_filter. Qed.

Lemma level_list_length (lh : Z -> nat) (L : nat) (l : list Z) :
  (length (level_list lh L l) <= length l)%nat.
Proof. apply length_filter. Qed.

Lemma level_list_all (lh : Z -> nat) (L : nat) (l : list Z) :
  Forall (fun p => (L < lh p)%nat) l -> level_list lh L l = l.
Proof.
  induction 1 as [|p l Hp _ IH]; [reflexivity|].
  unfold level_list in *. rewrite filter_cons_True by exact Hp. now rewrite IH.
Qed.

Lemma level_list_none (lh : Z -> nat) (L : nat) (l : list Z) :
  Forall (fun p => (lh p <= L)%nat) l -> level_list lh L l = [].
Proof.
  induction 1 as [|p l Hp _ IH]; [reflexivity|].
  unfold level_list in *. rewrite filter_cons_False by lia. exact IH.
Qed.

Lemma level_list_forall (lh : Z -> nat) (L : nat) (l : list Z) (P : Z -> Prop) :
  Forall P l -> Forall P (level_list lh L l).
Proof.
  intros H. apply Forall_forall. intros p Hp.
  apply level_list_elem in Hp as [_ Hp].
  rewrite Forall_forall in H. auto.
Qed.

(** ** findSpliceForLevel *)

Lemma getNext_eq (s : SkiplistMmap) (x : Z) (L : nat) :
  getNext s x L = getNextOffset (skl_arena s) x L.
Proof.
  unfold getNext, getNode. destruct (getNextOffset (skl_arena s) x L); reflexivity.
Qed.

Lemma findSplice_loop_spec (s : SkiplistMmap) (k : key) (L : nat) :
  forall (l : list Z) (fuel : nat) (before : Z),
    path (skl_arena s) L before l 0 ->
    Forall (node_ok s) l ->
    (length l < fuel)%nat ->
    exists l1 l2,
      l = l1 ++ l2 /\ Forall (below (skl_arena s) k) l1 /\
      match l2 with
      | [] => findSpliceForLevel_loop fuel s k before L = Ok (lastd before l1, 0)
      | y :: _ =>
          match bytes_Compare k (skey (skl_arena s) y) with
          | Eq => findSpliceForLevel_loop fuel s k before L = Ok (y, y)
          | Lt => findSpliceForLevel_loop fuel s k before L = Ok (lastd before l1, y)
          | Gt => False
          end
      end.
Proof.
  induction l as [|y l IH]; intros fuel before Hp Hok Hfuel;
    (destruct fuel as [|fuel]; [simpl in Hfuel; lia|]).
  - exists [], []. repeat split; [constructor|].
    cbn [findSpliceForLevel_loop]. rewrite getNext_eq.
    simpl in Hp. rewrite Hp. reflexivity.
  - simpl in Hp. destruct Hp as [Hn Hp].
    inversion Hok as [|? ? Hy Hok']; subst.
    assert (Hy0 : y <> 0) by apply Hy.
    assert (Hstep : forall r,
      (match bytes_Compare k (skey (skl_arena s) y) with
       | Eq => Ok (y, y)
       | Lt => Ok (before, y)
       | Gt => findSpliceForLevel_loop fuel s k y L
       end) = r -> findSpliceForLevel_loop (S fuel) s k before L = r).
    { intros r <-. cbn [findSpliceForLevel_loop]. rewrite getNext_eq, Hn.
      cbn [rbind]. destruct (Z.eqb_spec y 0); [contradiction|].
      rewrite (node_ok_key _ _ Hy). reflexivity. }
    destruct (bytes_Compare k (skey (skl_arena s) y)) eqn:E.
    + exists [], (y :: l). repeat split; [constructor|]. rewrite E. now apply Hstep.
    + exists [], (y :: l). repeat split; [constructor|]. rewrite E. now apply Hstep.
    + destruct (IH fuel y Hp Hok') as (l1 & l2 & -> & Hl1 & Hres); [simpl in Hfuel; lia|].
      exists (y :: l1), l2. split; [reflexivity|]. split; [now constructor|].
      rewrite lastd_cons.
      destruct l2 as [|z l2]; [now apply Hstep|].
      destruct (bytes_Compare k (skey (skl_arena s) z)); [now apply Hstep..|exact Hres].
Qed.

(** ** Cutting the base list where a level was cut *)

Lemma level_list_split (lh : Z -> nat) (L : nat) (b : list Z) :
  forall l1 l2,
    level_list lh L b = l1 ++ l2 ->
    exists c b',
      b = c ++ b' /\ level_list lh L c = l1 /\ level_list lh L b' = l2 /\
      (l1 = [] -> c = []) /\ (forall x, lastd x c = lastd x l1).
Proof.
  unfold level_list.
  induction b as [|z b IH]; intros l1 l2 H.
  - rewrite filter_nil in H. symmetry in H. apply app_eq_nil in H as [-> ->].
    exists [], []. repeat split.
  - destruct l1 as [|y l1].
    { exists [], (z :: b). repeat split. exact H. }
    destruct (decide (L < lh z)%nat) as [Hz|Hz].
    + rewrite filter_cons_True in H by exact Hz. simpl in H.
      injection H as -> H.
      destruct (IH _ _ H) as (c & b' & -> & Hc & Hb' & Hnil & Hl).
      exists (y :: c), b'. split; [reflexivity|]. split.
      { rewrite filter_cons_True by exact Hz. now rewrite Hc. }
      split; [exact Hb'|]. split; [discriminate|].
      intros x. rewrite !lastd_cons. apply Hl.
    + rewrite filter_cons_False in H by exact Hz.
      destruct (IH _ _ H) as (c & b' & -> & Hc & Hb' & Hnil & Hl).
      exists (z :: c), b'. split; [reflexivity|]. split.
      { rewrite filter_cons_False by exact Hz. exact Hc. }
      split; [exact Hb'|]. split; [discriminate|].
      intros x. rewrite lastd_cons. rewrite Hl. now rewrite !lastd_cons.
Qed.

Lemma lastd_level_list (lh : Z -> nat) (L : nat) (a : list Z) (x : Z) :
  (forall y, last a = Some y -> (L < lh y)%nat) ->
  lastd x (level_list lh L a) = lastd x a.
Proof.
  intros H. destruct (last a) as [y|] eqn:E.
  - apply last_Some in E as [a' ->].
    rewrite level_list_app. unfold level_list at 2.
    rewrite filter_cons_True, filter_nil.
    + now rewrite !lastd_snoc.
    + now apply H.
  - apply last_None in E as ->. reflexivity.
Qed.

Lemma hd0_app (l1 l2 : list Z) : l1 = [] -> hd0 (l1 ++ l2) = hd0 l2.
Proof. now intros ->. Qed.

Lemma hd0_nil : hd0 [] = 0.
Proof. reflexivity. Qed.

Lemma hd0_cons (y : Z) (t : list Z) : hd0 (y :: t) = y.
Proof. reflexivity. Qed.

Lemma hd0_elem (l : list Z) : hd0 l = 0 \/ hd0 l ∈ l.
Proof.
  destruct l as [|y l]; [now left|]. right. apply list_elem_of_here.
Qed.

(** ** One level of the search of Put *)

Lemma wf_path_from (s : SkiplistMmap) (l0 a b : list Z) (L : nat) :
  wf s l0 -> l0 = a ++ b -> (L < maxHeight)%nat ->
  (forall y, last a = Some y -> (L < hgt (skl_arena s) y)%nat) ->
  path (skl_arena s) L (lastd (skl_head s) a) (level_list (hgt (skl_arena s)) L b) 0.
Proof.
  intros [_ Hl] -> HL Hlast.
  specialize (Hl L HL). rewrite level_list_app in Hl.
  apply path_app_inv in Hl as [_ Hl].
  now rewrite lastd_level_list in Hl.
Qed.

Lemma wf_fuel (s : SkiplistMmap) (l0 : list Z) (l : list Z) (L : nat) :
  wf s l0 -> (length l <= length l0)%nat -> (L <= maxHeight)%nat ->
  (length l + L < loop_fuel s)%nat.
Proof.
  intros [Hb _] Hlen HL. pose proof (wf_count _ _ Hb). unfold loop_fuel. lia.
Qed.

Lemma splice_step (s : SkiplistMmap) (l0 a b : list Z) (k : key) (i : nat)
    (prev next : list Z) :
  wf s l0 -> splice_at s l0 a b k (S i) prev next -> (S i <= skl_height s)%nat ->
  (exists y, y ∈ l0 /\ bytes_Compare k (skey (skl_arena s) y) = Eq /\
             findSpliceForLevel s k (lastd (skl_head s) a) i = Ok (y, y)) \/
  (exists c b' p n,
      b = c ++ b' /\
      findSpliceForLevel s k (lastd (skl_head s) a) i = Ok (p, n) /\
      p <> n /\
      splice_at s l0 (a ++ c) b' k i (<[i := p]> prev) (<[i := n]> next)).
Proof.
  intros Hwf (Hl0 & Hlp & Hln & Hpn & Hhi & Hlast & Hhead) Hi.
  pose proof Hwf as [Hb Hlinks].
  pose proof (wf_height _ _ Hb) as Hh.
  assert (Hpath := wf_path_from s l0 a b i Hwf Hl0 ltac:(lia)
                     ltac:(intros y Hy; apply Hlast in Hy; lia)).
  assert (Hnodes : Forall (node_ok s) b).
  { pose proof (wf_nodes _ _ Hb) as H. rewrite Hl0 in H.
    now apply Forall_app in H as [_ H]. }
  assert (Hfuel : (length (level_list (hgt (skl_arena s)) i b) < loop_fuel s)%nat).
  { pose proof (wf_fuel s l0 (level_list (hgt (skl_arena s)) i b) 0 Hwf) as H.
    pose proof (level_list_length (hgt (skl_arena s)) i b).
    rewrite Hl0, length_app in H. lia. }
  destruct (findSplice_loop_spec s k i _ _ _ Hpath
              (level_list_forall _ _ _ _ Hnodes) Hfuel)
    as (l1 & l2 & Hsplit & Hbelow & Hres).
  destruct (level_list_split _ _ _ _ _ Hsplit)
    as (c & b' & Hb' & Hc & Hb'2 & Hnil & Hlastc).
  fold (findSpliceForLevel s k (lastd (skl_head s) a) i) in Hres.
  (* the nodes stepped over are lower than the level searched before *)
  assert (Hlow : Forall (fun z => (hgt (skl_arena s) z <= S i)%nat) c).
  { apply Forall_forall. intros z Hz.
    destruct (decide (hgt (skl_arena s) z <= S i)%nat) as [|Hbig]; [assumption|].
    exfalso.
    assert (Hin : z ∈ level_list (hgt (skl_arena s)) (S i) c)
      by (apply level_list_elem; split; [lia|assumption]).
    destruct (level_list (hgt (skl_arena s)) (S i) c) as [|y t] eqn:Ey.
    { now apply not_elem_of_nil in Hin. }
    assert (Hyc : y ∈ level_list (hgt (skl_arena s)) (S i) c)
      by (rewrite Ey; apply list_elem_of_here).
    apply level_list_elem in Hyc as [Hyh Hyc].
    assert (Hy1 : y ∈ l1).
    { rewrite <- Hc. apply level_list_elem. split; [lia|assumption]. }
    rewrite Forall_forall in Hbelow. specialize (Hbelow y Hy1).
    specialize (Hhead y). rewrite Hb', level_list_app, Ey in Hhead.
    unfold below in Hbelow. rewrite Hhead in Hbelow; [discriminate|reflexivity]. }
  assert (Hcnil : forall j, (S i <= j)%nat -> level_list (hgt (skl_arena s)) j c = []).
  { intros j Hj. apply level_list_none.
    eapply Forall_impl; [exact Hlow|]. simpl. intros; lia. }
  (* what the new cut satisfies, whatever the second component *)
  assert (Hnew : forall p n,
     p = lastd (lastd (skl_head s) a) l1 -> n = hd0 l2 ->
     (forall y, head l2 = Some y -> bytes_Compare k (skey (skl_arena s) y) = Lt) ->
     splice_at s l0 (a ++ c) b' k i (<[i := p]> prev) (<[i := n]> next)).
  { intros p n -> -> Hlt.
    assert (Hlast' : forall y, last (a ++ c) = Some y ->
              (i < hgt (skl_arena s) y)%nat /\ below (skl_arena s) k y).
    { intros y Hy. destruct l1 as [|z l1].
      - rewrite (Hnil eq_refl), app_nil_r in Hy.
        destruct (Hlast y Hy). split; [lia|assumption].
      - assert (Hyl : y = lastd 0 (z :: l1)).
        { rewrite <- Hlastc. destruct c as [|w c].
          - specialize (Hlastc 0). rewrite lastd_nil in Hlastc.
            specialize (Hlastc). rewrite (Hlastc) in *.
            clear -Hc. discriminate.
          - rewrite last_app_cons, last_cons_lastd in Hy.
            rewrite lastd_cons. congruence. }
        assert (Hin : y ∈ z :: l1) by (rewrite Hyl; now apply lastd_in).
        split.
        + rewrite <- Hc in Hin. now apply level_list_elem in Hin as [? _].
        + rewrite Forall_forall in Hbelow. auto. }
    split; [rewrite Hl0, Hb'; now rewrite app_assoc|].
    split; [now rewrite length_insert|].
    split; [now rewrite length_insert|].
    split; [|split; [|split]].
    - intros j Hj. destruct (decide (j = i)) as [->|Hne].
      + rewrite !list_lookup_insert_eq by lia. split; f_equal.
        * rewrite lastd_level_list by (intros y Hy; now apply Hlast').
          rewrite lastd_app. symmetry. apply Hlastc.
        * now rewrite Hb'2.
      + rewrite !list_lookup_insert_ne by lia.
        destruct (Hpn j ltac:(lia)) as [-> ->].
        rewrite level_list_app, (Hcnil j ltac:(lia)), app_nil_r.
        rewrite Hb', level_list_app, (Hcnil j ltac:(lia)). now split.
    - intros j Hj. rewrite list_lookup_insert_ne by lia. now apply Hhi.
    - exact Hlast'.
    - intros y Hy. apply Hlt. now rewrite <- Hb'2. }
  (* the two results differ unless an equal key was met *)
  assert (Hne : lastd (lastd (skl_head s) a) l1 <> hd0 l2).
  { assert (Hp : lastd (lastd (skl_head s) a) l1 = skl_head s
                 \/ lastd (lastd (skl_head s) a) l1 ∈ a ++ c).
    { rewrite <- Hlastc, <- lastd_app. apply lastd_elem. }
    assert (Hn : hd0 l2 = 0 \/ hd0 l2 ∈ b').
    { rewrite <- Hb'2.
      destruct (hd0_elem (level_list (hgt (skl_arena s)) i b')) as [|H]; [now left|right].
      now apply level_list_elem in H as [_ H]. }
    pose proof (wf_head_ne _ _ Hb) as Hh0.
    pose proof (wf_head_fresh _ _ Hb) as Hhf.
    pose proof (wf_nodup _ _ Hb) as Hnd.
    pose proof (wf_nodes _ _ Hb) as Hall.
    rewrite Hl0, Hb', app_assoc in Hhf, Hnd, Hall.
    rewrite Forall_forall in Hall.
    destruct Hp as [Hp|Hp], Hn as [Hn|Hn]; rewrite ?Hp, ?Hn.
    - exact Hh0.
    - intros E. apply Hhf. rewrite E. apply elem_of_app. now right.
    - intros E.
      destruct (Hall _ ltac:(apply elem_of_app; left; exact Hp)) as [H0 _].
      now apply H0.
    - intros E. apply NoDup_app in Hnd as (_ & Hd & _).
      apply (Hd _ Hp). now rewrite E. }
  destruct l2 as [|y l2].
  - right. exists c, b', (lastd (lastd (skl_head s) a) l1), 0.
    split; [exact Hb'|]. split; [exact Hres|]. split; [exact Hne|].
    apply Hnew; [reflexivity..|discriminate].
  - destruct (bytes_Compare k (skey (skl_arena s) y)) eqn:E; [| |contradiction].
    + left. exists y. split; [|split; [exact E|exact Hres]].
      rewrite Hl0. apply elem_of_app. right.
      assert (Hy : y ∈ level_list (hgt (skl_arena s)) i b)
        by (rewrite Hsplit; apply elem_of_app; right; apply list_elem_of_here).
      now apply level_list_elem in Hy as [_ Hy].
    + right. exists c, b', (lastd (lastd (skl_head s) a) l1), y.
      split; [exact Hb'|]. split; [exact Hres|]. split; [exact Hne|].
      apply Hnew; [reflexivity..|]. intros ? [= <-]. exact E.
Qed.

(** ** The first loop of Put *)

Lemma splice_at_prev (s : SkiplistMmap) (l0 a b : list Z) (k : key) (i : nat)
    (prev next : list Z) :
  splice_at s l0 a b k i prev next -> (i <= skl_height s)%nat ->
  prev !! i = Some (lastd (skl_head s) a).
Proof.
  intros (_ & _ & _ & Hpn & _ & Hlast & _) Hi.
  destruct (Hpn i ltac:(lia)) as [-> _]. f_equal.
  apply lastd_level_list. intros y Hy. now apply Hlast.
Qed.

Lemma splice_at_init (s : SkiplistMmap) (l0 : list Z) (k : key) :
  wf s l0 ->
  splice_at s l0 [] l0 k (skl_height s)
    (<[skl_height s := skl_head s]> (replicate (maxHeight + 1) 0))
    (<[skl_height s := 0]> (replicate (maxHeight + 1) 0)).
Proof.
  intros [Hb _]. pose proof (wf_height _ _ Hb) as Hh.
  assert (Hnone : level_list (hgt (skl_arena s)) (skl_height s) l0 = []).
  { apply level_list_none. eapply Forall_impl; [apply (wf_nodes _ _ Hb)|].
    intros p Hp. apply node_ok_hgt in Hp. simpl. lia. }
  split; [reflexivity|].
  split; [rewrite length_insert, length_replicate; lia|].
  split; [rewrite length_insert, length_replicate; lia|].
  split; [|split; [|split]].
  - intros j Hj. assert (j = skl_height s) as -> by lia.
    rewrite !list_lookup_insert_eq by (rewrite length_replicate; lia).
    rewrite Hnone. now split.
  - intros j Hj. rewrite list_lookup_insert_ne by lia.
    apply lookup_replicate_2. lia.
  - discriminate.
  - rewrite Hnone. discriminate.
Qed.

Lemma Put_search_spec (s : SkiplistMmap) (l0 : list Z) (k : key) :
  wf s l0 ->
  forall (i : nat) (a b prev next : list Z),
    splice_at s l0 a b k i prev next -> (i <= skl_height s)%nat ->
    (exists prev' next' y,
        Put_search s k i prev next = Ok (prev', next', Some y) /\
        y ∈ l0 /\ bytes_Compare k (skey (skl_arena s) y) = Eq) \/
    (exists prev' next' a' b',
        Put_search s k i prev next = Ok (prev', next', None) /\
        splice_at s l0 a' b' k 0 prev' next').
Proof.
  intros Hwf. pose proof Hwf as [Hb _]. pose proof (wf_height _ _ Hb) as Hh.
  induction i as [|i IH]; intros a b prev next Hsp Hi.
  - right. exists prev, next, a, b. now split.
  - cbn [Put_search]. unfold arr_get. rewrite (splice_at_prev _ _ _ _ _ _ _ _ Hsp Hi).
    cbn [rbind].
    pose proof Hsp as (_ & Hlp & Hln & _).
    destruct (splice_step _ _ _ _ _ _ _ _ Hwf Hsp Hi)
      as [(y & Hy & Hcmp & ->)|(c & b' & p & n & Hb' & -> & Hne & Hsp')]; cbn [rbind].
    + unfold arr_set. rewrite Hlp, Hln.
      replace (i <? S maxHeight)%nat with true by (symmetry; apply Nat.ltb_lt; lia).
      cbn [rbind]. rewrite Z.eqb_refl. left.
      exists (<[i := y]> prev), (<[i := y]> next), y. now repeat split.
    + unfold arr_set. rewrite Hlp, Hln.
      replace (i <? S maxHeight)%nat with true by (symmetry; apply Nat.ltb_lt; lia).
      cbn [rbind]. destruct (Z.eqb_spec p n); [contradiction|].
      apply (IH _ _ _ _ Hsp'). lia.
Qed.

(** ** Stores into a node *)

Lemma deref_store_eq (a : ArenaMmap) (p : Z) (x : node) :
  p <> 0 -> deref (store a p x) p = Ok x.
Proof.
  intros Hp. unfold deref, store. cbn [arena_nodes].
  destruct (Z.eqb_spec p 0); [contradiction|]. now rewrite lookup_insert_eq.
Qed.

Lemma deref_store_ne (a : ArenaMmap) (p q : Z) (x : node) :
  q <> p -> deref (store a p x) q = deref a q.
Proof.
  intros Hq. unfold deref, store. cbn [arena_nodes].
  now rewrite lookup_insert_ne by congruence.
Qed.

Lemma deref_inv (a : ArenaMmap) (p : Z) (x : node) :
  deref a p = Ok x -> p <> 0 /\ arena_nodes a !! p = Some x.
Proof.
  unfold deref. destruct (Z.eqb_spec p 0); [discriminate|].
  destruct (arena_nodes a !! p); [|discriminate]. now intros [= ->].
Qed.

Lemma hgt_store (a : ArenaMmap) (p q : Z) (x x' : node) :
  arena_nodes a !! p = Some x -> same_frame x x' ->
  hgt (store a p x') q = hgt a q.
Proof.
  intros Hx (_ & _ & Hh & _). unfold hgt, store. cbn [arena_nodes].
  destruct (decide (q = p)) as [->|Hne].
  - now rewrite lookup_insert_eq, Hx.
  - now rewrite lookup_insert_ne by congruence.
Qed.

Lemma keyMmap_store (a : ArenaMmap) (p q : Z) (x x' : node) :
  arena_nodes a !! p = Some x -> same_frame x x' ->
  keyMmap (store a p x') q = keyMmap a q.
Proof.
  intros Hx (Hko & Hks & _ & _). unfold keyMmap.
  destruct (decide (q = p)) as [->|Hne].
  - destruct (decide (p = 0)) as [->|Hp]; [reflexivity|].
    rewrite deref_store_eq by exact Hp. rewrite (deref_Some _ _ _ Hp Hx).
    cbn [rbind]. unfold getKey, store. cbn [arena_keys]. now rewrite Hko, Hks.
  - rewrite deref_store_ne by exact Hne.
    destruct (deref a q); reflexivity.
Qed.

Lemma skey_store (a : ArenaMmap) (p q : Z) (x x' : node) :
  arena_nodes a !! p = Some x -> same_frame x x' ->
  skey (store a p x') q = skey a q.
Proof.
  intros Hx Hsf. unfold skey. now rewrite (keyMmap_store a p q x x' Hx Hsf).
Qed.

Lemma sval_store_ne (a : ArenaMmap) (p q : Z) (x' : node) :
  q <> p -> sval (store a p x') q = sval a q.
Proof.
  intros Hne. unfold sval, getValue. now rewrite deref_store_ne.
Qed.

Lemma sval_store_eq (a : ArenaMmap) (p : Z) (x' : node) :
  p <> 0 -> sval (store a p x') p = node_value x'.
Proof.
  intros Hp. unfold sval, getValue. now rewrite deref_store_eq.
Qed.

Lemma getNextOffset_store_ne (a : ArenaMmap) (p q : Z) (x' : node) (L : nat) :
  q <> p -> getNextOffset (store a p x') q L = getNextOffset a q L.
Proof.
  intros Hne. unfold getNextOffset. now rewrite deref_store_ne.
Qed.

Lemma getNextOffset_store_tower (a : ArenaMmap) (p q : Z) (x x' : node) (L : nat) :
  arena_nodes a !! p = Some x ->
  node_tower x' !! L = node_tower x !! L ->
  getNextOffset (store a p x') q L = getNextOffset a q L.
Proof.
  intros Hx Ht. destruct (decide (q = p)) as [->|Hne].
  - unfold getNextOffset. destruct (decide (p = 0)) as [->|Hp]; [reflexivity|].
    rewrite deref_store_eq by exact Hp. rewrite (deref_Some _ _ _ Hp Hx).
    cbn [rbind]. now rewrite Ht.
  - now apply getNextOffset_store_ne.
Qed.

Lemma node_ok_store (s : SkiplistMmap) (p q : Z) (x x' : node) :
  arena_nodes (skl_arena s) !! p = Some x -> same_frame x x' ->
  node_ok s q -> node_ok (with_arena s (store (skl_arena s) p x')) q.
Proof.
  intros Hx (Hko & Hks & Hh & Hl) (Hq & y & kb & Hy & Hhy & Hly & Hky).
  split; [exact Hq|]. cbn [with_arena skl_arena skl_height store arena_nodes arena_keys].
  destruct (decide (q = p)) as [->|Hne].
  - exists x', kb. rewrite lookup_insert_eq. rewrite Hx in Hy. injection Hy as <-.
    repeat split; try lia; congruence.
  - exists y, kb. rewrite lookup_insert_ne by congruence. now repeat split.
Qed.

Lemma wf_base_store (s : SkiplistMmap) (l0 : list Z) (p : Z) (x x' : node) :
  wf_base s l0 ->
  arena_nodes (skl_arena s) !! p = Some x -> same_frame x x' ->
  wf_base (with_arena s (store (skl_arena s) p x')) l0.
Proof.
  intros Hb Hx Hsf. destruct Hb as [H1 H2 H3 H4 H5 H6 H7 H8 H9 H10].
  constructor; cbn [with_arena skl_arena skl_height skl_head store arena_nodes
                    arena_keys arena_n]; try assumption.
  - destruct H3 as (hx & Hhx & Hhl).
    destruct (decide (skl_head s = p)) as [E|Hne].
    + exists x'. rewrite E, lookup_insert_eq. split; [reflexivity|].
      rewrite E, Hx in Hhx. injection Hhx as <-. destruct Hsf as (_ & _ & _ & ->).
      exact Hhl.
    + exists hx. now rewrite lookup_insert_ne by congruence.
  - eapply Forall_impl; [exact H6|]. intros q Hq.
    now apply (node_ok_store s p q x x').
  - intros q Hq. apply H7. destruct (decide (q = p)) as [->|Hne].
    + now rewrite Hx.
    + now rewrite lookup_insert_ne in Hq by congruence.
  - now rewrite (keyMmap_store _ _ _ x x' Hx Hsf).
Qed.

Lemma level_list_ext (lh lh' : Z -> nat) (L : nat) (l : list Z) :
  (forall p, p ∈ l -> lh' p = lh p) -> level_list lh' L l = level_list lh L l.
Proof.
  induction l as [|p l IH]; intros H; [reflexivity|].
  unfold level_list in *.
  rewrite !filter_cons, (H p) by apply list_elem_of_here.
  rewrite IH; [reflexivity|]. intros q Hq. apply H. now apply list_elem_of_further.
Qed.

Lemma links_ext (a a' : ArenaMmap) (hd : Z) (lh lh' : Z -> nat) (l0 : list Z) :
  (forall p, p ∈ l0 -> lh' p = lh p) ->
  (forall y L, y ∈ hd :: l0 -> getNextOffset a' y L = getNextOffset a y L) ->
  links a hd lh l0 -> links a' hd lh' l0.
Proof.
  intros Hlh Hnext Hl L HL.
  rewrite (level_list_ext lh lh') by exact Hlh.
  eapply path_frame; [|apply Hl, HL].
  intros y Hy. apply Hnext.
  apply elem_of_cons in Hy as [->|Hy]; [apply list_elem_of_here|].
  apply list_elem_of_further. now apply level_list_elem in Hy as [_ Hy].
Qed.

(** ** Overwriting a value *)

Lemma wf_lookup (s : SkiplistMmap) (l0 : list Z) (y : Z) :
  wf s l0 -> y ∈ l0 -> node_ok s y.
Proof.
  intros [Hb _] Hy. pose proof (wf_nodes _ _ Hb) as H.
  rewrite Forall_forall in H. auto.
Qed.

Lemma same_frame_set_value (x : node) (v : Z) : same_frame x (set_value x v).
Proof. now repeat split. Qed.

Lemma wf_setValue (s : SkiplistMmap) (l0 : list Z) (y : Z) (v : Z) :
  wf s l0 -> y ∈ l0 ->
  exists x,
    arena_nodes (skl_arena s) !! y = Some x /\
    setValue (skl_arena s) y v = Ok (store (skl_arena s) y (set_value x v)) /\
    wf (with_arena s (store (skl_arena s) y (set_value x v))) l0.
Proof.
  intros Hwf Hy. pose proof Hwf as [Hb Hl].
  destruct (wf_lookup _ _ _ Hwf Hy) as (Hy0 & x & kb & Hx & _).
  exists x. split; [exact Hx|]. split.
  - unfold setValue. now rewrite (deref_Some _ _ _ Hy0 Hx).
  - split.
    + apply (wf_base_store s l0 y x); [assumption..|apply same_frame_set_value].
    + cbn [with_arena skl_arena skl_head].
      eapply links_ext; [| |exact Hl].
      * intros p _. apply (hgt_store _ _ _ x); [exact Hx|apply same_frame_set_value].
      * intros q L _. now apply (getNextOffset_store_tower _ _ _ x).
Qed.

(** ** randomHeight, newNodeMmap and the raising of the height *)

Lemma randomHeight_loop_ok (rnd : nat -> Z) :
  forall (fuel draws h : nat),
    (h <= maxHeight)%nat -> (maxHeight - h < fuel)%nat ->
    exists h', randomHeight_loop fuel rnd draws h = Ok h' /\ (h <= h' <= maxHeight)%nat.
Proof.
  induction fuel as [|fuel IH]; intros draws h Hh Hf; [lia|].
  cbn [randomHeight_loop].
  destruct (Nat.ltb_spec h maxHeight) as [Hlt|Hge]; cbn [andb].
  - destruct (FastRand rnd draws <=? heightIncrease).
    + destruct (IH (S draws) (S h)) as (h' & -> & Hh'); [lia..|].
      exists h'. split; [reflexivity|lia].
    + exists h. split; [reflexivity|lia].
  - exists h. split; [reflexivity|lia].
Qed.

Lemma randomHeight_ok (rnd : nat -> Z) :
  exists h, randomHeight rnd = Ok h /\ (1 <= h <= maxHeight)%nat.
Proof.
  apply randomHeight_loop_ok; unfold maxHeight; lia.
Qed.

Lemma align_up_bounds (n : Z) : n <= align_up n < n + 8.
Proof.
  unfold align_up, nodeAlign.
  pose proof (Z.div_mod (n + 8 - 1) 8 ltac:(lia)).
  pose proof (Z.mod_pos_bound (n + 8 - 1) 8 ltac:(lia)). lia.
Qed.

Lemma uint16_small (n : nat) : Z.of_nat n < 65536 -> uint16 n = n.
Proof.
  intros H. unfold uint16. rewrite Z.mod_small by lia. lia.
Qed.

Lemma newNodeMmap_spec (a : ArenaMmap) (k : key) (uid : Z) (h : nat) :
  0 < arena_n a ->
  let x := align_up (arena_n a) in
  let ko := x + nodeHeaderSize + Z.of_nat h * offsetSize in
  (newNodeMmap a k uid h = Err ArenaFull /\ arena_cap a < ko + Z.of_nat (length k)) \/
  newNodeMmap a k uid h =
    Ok (x, mkArena (ko + Z.of_nat (length k)) (arena_cap a)
             (<[x := mkNode uid ko (uint16 (length k)) (uint16 h) (replicate h 0)]>
                (arena_nodes a))
             (<[ko := k]> (arena_keys a))).
Proof.
  intros Hn x ko. unfold newNodeMmap, putNode.
  fold x. fold ko.
  destruct (Z.ltb_spec (arena_cap a) ko); [left; split; [reflexivity|lia]|].
  cbn [rbind]. unfold getNode.
  pose proof (align_up_bounds (arena_n a)).
  assert (Hx : x <> 0) by (unfold x; lia).
  unfold deref. destruct (Z.eqb_spec x 0); [contradiction|].
  cbn [arena_nodes]. rewrite lookup_insert_eq. cbn [rbind].
  unfold putKey. cbn [arena_n arena_cap].
  destruct (Z.ltb_spec (arena_cap a) (ko + Z.of_nat (length k)));
    [left; split; [reflexivity|lia]|].
  cbn [rbind]. right. unfold store, set_value, set_height, set_keySize, set_keyOffset.
  cbn [arena_n arena_cap arena_nodes arena_keys node_value node_keyOffset
       node_keySize node_height node_tower].
  now rewrite insert_insert_eq.
Qed.

Lemma raiseHeight_spec (s : SkiplistMmap) (h : nat) :
  raiseHeight (loop_fuel s) s h (getHeight s)
  = Ok (if (skl_height s <? h)%nat then with_height s h else s).
Proof.
  destruct (loop_fuel s) as [|f] eqn:E; [unfold loop_fuel, maxHeight in E; lia|].
  cbn [raiseHeight]. unfold getHeight.
  destruct (skl_height s <? h)%nat; [|reflexivity].
  unfold casHeight. now rewrite Nat.eqb_refl.
Qed.

(** ** Allocating the new node *)

Lemma newNodeMmap_cases (a : ArenaMmap) (k : key) (uid : Z) (h : nat) :
  0 < arena_n a ->
  (newNodeMmap a k uid h = Err ArenaFull /\
   arena_cap a < align_up (arena_n a) + nodeHeaderSize + Z.of_nat h * offsetSize
                 + Z.of_nat (length k)) \/
  newNodeMmap a k uid h = Ok (align_up (arena_n a), arena_with_node a k uid h).
Proof. intros Hn. exact (newNodeMmap_spec a k uid h Hn). Qed.

Lemma newNode_frame (s : SkiplistMmap) (l0 : list Z) (k : key) (uid : Z) (h : nat) :
  wf s l0 -> (h <= maxHeight)%nat ->
  let a := skl_arena s in
  let x := align_up (arena_n a) in
  let a' := arena_with_node a k uid h in
  x <> 0 /\ (x ∉ l0) /\ x <> skl_head s /\
  (forall p, p <> x -> arena_nodes a' !! p = arena_nodes a !! p) /\
  (forall p, p ∈ l0 -> skey a' p = skey a p /\ sval a' p = sval a p /\ hgt a' p = hgt a p) /\
  (forall p L, p <> x -> getNextOffset a' p L = getNextOffset a p L) /\
  skey a' x = take (uint16 (length k)) k /\ sval a' x = uid /\ hgt a' x = h /\
  arena_nodes a' !! x = Some (mkNode uid (x + nodeHeaderSize + Z.of_nat h * offsetSize)
                                (uint16 (length k)) h (replicate h 0)) /\
  arena_keys a' !! (x + nodeHeaderSize + Z.of_nat h * offsetSize) = Some k /\
  (forall o kb, arena_keys a !! o = Some kb -> arena_keys a' !! o = Some kb).
Proof.
  intros Hwf Hh a x a'. pose proof Hwf as [Hb Hl].
  pose proof (wf_alloc_nodes _ _ Hb) as Han.
  pose proof (wf_alloc_keys _ _ Hb) as Hak.
  pose proof (wf_count _ _ Hb) as Hc.
  pose proof (align_up_bounds (arena_n a)) as Hal. fold x in Hal.
  fold a in Han, Hak, Hc.
  assert (Hu : uint16 h = h) by (apply uint16_small; unfold maxHeight in Hh; lia).
  assert (Hx0 : x <> 0) by lia.
  assert (Hfresh : arena_nodes a !! x = None).
  { destruct (arena_nodes a !! x) eqn:E; [|reflexivity].
    specialize (Han x ltac:(rewrite E; eauto)). lia. }
  assert (Hkfresh : arena_keys a !! (x + nodeHeaderSize + Z.of_nat h * offsetSize) = None).
  { destruct (arena_keys a !! (x + nodeHeaderSize + Z.of_nat h * offsetSize)) eqn:E;
      [|reflexivity].
    specialize (Hak _ ltac:(rewrite E; eauto)). unfold nodeHeaderSize, offsetSize in *. lia. }
  assert (Hxl : x ∉ l0).
  { intros Hin. destruct (wf_lookup _ _ _ Hwf Hin) as (_ & y & kb & Hy & _).
    fold a in Hy. congruence. }
  assert (Hxh : x <> skl_head s).
  { intros E. destruct (wf_head _ _ Hb) as (y & Hy & _). fold a in Hy. congruence. }
  assert (Hnodes : forall p, p <> x -> arena_nodes a' !! p = arena_nodes a !! p).
  { intros p Hp. unfold a', arena_with_node. cbn [arena_nodes].
    rewrite lookup_insert_ne; [reflexivity|]. intros E. apply Hp. now rewrite <- E. }
  assert (Hkeys : forall o kb, arena_keys a !! o = Some kb -> arena_keys a' !! o = Some kb).
  { intros o kb Ho. unfold a', arena_with_node. cbn [arena_keys].
    rewrite lookup_insert_ne; [exact Ho|]. intros E. rewrite <- E in Ho.
    unfold x, a in *. congruence. }
  assert (Hderef : forall p, p <> x -> deref a' p = deref a p).
  { intros p Hp. unfold deref. now rewrite Hnodes. }
  assert (Hxnode : arena_nodes a' !! x
                   = Some (mkNode uid (x + nodeHeaderSize + Z.of_nat h * offsetSize)
                             (uint16 (length k)) h (replicate h 0))).
  { unfold a', arena_with_node. cbn [arena_nodes]. fold a. fold x.
    now rewrite lookup_insert_eq, Hu. }
  assert (Hxkey : arena_keys a' !! (x + nodeHeaderSize + Z.of_nat h * offsetSize) = Some k).
  { unfold a', arena_with_node. cbn [arena_keys]. fold a. fold x.
    now rewrite lookup_insert_eq. }
  repeat split; try assumption.
  - unfold skey, keyMmap. rewrite Hderef by congruence.
    destruct (wf_lookup _ _ _ Hwf H) as (Hp0 & y & kb & Hy & _ & _ & Hk).
    fold a in Hy, Hk. rewrite (deref_Some _ _ _ Hp0 Hy). cbn [rbind].
    unfold getKey. now rewrite (Hkeys _ _ Hk), Hk.
  - unfold sval, getValue. now rewrite Hderef by congruence.
  - unfold hgt. now rewrite Hnodes by congruence.
  - intros p L Hp. unfold getNextOffset. now rewrite Hderef.
  - unfold skey, keyMmap. rewrite (deref_Some _ _ _ Hx0 Hxnode). cbn [rbind].
    unfold getKey. cbn [node_keyOffset node_keySize]. now rewrite Hxkey.
  - unfold sval, getValue. now rewrite (deref_Some _ _ _ Hx0 Hxnode).
  - unfold hgt. now rewrite Hxnode.
Qed.

Lemma level_list_skip (lh : Z -> nat) (L : nat) (a b : list Z) (x : Z) :
  (lh x <= L)%nat -> level_list lh L (a ++ x :: b) = level_list lh L a ++ level_list lh L b.
Proof.
  intros H. rewrite level_list_app. f_equal.
  unfold level_list. apply filter_cons_False. lia.
Qed.

Lemma level_list_keep (lh : Z -> nat) (L : nat) (a b : list Z) (x : Z) :
  (L < lh x)%nat ->
  level_list lh L (a ++ x :: b) = level_list lh L a ++ x :: level_list lh L b.
Proof.
  intros H. rewrite level_list_app. f_equal.
  unfold level_list. now apply filter_cons_True.
Qed.

Lemma lh_ins_other (a : ArenaMmap) (x : Z) (i : nat) (p : Z) :
  p <> x -> lh_ins a x i p = hgt a p.
Proof. intros H. unfold lh_ins. now destruct (decide (p = x)). Qed.

Lemma lh_ins_self (a : ArenaMmap) (x : Z) (i : nat) : lh_ins a x i x = i.
Proof. unfold lh_ins. now destruct (decide (x = x)). Qed.

Lemma level_list_lh_ins (a : ArenaMmap) (x : Z) (i L : nat) (l : list Z) :
  x ∉ l -> level_list (lh_ins a x i) L l = level_list (hgt a) L l.
Proof.
  intros Hx. apply level_list_ext. intros p Hp. apply lh_ins_other.
  intros ->. contradiction.
Qed.

Lemma link_init (s : SkiplistMmap) (l0 a b : list Z) (k : key) (uid : Z) (h : nat)
    (prev next : list Z) :
  wf s l0 -> splice_at s l0 a b k 0 prev next -> (1 <= h <= maxHeight)%nat ->
  let x := align_up (arena_n (skl_arena s)) in
  let s1 := mkSkl (Nat.max (skl_height s) h) (skl_head s) (skl_ref s)
              (arena_with_node (skl_arena s) k uid h) in
  linking s1 a b x 0 /\ link_arrays s1 a b x (skl_height s) 0 prev next.
Proof.
  intros Hwf Hsp Hh x s1. pose proof Hwf as [Hb Hl].
  destruct (newNode_frame s l0 k uid h Hwf ltac:(lia))
    as (Hx0 & Hxl & Hxh & Hnodes & Hold & Hnext & Hxk & Hxv & Hxhgt & Hxnode & Hxkey & Hkeys).
  fold x in Hx0, Hxl, Hxh, Hnodes, Hnext, Hxk, Hxv, Hxhgt, Hxnode, Hxkey.
  destruct Hsp as (Hl0 & Hlp & Hln & Hpn & Hhi & Hlast & Hhead).
  pose proof (wf_height _ _ Hb) as HH.
  assert (Hxa : x ∉ a) by (intros H; apply Hxl; rewrite Hl0; apply elem_of_app; now left).
  assert (Hxb : x ∉ b) by (intros H; apply Hxl; rewrite Hl0; apply elem_of_app; now right).
  assert (Hbase : wf_base s1 (a ++ x :: b)).
  { constructor; cbn [s1 skl_height skl_head skl_arena].
    - lia.
    - apply (wf_head_ne _ _ Hb).
    - destruct (wf_head _ _ Hb) as (y & Hy & Hyl). exists y.
      rewrite Hnodes by congruence. now split.
    - intros Hin. apply elem_of_app in Hin as [Hin|Hin].
      + apply (wf_head_fresh _ _ Hb). rewrite Hl0. apply elem_of_app. now left.
      + apply elem_of_cons in Hin as [Hin|Hin]; [congruence|].
        apply (wf_head_fresh _ _ Hb). rewrite Hl0. apply elem_of_app. now right.
    - pose proof (wf_nodup _ _ Hb) as Hnd. rewrite Hl0 in Hnd.
      apply NoDup_app in Hnd as (Hna & Hdisj & Hnb).
      apply NoDup_app. split; [exact Hna|]. split.
      + intros p Hp Hin. apply elem_of_cons in Hin as [->|Hin]; [contradiction|].
        now apply (Hdisj p).
      + apply NoDup_cons. now split.
    - assert (Hold_ok : forall p, p ∈ l0 -> node_ok s1 p).
      { intros p Hp. destruct (wf_lookup _ _ _ Hwf Hp) as (Hp0 & y & kb & Hy & Hyh & Hyl & Hyk).
        split; [exact Hp0|]. exists y, kb. cbn [s1 skl_arena skl_height].
        rewrite Hnodes by (intros ->; contradiction).
        repeat split; try assumption; try lia. now apply Hkeys. }
      apply Forall_app. split.
      + apply Forall_forall. intros p Hp. apply Hold_ok. rewrite Hl0.
        apply elem_of_app. now left.
      + constructor.
        * split; [exact Hx0|].
          exists (mkNode uid (x + nodeHeaderSize + Z.of_nat h * offsetSize)
                    (uint16 (length k)) h (replicate h 0)), k.
          cbn [s1 skl_arena skl_height node_height node_tower node_keyOffset].
          rewrite length_replicate. repeat split; try lia; assumption.
        * apply Forall_forall. intros p Hp. apply Hold_ok. rewrite Hl0.
          apply elem_of_app. now right.
    - intros p Hp. pose proof (align_up_bounds (arena_n (skl_arena s))) as Hal.
      fold x in Hal. unfold arena_with_node. cbn [arena_n]. fold x.
      destruct (decide (p = x)) as [->|Hne].
      + pose proof (wf_count _ _ Hb). unfold nodeHeaderSize, offsetSize. lia.
      + rewrite Hnodes in Hp by exact Hne.
        pose proof (wf_alloc_nodes _ _ Hb p Hp). unfold nodeHeaderSize, offsetSize. lia.
    - intros o Ho. pose proof (align_up_bounds (arena_n (skl_arena s))) as Hal.
      fold x in Hal. unfold arena_with_node in *. cbn [arena_n arena_keys] in *.
      fold x in Ho |- *.
      destruct (decide (o = x + nodeHeaderSize + Z.of_nat h * offsetSize)) as [->|Hne].
      + lia.
      + rewrite lookup_insert_ne in Ho by congruence.
        pose proof (wf_alloc_keys _ _ Hb o Ho). unfold nodeHeaderSize, offsetSize. lia.
    - pose proof (align_up_bounds (arena_n (skl_arena s))) as Hal.
      fold x in Hal. unfold arena_with_node. cbn [arena_n]. fold x.
      pose proof (wf_count _ _ Hb) as Hc. rewrite Hl0 in Hc.
      rewrite length_app in *. cbn [length]. unfold nodeHeaderSize, offsetSize. lia.
    - pose proof (wf_head_key _ _ Hb) as Hhk. unfold keyMmap in *.
      destruct (deref (skl_arena s) (skl_head s)) as [hx|] eqn:Ed; [|discriminate].
      cbn [rbind] in Hhk. apply deref_inv in Ed as [Hh0 Ehx].
      rewrite (deref_Some _ _ hx Hh0) by (rewrite Hnodes by congruence; exact Ehx).
      cbn [rbind]. unfold getKey in *.
      destruct (arena_keys (skl_arena s) !! node_keyOffset hx) as [kb|] eqn:Ek;
        [|discriminate].
      now rewrite (Hkeys _ _ Ek). }
  split; [split; [exact Hbase|]|].
  - cbn [s1 skl_arena skl_head]. intros L HL.
    rewrite level_list_skip by (rewrite lh_ins_self; lia).
    rewrite !level_list_lh_ins by assumption.
    rewrite <- level_list_app, <- Hl0.
    rewrite (level_list_ext (hgt (skl_arena s))) by (intros p Hp; now apply Hold).
    eapply path_frame; [|apply Hl, HL].
    intros y Hy. apply Hnext. intros ->.
    apply elem_of_cons in Hy as [Hy|Hy]; [congruence|].
    apply level_list_elem in Hy as [_ Hy]. contradiction.
  - assert (Hsame : forall j l, (forall p, p ∈ l -> p ∈ l0) ->
              level_list (hgt (skl_arena s1)) j l = level_list (hgt (skl_arena s)) j l).
    { intros j l Hsub. apply level_list_ext. intros p Hp. now apply Hold, Hsub. }
    split; [exact Hlp|]. split; [exact Hln|]. split; [|split; [lia|]].
    + rewrite <- Hl0. apply Forall_forall. intros p Hp. cbn [s1 skl_arena].
      destruct (Hold p Hp) as (_ & _ & ->).
      apply (node_ok_hgt s p). now apply (wf_lookup s l0).
    + cbn [s1 skl_arena skl_head]. rewrite Hxhgt. intros j Hj.
      destruct (decide (j <= skl_height s)%nat) as [Hle|Hgt].
      * left. destruct (Hpn j ltac:(lia)) as [-> ->].
        change (arena_with_node (skl_arena s) k uid h) with (skl_arena s1).
        rewrite !Hsame; [now split| |];
          intros p Hp; rewrite Hl0; apply elem_of_app; [now right|now left].
      * right. split; [lia|]. apply Hhi. lia.
Qed.

(** ** Linking the new node at one level *)

Lemma path_set_last (a a' : ArenaMmap) (L : nat) (l : list Z) (e e' : Z) :
  forall x,
    NoDup (x :: l) ->
    path a L x l e ->
    getNextOffset a' (lastd x l) L = Ok e' ->
    (forall y, y ∈ x :: l -> y <> lastd x l ->
               getNextOffset a' y L = getNextOffset a y L) ->
    path a' L x l e'.
Proof.
  induction l as [|z l IH]; intros x Hnd Hp Hlast Hf; simpl in *.
  - exact Hlast.
  - destruct Hp as [Hp1 Hp2]. rewrite lastd_cons in *.
    apply NoDup_cons in Hnd as [Hx Hnd].
    assert (Hxl : x <> lastd z l).
    { intros ->. apply Hx. destruct (lastd_elem z l) as [->|H].
      - apply list_elem_of_here.
      - now apply list_elem_of_further. }
    split.
    + rewrite Hf; [exact Hp1|apply list_elem_of_here|exact Hxl].
    + apply IH; try assumption.
      intros y Hy Hne. apply Hf; [now apply list_elem_of_further|exact Hne].
Qed.

Lemma path_change_start (a a' : ArenaMmap) (L : nat) (l : list Z) (e x x' : Z) :
  path a L x l e ->
  getNextOffset a' x' L = getNextOffset a x L ->
  (forall y, y ∈ l -> getNextOffset a' y L = getNextOffset a y L) ->
  path a' L x' l e.
Proof.
  destruct l as [|z l]; simpl; intros Hp Hs Hf.
  - now rewrite Hs.
  - destruct Hp as [Hp1 Hp2]. split; [now rewrite Hs|].
    apply (path_frame a); [|exact Hp2]. exact Hf.
Qed.

Lemma same_data_refl (s : SkiplistMmap) : same_data s s.
Proof. now repeat split. Qed.

Lemma same_data_trans (s1 s2 s3 : SkiplistMmap) :
  same_data s1 s2 -> same_data s2 s3 -> same_data s1 s3.
Proof.
  intros (A1 & A2 & A3 & A4 & A5 & A6 & A7) (B1 & B2 & B3 & B4 & B5 & B6 & B7).
  repeat split; try congruence;
    destruct (A7 p) as (? & ? & ?), (B7 p) as (? & ? & ?); congruence.
Qed.

Lemma same_frame_set_tower (x : node) (i : nat) (o : Z) :
  same_frame x (set_tower x (<[i := o]> (node_tower x))).
Proof. repeat split. cbn [set_tower node_tower]. apply length_insert. Qed.

Lemma same_data_store_tower (s : SkiplistMmap) (p : Z) (x : node) (i : nat) (o : Z) :
  p <> 0 ->
  arena_nodes (skl_arena s) !! p = Some x ->
  same_data s (with_arena s (store (skl_arena s) p (set_tower x (<[i := o]> (node_tower x))))).
Proof.
  intros Hp Hx. repeat split.
  - apply (skey_store _ _ _ x); [exact Hx|apply same_frame_set_tower].
  - cbn [with_arena skl_arena]. destruct (decide (p0 = p)) as [->|Hne].
    + rewrite sval_store_eq by exact Hp. unfold sval, getValue.
      now rewrite (deref_Some _ _ _ Hp Hx).
    + now apply sval_store_ne.
  - apply (hgt_store _ _ _ x); [exact Hx|apply same_frame_set_tower].
Qed.

Lemma linking_facts (s : SkiplistMmap) (a b : list Z) (x : Z) (i : nat) :
  linking s a b x i ->
  node_ok s x /\ (x ∉ a) /\ (x ∉ b) /\ x <> skl_head s /\
  (skl_head s ∉ a) /\ (skl_head s ∉ b) /\ NoDup (a ++ b) /\
  Forall (node_ok s) a /\ Forall (node_ok s) b /\
  (hgt (skl_arena s) x <= maxHeight)%nat.
Proof.
  intros [Hb _].
  pose proof (wf_nodes _ _ Hb) as Hn.
  apply Forall_app in Hn as [Hna Hn]. inversion Hn as [|? ? Hx Hnb]; subst.
  pose proof (wf_nodup _ _ Hb) as Hnd.
  apply NoDup_app in Hnd as (Hnda & Hdisj & Hnd).
  apply NoDup_cons in Hnd as [Hxb Hndb].
  pose proof (wf_head_fresh _ _ Hb) as Hhf.
  pose proof (wf_height _ _ Hb) as Hh.
  pose proof (node_ok_hgt _ _ Hx) as Hxh.
  split; [exact Hx|]. split.
  { intros Hin. apply (Hdisj x Hin). apply list_elem_of_here. }
  split; [exact Hxb|]. split.
  { intros E. apply Hhf. rewrite <- E. apply elem_of_app. right. apply list_elem_of_here. }
  split.
  { intros Hin. apply Hhf. apply elem_of_app. now left. }
  split.
  { intros Hin. apply Hhf. apply elem_of_app. right. now apply list_elem_of_further. }
  split.
  { apply NoDup_app. split; [exact Hnda|]. split; [|exact Hndb].
    intros p Hp Hin. apply (Hdisj p Hp). now apply list_elem_of_further. }
  split; [exact Hna|]. split; [exact Hnb|lia].
Qed.

Lemma lastd_level_ne0 (s : SkiplistMmap) (a : list Z) (L : nat) :
  skl_head s <> 0 -> Forall (node_ok s) a ->
  lastd (skl_head s) (level_list (hgt (skl_arena s)) L a) <> 0.
Proof.
  intros Hh Ha.
  destruct (lastd_elem (skl_head s) (level_list (hgt (skl_arena s)) L a)) as [->|Hin];
    [exact Hh|].
  apply level_list_elem in Hin as [_ Hin].
  rewrite Forall_forall in Ha. now destruct (Ha _ Hin).
Qed.

Lemma link_prepare (s : SkiplistMmap) (a b : list Z) (x : Z) (k : key) (H0 i : nat)
    (prev next : list Z) :
  linking s a b x i -> link_arrays s a b x H0 i prev next ->
  (i < hgt (skl_arena s) x)%nat ->
  exists prev' next',
    Put_recompute s k i prev next = Ok (prev', next') /\
    prev' !! i = Some (lastd (skl_head s) (level_list (hgt (skl_arena s)) i a)) /\
    next' !! i = Some (hd0 (level_list (hgt (skl_arena s)) i b)) /\
    length prev' = S maxHeight /\ length next' = S maxHeight /\
    (forall j, j <> i -> prev' !! j = prev !! j /\ next' !! j = next !! j).
Proof.
  intros Hlk (Hlp & Hln & Hlow & HH0 & Harr) Hi.
  destruct (linking_facts _ _ _ _ _ Hlk)
    as (Hx & Hxa & Hxb & Hxh & Hha & Hhb & Hnd & Hna & Hnb & Hxm).
  pose proof Hlk as [Hb Hl].
  pose proof (wf_head_ne _ _ Hb) as Hh0.
  unfold Put_recompute, arr_get.
  destruct (Harr i ltac:(lia)) as [[Hp Hn]|[Hgt Hp]]; rewrite Hp; cbn [rbind].
  - destruct (Z.eqb_spec (lastd (skl_head s) (level_list (hgt (skl_arena s)) i a)) 0)
      as [E|_].
    { exfalso. revert E. now apply lastd_level_ne0. }
    exists prev, next. now repeat split.
  - rewrite Z.eqb_refl.
    replace (1 <? i)%nat with true by (symmetry; apply Nat.ltb_lt; lia).
    cbn [AssertTrue rbind].
    apply Forall_app in Hlow as [Hlowa Hlowb].
    assert (Hea : level_list (hgt (skl_arena s)) i a = []).
    { apply level_list_none. eapply Forall_impl; [exact Hlowa|]. simpl. intros; lia. }
    assert (Heb : level_list (hgt (skl_arena s)) i b = []).
    { apply level_list_none. eapply Forall_impl; [exact Hlowb|]. simpl. intros; lia. }
    assert (Hpath : path (skl_arena s) i (skl_head s) [] 0).
    { specialize (Hl i ltac:(lia)).
      rewrite level_list_skip in Hl by (rewrite lh_ins_self; lia).
      rewrite !level_list_lh_ins in Hl by assumption.
      now rewrite Hea, Heb in Hl. }
    destruct (findSplice_loop_spec s k i [] (loop_fuel s) (skl_head s) Hpath
                ltac:(constructor) ltac:(unfold loop_fuel, maxHeight; simpl; lia))
      as (l1 & l2 & Hsplit & _ & Hres).
    symmetry in Hsplit. apply app_eq_nil in Hsplit as [-> ->].
    unfold findSpliceForLevel. rewrite Hres. cbn [rbind]. unfold arr_set.
    rewrite Hlp, Hln.
    replace (i <? S maxHeight)%nat with true by (symmetry; apply Nat.ltb_lt; lia).
    cbn [rbind]. rewrite lastd_nil.
    destruct (Z.eqb_spec (skl_head s) 0); [contradiction|]. cbn [negb AssertTrue rbind].
    exists (<[i := skl_head s]> prev), (<[i := 0]> next).
    rewrite Hea, Heb, !length_insert.
    rewrite !list_lookup_insert_eq by lia.
    repeat split; try assumption; now rewrite list_lookup_insert_ne by congruence.
Qed.

Lemma link_step (s : SkiplistMmap) (a b : list Z) (x : Z) (k : key) (uid : Z)
    (H0 i : nat) (prev next : list Z) :
  linking s a b x i -> link_arrays s a b x H0 i prev next ->
  (i < hgt (skl_arena s) x)%nat ->
  exists s' prev' next',
    Put_link_level (loop_fuel s) s k uid x i prev next = Ok (s', prev', next', false) /\
    linking s' a b x (S i) /\ link_arrays s' a b x H0 (S i) prev' next' /\
    same_data s s'.
Proof.
  intros Hlk Harrs Hi.
  destruct (link_prepare s a b x k H0 i prev next Hlk Harrs Hi)
    as (prev' & next' & Hrec & Hp' & Hn' & Hlp' & Hln' & Hsame).
  destruct Harrs as (Hlp & Hln & Hlow & HH0 & Harr).
  destruct (linking_facts _ _ _ _ _ Hlk)
    as (Hx & Hxa & Hxb & Hxh & Hha & Hhb & Hnd & Hna & Hnb & Hxm).
  pose proof Hlk as [Hb Hl].
  pose proof (wf_head_ne _ _ Hb) as Hh0.
  set (A := skl_arena s) in *.
  set (la := level_list (hgt A) i a) in *.
  set (lb := level_list (hgt A) i b) in *.
  set (p0 := lastd (skl_head s) la) in *.
  set (n0 := hd0 lb) in *.
  (* the level-i list before the link *)
  assert (Hpi : path A i (skl_head s) (la ++ lb) 0).
  { specialize (Hl i ltac:(lia)).
    rewrite level_list_skip in Hl by (rewrite lh_ins_self; lia).
    now rewrite !level_list_lh_ins in Hl by assumption. }
  apply path_app_inv in Hpi as [Hpa Hpb]. fold p0 in Hpb.
  change (default 0 (head lb)) with n0 in Hpa.
  pose proof (path_next _ _ _ _ _ Hpb) as Hp0next.
  change (default 0 (head lb)) with n0 in Hp0next.
  (* the nodes written *)
  destruct Hx as (Hx0 & nx & kbx & Hnx & Hhx & Hlx & Hkx). fold A in Hnx.
  assert (Hhgtx : hgt A x = node_height nx) by (unfold hgt; now rewrite Hnx).
  assert (Hp0x : p0 <> x).
  { destruct (lastd_elem (skl_head s) la) as [E|Hin];
      [fold p0 in E|fold p0 in Hin].
    - congruence.
    - intros E. apply Hxa. rewrite <- E. now apply level_list_elem in Hin as [_ Hin]. }
  unfold getNextOffset in Hp0next.
  destruct (deref A p0) as [np|] eqn:Hdp; [|discriminate]. cbn [rbind] in Hp0next.
  destruct (node_tower np !! i) as [o|] eqn:Htp; [|discriminate].
  injection Hp0next as ->.
  apply deref_inv in Hdp as [Hp00 Hnp].
  set (A1 := store A x (set_tower nx (<[i := n0]> (node_tower nx)))).
  set (A2 := store A1 p0 (set_tower np (<[i := x]> (node_tower np)))).
  assert (Hnp1 : arena_nodes A1 !! p0 = Some np).
  { unfold A1, store. cbn [arena_nodes]. now rewrite lookup_insert_ne by congruence. }
  assert (Hrun : Put_link_level (loop_fuel s) s k uid x i prev next
                 = Ok (with_arena s A2, prev', next', false)).
  { destruct (loop_fuel s) as [|f] eqn:E; [unfold loop_fuel, maxHeight in E; lia|].
    cbn [Put_link_level]. rewrite Hrec. cbn [rbind].
    unfold arr_get. rewrite Hn', Hp'. cbn [rbind]. unfold getNodeOffset.
    fold A la lb p0 n0.
    unfold setTower. rewrite (deref_Some _ _ _ Hx0 Hnx). cbn [rbind].
    replace (i <? length (node_tower nx))%nat with true
      by (symmetry; apply Nat.ltb_lt; lia).
    cbn [rbind]. fold A1. unfold casNextOffset.
    rewrite (deref_Some _ _ _ Hp00 Hnp1). cbn [rbind]. rewrite Htp, Z.eqb_refl.
    cbn [rbind]. reflexivity. }
  assert (Hsd1 : same_data s (with_arena s A1))
    by (apply same_data_store_tower; assumption).
  assert (Hsd2 : same_data (with_arena s A1) (with_arena s A2))
    by (apply (same_data_store_tower (with_arena s A1)); assumption).
  assert (Hsd : same_data s (with_arena s A2))
    by (eapply same_data_trans; eassumption).
  assert (Hh2 : forall q, hgt A2 q = hgt A q) by (intros q; apply Hsd).
  assert (Hll : forall L l, level_list (hgt A2) L l = level_list (hgt A) L l)
    by (intros L l; apply level_list_ext; intros q _; apply Hh2).
  assert (Hother : forall y L, L <> i -> getNextOffset A2 y L = getNextOffset A y L).
  { intros y L HL. unfold A2.
    rewrite (getNextOffset_store_tower A1 p0 y np)
      by (try assumption; cbn [set_tower node_tower];
          now rewrite list_lookup_insert_ne by congruence).
    unfold A1. apply (getNextOffset_store_tower A x y nx); [assumption|].
    cbn [set_tower node_tower]. now rewrite list_lookup_insert_ne by congruence. }
  assert (Hfar : forall y, y <> p0 -> y <> x -> getNextOffset A2 y i = getNextOffset A y i).
  { intros y Hy1 Hy2. unfold A2, A1. now rewrite !getNextOffset_store_ne. }
  assert (Hp0new : getNextOffset A2 p0 i = Ok x).
  { unfold getNextOffset, A2. rewrite deref_store_eq by assumption. cbn [rbind].
    cbn [set_tower node_tower]. rewrite list_lookup_insert_eq; [reflexivity|].
    now apply lookup_lt_Some in Htp. }
  assert (Hxnew : getNextOffset A2 x i = Ok n0).
  { unfold A2. rewrite getNextOffset_store_ne by congruence.
    unfold getNextOffset, A1. rewrite deref_store_eq by assumption. cbn [rbind].
    cbn [set_tower node_tower]. rewrite list_lookup_insert_eq; [reflexivity|lia]. }
  exists (with_arena s A2), prev', next'.
  split; [exact Hrun|]. split; [|split; [|exact Hsd]].
  - split.
    + apply (wf_base_store (with_arena s A1) _ p0 np);
        [|assumption|apply same_frame_set_tower].
      apply (wf_base_store s _ x nx); [assumption..|apply same_frame_set_tower].
    + cbn [with_arena skl_arena skl_head]. intros L HL.
      rewrite (level_list_ext (lh_ins A x (S i)) (lh_ins A2 x (S i)))
        by (intros q _; unfold lh_ins; destruct (decide (q = x)); [reflexivity|apply Hh2]).
      destruct (decide (L = i)) as [->|HLi].
      * rewrite level_list_keep by (rewrite lh_ins_self; lia).
        rewrite !level_list_lh_ins by assumption. fold la lb.
        apply path_app.
        -- cbn [head default].
           apply (path_set_last A A2 i la n0 x); try assumption.
           ++ apply NoDup_cons. split.
              ** intros Hin. apply Hha. now apply level_list_elem in Hin as [_ Hin].
              ** apply (NoDup_filter _). now apply NoDup_app in Hnd as (? & _ & _).
           ++ intros y Hy Hne. apply Hfar; [exact Hne|]. intros ->.
              apply elem_of_cons in Hy as [Hy|Hy]; [congruence|].
              apply Hxa. now apply level_list_elem in Hy as [_ Hy].
        -- fold p0. cbn [path]. split; [exact Hp0new|].
           apply (path_change_start A A2 i lb 0 p0 x); [exact Hpb| |].
           ++ rewrite Hxnew. unfold getNextOffset.
              rewrite (deref_Some _ _ _ Hp00 Hnp). cbn [rbind]. now rewrite Htp.
           ++ intros y Hy. apply level_list_elem in Hy as [_ Hy].
              apply Hfar.
              ** intros ->. destruct (lastd_elem (skl_head s) la) as [E|Hin];
                   [fold p0 in E|fold p0 in Hin].
                 --- apply Hhb. now rewrite <- E.
                 --- apply level_list_elem in Hin as [_ Hin].
                     apply NoDup_app in Hnd as (_ & Hdisj & _). now apply (Hdisj p0).
              ** intros ->. contradiction.
      * assert (Heq : level_list (lh_ins A x (S i)) L (a ++ x :: b)
                      = level_list (lh_ins A x i) L (a ++ x :: b)).
        { destruct (decide (L < i)%nat).
          - rewrite !level_list_keep by (rewrite lh_ins_self; lia).
            now rewrite !level_list_lh_ins by assumption.
          - rewrite !level_list_skip by (rewrite lh_ins_self; lia).
            now rewrite !level_list_lh_ins by assumption. }
        rewrite Heq. eapply path_frame; [|apply Hl, HL].
        intros y _. now apply Hother.
  - cbn [with_arena skl_arena skl_head]. fold A2.
    split; [exact Hlp'|]. split; [exact Hln'|]. split; [|split; [exact HH0|]].
    + eapply Forall_impl; [exact Hlow|]. intros q Hq. simpl. now rewrite Hh2.
    + intros j Hj. rewrite Hh2 in Hj. rewrite !Hll.
      destruct (Hsame j ltac:(lia)) as [-> ->]. apply Harr. lia.
Qed.

(** ** The second loop of Put *)

Lemma Put_link_spec (a b : list Z) (x : Z) (k : key) (uid : Z) (H0 : nat) :
  forall (todo i : nat) (s : SkiplistMmap) (prev next : list Z),
    linking s a b x i -> link_arrays s a b x H0 i prev next ->
    (i + todo = hgt (skl_arena s) x)%nat ->
    exists s',
      Put_link s k uid x todo i prev next = Ok s' /\
      linking s' a b x (hgt (skl_arena s) x) /\ same_data s s'.
Proof.
  induction todo as [|todo IH]; intros i s prev next Hlk Harr Hsum.
  - exists s. cbn [Put_link]. replace (hgt (skl_arena s) x) with i by lia.
    split; [reflexivity|]. split; [exact Hlk|apply same_data_refl].
  - destruct (link_step s a b x k uid H0 i prev next Hlk Harr ltac:(lia))
      as (s1 & prev1 & next1 & Hrun & Hlk1 & Harr1 & Hsd1).
    assert (Hh : hgt (skl_arena s1) x = hgt (skl_arena s) x) by apply Hsd1.
    destruct (IH (S i) s1 prev1 next1 Hlk1 Harr1 ltac:(lia)) as (s2 & Hrun2 & Hlk2 & Hsd2).
    exists s2. cbn [Put_link]. rewrite Hrun. cbn [rbind]. rewrite Hrun2.
    split; [reflexivity|]. rewrite <- Hh. split; [exact Hlk2|].
    eapply same_data_trans; eassumption.
Qed.

Lemma linking_done (s : SkiplistMmap) (a b : list Z) (x : Z) :
  linking s a b x (hgt (skl_arena s) x) -> wf s (a ++ x :: b).
Proof.
  intros [Hb Hl]. split; [exact Hb|].
  eapply links_ext; [| |exact Hl]; [|reflexivity].
  intros p _. unfold lh_ins. now destruct (decide (p = x)) as [->|].
Qed.

Lemma level_list_zero (s : SkiplistMmap) (l : list Z) :
  Forall (node_ok s) l -> level_list (hgt (skl_arena s)) 0 l = l.
Proof.
  intros H. apply level_list_all. eapply Forall_impl; [exact H|].
  intros p Hp. apply node_ok_hgt in Hp. simpl. lia.
Qed.

(** ** Put on a well-formed skiplist *)

Lemma Put_spec (rnd : nat -> Z) (s : SkiplistMmap) (l0 : list Z) (k : key) (uid : Z) :
  wf s l0 ->
  (exists y nd,
      y ∈ l0 /\ skey (skl_arena s) y = k /\
      arena_nodes (skl_arena s) !! y = Some nd /\
      Put rnd s k uid = Ok (with_arena s (store (skl_arena s) y (set_value nd uid))) /\
      wf (with_arena s (store (skl_arena s) y (set_value nd uid))) l0) \/
  (exists a b,
      l0 = a ++ b /\
      (forall y, last a = Some y -> below (skl_arena s) k y) /\
      (forall y, head b = Some y -> bytes_Compare k (skey (skl_arena s) y) = Lt) /\
      ((Put rnd s k uid = Err ArenaFull /\
        arena_cap (skl_arena s) < arena_n (skl_arena s) + 103 + Z.of_nat (length k)) \/
       exists s' x h,
         Put rnd s k uid = Ok s' /\ wf s' (a ++ x :: b) /\ (x ∉ l0) /\
         (forall p, p ∈ l0 -> skey (skl_arena s') p = skey (skl_arena s) p /\
                              sval (skl_arena s') p = sval (skl_arena s) p /\
                              hgt (skl_arena s') p = hgt (skl_arena s) p) /\
         skey (skl_arena s') x = take (uint16 (length k)) k /\
         sval (skl_arena s') x = uid /\
         randomHeight rnd = Ok h /\ hgt (skl_arena s') x = h /\
         skl_height s' = Nat.max (skl_height s) h /\
         skl_head s' = skl_head s /\
         arena_n (skl_arena s) < arena_n (skl_arena s') /\
         arena_n (skl_arena s') <= arena_n (skl_arena s) + 103 + Z.of_nat (length k) /\
         arena_cap (skl_arena s') = arena_cap (skl_arena s))).
Proof.
  intros Hwf. pose proof Hwf as [Hb Hl]. pose proof (wf_height _ _ Hb) as HH.
  unfold Put, getHeight, arr_set. rewrite length_replicate.
  replace (skl_height s <? maxHeight + 1)%nat with true
    by (symmetry; apply Nat.ltb_lt; lia).
  cbn [rbind].
  destruct (Put_search_spec s l0 k Hwf _ _ _ _ _ (splice_at_init s l0 k Hwf) (le_n _))
    as [(prev & next & y & -> & Hy & Hcmp)|(prev & next & a & b & -> & Hsp)]; cbn [rbind].
  - left.
    destruct (wf_setValue s l0 y uid Hwf Hy) as (nd & Hnd & -> & Hwf').
    exists y, nd. cbn [rbind].
    split; [exact Hy|]. split; [symmetry; now apply bytes_Compare_eq|].
    split; [exact Hnd|]. split; [reflexivity|exact Hwf'].
  - destruct (randomHeight_ok rnd) as (h & Hrh & Hh). rewrite Hrh. cbn [rbind].
    assert (Hn0 : 0 < arena_n (skl_arena s)).
    { pose proof (wf_count _ _ Hb). lia. }
    right. exists a, b.
    pose proof Hsp as (Hl0 & _ & _ & _ & _ & Hlast & Hhead).
    split; [exact Hl0|]. split; [intros y Hy; now apply Hlast|]. split.
    { intros y Hy. apply Hhead. rewrite level_list_zero; [exact Hy|].
      pose proof (wf_nodes _ _ Hb) as Hn. rewrite Hl0 in Hn.
      now apply Forall_app in Hn as [_ Hn]. }
    pose proof (align_up_bounds (arena_n (skl_arena s))) as Hal.
    destruct (newNodeMmap_cases (skl_arena s) k uid h Hn0) as [[-> Hcap] | ->].
    { left. split; [reflexivity|].
      unfold nodeHeaderSize, offsetSize, maxHeight in *. lia. }
    cbn [rbind]. right.
    rewrite raiseHeight_spec. cbn [rbind with_arena skl_height].
    set (x := align_up (arena_n (skl_arena s))).
    set (s1 := mkSkl (Nat.max (skl_height s) h) (skl_head s) (skl_ref s)
                 (arena_with_node (skl_arena s) k uid h)).
    assert (Hs1 : (if (skl_height s <? h)%nat
                   then with_height (with_arena s (arena_with_node (skl_arena s) k uid h)) h
                   else with_arena s (arena_with_node (skl_arena s) k uid h)) = s1).
    { unfold s1, with_height, with_arena. cbn [skl_height skl_head skl_ref skl_arena].
      destruct (Nat.ltb_spec (skl_height s) h); f_equal; lia. }
    rewrite Hs1.
    destruct (link_init s l0 a b k uid h prev next Hwf Hsp Hh) as [Hlk Harr].
    fold x s1 in Hlk, Harr.
    destruct (newNode_frame s l0 k uid h Hwf ltac:(lia))
      as (Hx0 & Hxl & Hxh & Hnodes & Hold & Hnext & Hxk & Hxv & Hxhgt & _).
    fold x in Hx0, Hxl, Hxh, Hnodes, Hnext, Hxk, Hxv, Hxhgt.
    assert (Hhx : hgt (skl_arena s1) x = h) by exact Hxhgt.
    destruct (Put_link_spec a b x k uid (skl_height s) h 0 s1 prev next Hlk Harr
                ltac:(rewrite Hhx; lia)) as (s' & Hrun & Hlk' & Hsd).
    destruct Hsd as (Sh & Shd & Sref & Sn & Scap & Skeys & Sall).
    exists s', x, h.
    split; [exact Hrun|]. split.
    { apply linking_done. destruct (Sall x) as (_ & _ & ->). exact Hlk'. }
    split; [exact Hxl|]. split.
    { intros p Hp. destruct (Sall p) as (-> & -> & ->). now apply Hold. }
    destruct (Sall x) as (-> & -> & ->).
    fold x in Hal.
    repeat split; try assumption; rewrite ?Sn, ?Scap;
      unfold s1, arena_with_node; cbn [skl_arena arena_n arena_cap]; fold x;
      unfold nodeHeaderSize, offsetSize, maxHeight in *; lia.
Qed.

(** ** The new skiplist *)

Lemma NewSkiplistMmap_spec (arenaSize : Z) :
  (NewSkiplistMmap arenaSize = Err ArenaFull /\ arenaSize < 104) \/
  exists s, NewSkiplistMmap arenaSize = Ok s /\ wf s [] /\
            skl_height s = 1%nat /\ arena_n (skl_arena s) = 104 /\
            arena_cap (skl_arena s) = arenaSize.
Proof.
  unfold NewSkiplistMmap.
  destruct (newNodeMmap_cases (newArenaMmap arenaSize) [] 0 maxHeight ltac:(simpl; lia))
    as [[-> Hcap] | ->]; [left; split; [reflexivity|exact Hcap]|].
  right. cbn [rbind]. eexists. split; [reflexivity|].
  split; [|repeat split].
  split.
  - constructor; cbn [skl_height skl_head skl_arena].
    + unfold maxHeight. lia.
    + vm_compute. discriminate.
    + eexists. unfold arena_with_node. cbn [arena_nodes].
      rewrite lookup_insert_eq. split; [reflexivity|].
      cbn [node_tower]. apply length_replicate.
    + apply not_elem_of_nil.
    + constructor.
    + constructor.
    + intros p Hp. unfold arena_with_node, newArenaMmap in *.
      cbn [arena_nodes arena_n] in *.
      destruct (decide (p = align_up 1)) as [->|Hne].
      * vm_compute. split; reflexivity.
      * rewrite lookup_insert_ne, lookup_empty in Hp by congruence.
        now destruct Hp.
    + intros o Ho. unfold arena_with_node, newArenaMmap in *.
      cbn [arena_keys arena_n] in *.
      destruct (decide (o = align_up 1 + nodeHeaderSize + Z.of_nat maxHeight * offsetSize))
        as [->|Hne].
      * vm_compute. discriminate.
      * rewrite lookup_insert_ne, lookup_empty in Ho by congruence.
        now destruct Ho.
    + vm_compute. reflexivity.
    + vm_compute. reflexivity.
  - cbn [skl_arena skl_head]. intros L HL. unfold level_list. rewrite filter_nil.
    cbn [path]. unfold getNextOffset, deref, arena_with_node, newArenaMmap.
    cbn [arena_nodes arena_n].
    change (align_up 1 =? 0) with false. cbv iota.
    rewrite lookup_insert_eq. cbn [rbind node_tower].
    now rewrite lookup_replicate_2.
Qed.

(** ** findLast *)

Lemma level_list_head_split (lh : Z -> nat) (L : nat) (b : list Z) (y : Z) (t : list Z) :
  level_list lh L b = y :: t ->
  exists c b1, b = c ++ y :: b1 /\ level_list lh L c = [] /\ (L < lh y)%nat /\
               level_list lh L b1 = t.
Proof.
  unfold level_list. induction b as [|z b IH]; intros H.
  - rewrite filter_nil in H. discriminate.
  - destruct (decide (L < lh z)%nat) as [Hz|Hz].
    + rewrite filter_cons_True in H by exact Hz. injection H as -> H.
      exists [], b. now repeat split.
    + rewrite filter_cons_False in H by exact Hz.
      destruct (IH H) as (c & b1 & -> & Hc & Hy & Hb1).
      exists (z :: c), b1. split; [reflexivity|]. split; [|now split].
      now rewrite filter_cons_False.
Qed.

Lemma lastd_nonempty (x x' : Z) (l : list Z) : l <> [] -> lastd x l = lastd x' l.
Proof. destruct l as [|y l]; [easy|]. intros _. now rewrite !lastd_cons. Qed.

Lemma getNext_level (s : SkiplistMmap) (l0 a b : list Z) (L : nat) :
  wf s l0 -> l0 = a ++ b -> (L < maxHeight)%nat ->
  (forall y, last a = Some y -> (L < hgt (skl_arena s) y)%nat) ->
  getNext s (lastd (skl_head s) a) L = Ok (hd0 (level_list (hgt (skl_arena s)) L b)).
Proof.
  intros Hwf Hl0 HL Hlast. rewrite getNext_eq.
  now apply path_next with (e := 0), (wf_path_from s l0 a b).
Qed.

Lemma wf_split_ne0 (s : SkiplistMmap) (l0 a b : list Z) (y : Z) :
  wf s l0 -> l0 = a ++ y :: b -> y <> 0 /\ y <> skl_head s.
Proof.
  intros Hwf ->. pose proof Hwf as [Hb _].
  assert (Hin : y ∈ a ++ y :: b) by (apply elem_of_app; right; apply list_elem_of_here).
  split.
  - now destruct (wf_lookup _ _ _ Hwf Hin).
  - intros ->. now apply (wf_head_fresh _ _ Hb).
Qed.

Lemma findLast_loop_spec (s : SkiplistMmap) (l0 : list Z) :
  wf s l0 ->
  forall (fuel level : nat) (a b : list Z),
    l0 = a ++ b ->
    (forall y, last a = Some y -> (level < hgt (skl_arena s) y)%nat) ->
    (level < maxHeight)%nat ->
    (length b + level < fuel)%nat ->
    findLast_loop fuel s (lastd (skl_head s) a) level = Ok (lastd 0 l0).
Proof.
  intros Hwf. pose proof Hwf as [Hb _].
  induction fuel as [|fuel IH]; intros level a b Hl0 Hlast HL Hfuel; [lia|].
  cbn [findLast_loop].
  rewrite (getNext_level s l0 a b level Hwf Hl0 HL Hlast). cbn [rbind].
  destruct (level_list (hgt (skl_arena s)) level b) as [|y t] eqn:El.
  - rewrite hd0_nil. change (0 =? 0) with true. cbn [negb].
    destruct (Nat.eqb_spec level 0) as [->|Hne].
    + assert (b = []) as ->.
      { rewrite level_list_zero in El; [exact El|].
        pose proof (wf_nodes _ _ Hb) as Hn. rewrite Hl0 in Hn.
        now apply Forall_app in Hn as [_ Hn]. }
      rewrite app_nil_r in Hl0. subst l0.
      destruct a as [|z a].
      * cbn. now rewrite Z.eqb_refl.
      * assert (Hne : lastd (skl_head s) (z :: a) <> skl_head s).
        { intros E. apply (wf_head_fresh _ _ Hb). rewrite <- E. now apply lastd_in. }
        destruct (Z.eqb_spec (lastd (skl_head s) (z :: a)) (skl_head s)); [contradiction|].
        f_equal. now apply lastd_nonempty.
    + apply (IH (level - 1)%nat a b Hl0); [|lia..].
      intros y Hy. apply Hlast in Hy. lia.
  - rewrite hd0_cons.
    destruct (level_list_head_split _ _ _ _ _ El) as (c & b1 & Hb1 & Hc & Hy & Ht).
    assert (Hl0' : l0 = (a ++ c ++ [y]) ++ b1).
    { rewrite Hl0, Hb1. now rewrite <- !app_assoc. }
    destruct (wf_split_ne0 s l0 (a ++ c) b1 y Hwf
                ltac:(rewrite Hl0, Hb1; now rewrite <- app_assoc)) as [Hy0 _].
    destruct (Z.eqb_spec y 0); [contradiction|]. cbn [negb].
    replace y with (lastd (skl_head s) (a ++ c ++ [y]))
      by (now rewrite app_assoc, lastd_snoc).
    apply (IH level _ b1 Hl0'); [|exact HL|].
    + intros y' Hy'. rewrite app_assoc, last_snoc in Hy'. now injection Hy' as <-.
    + rewrite Hb1, length_app in Hfuel. cbn [length] in Hfuel. lia.
Qed.

Lemma findLast_spec (s : SkiplistMmap) (l0 : list Z) :
  wf s l0 -> findLast s = Ok (lastd 0 l0).
Proof.
  intros Hwf. pose proof Hwf as [Hb _]. pose proof (wf_height _ _ Hb) as HH.
  unfold findLast, getHeight.
  destruct (Nat.eqb_spec (skl_height s) 0); [lia|].
  apply (findLast_loop_spec s l0 Hwf _ _ [] l0); [reflexivity|discriminate|lia|].
  pose proof (wf_fuel s l0 l0 (skl_height s - 1) Hwf). lia.
Qed.

(** ** Sorted lists *)

Lemma increasing_app (l1 l2 : list key) :
  increasing (l1 ++ l2) <->
  increasing l1 /\ increasing l2 /\ Forall (fun x => Forall (key_lt x) l2) l1.
Proof.
  induction l1 as [|x l1 IH]; simpl.
  - split; [intros H; repeat split; [exact H|constructor]|tauto].
  - rewrite IH, Forall_app, Forall_cons. tauto.
Qed.

Lemma sorted_split (s : SkiplistMmap) (a b : list Z) (y : Z) :
  sorted s (a ++ y :: b) ->
  Forall (fun p => key_lt (skey (skl_arena s) p) (skey (skl_arena s) y)) a /\
  Forall (fun p => key_lt (skey (skl_arena s) y) (skey (skl_arena s) p)) b.
Proof.
  unfold sorted. rewrite map_app, map_cons, increasing_app. cbn [increasing].
  intros (_ & (Hb & _) & Ha). split.
  - apply Forall_forall. intros p Hp. rewrite Forall_forall in Ha.
    specialize (Ha _ (list_elem_of_fmap_2 _ _ _ Hp)).
    now apply Forall_cons in Ha as [Ha _].
  - apply Forall_forall. intros p Hp. rewrite Forall_forall in Hb.
    apply Hb. now apply list_elem_of_fmap_2.
Qed.

Lemma below_lt (a : ArenaMmap) (k : key) (p : Z) :
  below a k p <-> key_lt (skey a p) k.
Proof. unfold below, key_lt. apply bytes_Compare_Gt_Lt. Qed.

Lemma below_trans (a : ArenaMmap) (k : key) (p y : Z) :
  key_lt (skey a p) (skey a y) -> bytes_Compare k (skey a y) <> Lt -> below a k p.
Proof.
  intros Hpy Hk. apply below_lt.
  destruct (bytes_Compare k (skey a y)) eqn:E; [| contradiction |].
  - apply bytes_Compare_eq in E. now rewrite E.
  - apply bytes_Compare_Gt_Lt in E. eapply key_lt_trans; eassumption.
Qed.

(** ** findNear *)

Lemma findNear_loop_spec (s : SkiplistMmap) (l0 : list Z) (k : key)
    (less allowEqual : bool) :
  wf s l0 -> sorted s l0 ->
  forall (fuel level : nat) (a b : list Z),
    l0 = a ++ b ->
    Forall (below (skl_arena s) k) a ->
    (forall y, last a = Some y -> (level < hgt (skl_arena s) y)%nat) ->
    (level < maxHeight)%nat ->
    (length b + level < fuel)%nat ->
    exists a' b',
      l0 = a' ++ b' /\ Forall (below (skl_arena s) k) a' /\
      (forall y, head b' = Some y -> bytes_Compare k (skey (skl_arena s) y) <> Gt) /\
      findNear_loop fuel s k less allowEqual (lastd (skl_head s) a) level
      = Ok (near_result s k less allowEqual a' b').
Proof.
  intros Hwf Hsorted. pose proof Hwf as [Hb _].
  induction fuel as [|fuel IH]; intros level a b Hl0 Hbelow Hlast HL Hfuel; [lia|].
  assert (Hdown : (0 < level)%nat ->
    exists a' b',
      l0 = a' ++ b' /\ Forall (below (skl_arena s) k) a' /\
      (forall y, head b' = Some y -> bytes_Compare k (skey (skl_arena s) y) <> Gt) /\
      findNear_loop fuel s k less allowEqual (lastd (skl_head s) a) (level - 1)
      = Ok (near_result s k less allowEqual a' b')).
  { intros Hpos. apply (IH (level - 1)%nat a b Hl0 Hbelow); [|lia..].
    intros y Hy. apply Hlast in Hy. lia. }
  assert (Hnb : Forall (node_ok s) b).
  { pose proof (wf_nodes _ _ Hb) as Hn. rewrite Hl0 in Hn.
    now apply Forall_app in Hn as [_ Hn]. }
  cbn [findNear_loop].
  rewrite (getNext_level s l0 a b level Hwf Hl0 HL Hlast). cbn [rbind].
  destruct (level_list (hgt (skl_arena s)) level b) as [|y t] eqn:El.
  - rewrite hd0_nil. change (0 =? 0) with true. cbv iota.
    destruct (Nat.ltb_spec 0 level) as [Hpos|Hz]; [now apply Hdown|].
    assert (level = 0%nat) as -> by lia.
    rewrite level_list_zero in El by exact Hnb. subst b.
    exists a, []. split; [exact Hl0|]. split; [exact Hbelow|].
    split; [discriminate|]. cbn [near_result]. now destruct less.
  - rewrite hd0_cons.
    destruct (level_list_head_split _ _ _ _ _ El) as (c & b1 & Hb1 & Hc & Hy & Ht).
    assert (Hl0' : l0 = (a ++ c) ++ y :: b1)
      by (rewrite Hl0, Hb1; now rewrite <- app_assoc).
    destruct (wf_split_ne0 s l0 (a ++ c) b1 y Hwf Hl0') as [Hy0 _].
    destruct (Z.eqb_spec y 0); [contradiction|].
    assert (Hyok : node_ok s y).
    { apply (wf_lookup s l0 y Hwf). rewrite Hl0'. apply elem_of_app. right.
      apply list_elem_of_here. }
    rewrite (node_ok_key _ _ Hyok). cbn [rbind].
    assert (Hac : bytes_Compare k (skey (skl_arena s) y) <> Lt ->
                  Forall (below (skl_arena s) k) (a ++ c)).
    { intros Hcmp. rewrite Hl0' in Hsorted. apply sorted_split in Hsorted as [Hs _].
      eapply Forall_impl; [exact Hs|]. intros p Hp.
      now apply (below_trans _ _ _ y). }
    assert (Hc0 : level = 0%nat -> c = []).
    { intros ->. rewrite Hb1 in Hnb. apply Forall_app in Hnb as [Hnc _].
      now rewrite level_list_zero in Hc. }
    destruct (bytes_Compare k (skey (skl_arena s) y)) eqn:E.
    + (* the key of next equals k *)
      destruct allowEqual.
      { exists (a ++ c), (y :: b1). split; [exact Hl0'|].
        split; [apply Hac; discriminate|]. split.
        - intros ? [= <-]. rewrite E. discriminate.
        - cbn [near_result]. now rewrite E. }
      destruct less; cbn [negb].
      * destruct (Nat.ltb_spec 0 level) as [Hpos|Hz]; [now apply Hdown|].
        assert (level = 0%nat) as Hlz by lia. rewrite (Hc0 Hlz) in *.
        exists a, (y :: b1). split; [now rewrite Hl0, Hb1|]. split; [exact Hbelow|].
        split.
        -- intros ? [= <-]. rewrite E. discriminate.
        -- cbn [near_result]. now rewrite E.
      * assert (Hn0 : getNext s y 0 = Ok (hd0 b1)).
        { replace y with (lastd (skl_head s) ((a ++ c) ++ [y])) at 1
            by apply lastd_snoc.
          rewrite (getNext_level s l0 ((a ++ c) ++ [y]) b1 0 Hwf).
          - rewrite level_list_zero; [reflexivity|].
            rewrite Hb1 in Hnb. apply Forall_app in Hnb as [_ Hnb].
            now inversion Hnb.
          - rewrite Hl0'. now rewrite <- !app_assoc.
          - unfold maxHeight. lia.
          - intros y' Hy'. rewrite last_snoc in Hy'. injection Hy' as <-.
            apply node_ok_hgt in Hyok. lia. }
        rewrite Hn0. cbn [rbind].
        exists (a ++ c), (y :: b1). split; [exact Hl0'|].
        split; [apply Hac; discriminate|]. split.
        -- intros ? [= <-]. rewrite E. discriminate.
        -- cbn [near_result]. now rewrite E.
    + (* the key of next is above k *)
      destruct (Nat.ltb_spec 0 level) as [Hpos|Hz]; [now apply Hdown|].
      assert (level = 0%nat) as Hlz by lia. rewrite (Hc0 Hlz) in *.
      exists a, (y :: b1). split; [now rewrite Hl0, Hb1|]. split; [exact Hbelow|].
      split.
      * intros ? [= <-]. rewrite E. discriminate.
      * cbn [near_result]. rewrite E. now destruct less.
    + (* the key of next is below k: move right *)
      replace y with (lastd (skl_head s) ((a ++ c) ++ [y])) by apply lastd_snoc.
      apply (IH level ((a ++ c) ++ [y]) b1).
      * rewrite Hl0'. now rewrite <- !app_assoc.
      * apply Forall_app. split; [apply Hac; discriminate|].
        constructor; [exact E|constructor].
      * intros y' Hy'. rewrite last_snoc in Hy'. now injection Hy' as <-.
      * exact HL.
      * rewrite Hb1, length_app in Hfuel. cbn [length] in Hfuel. lia.
Qed.

Lemma findNear_spec (s : SkiplistMmap) (l0 : list Z) (k : key) (less allowEqual : bool) :
  wf s l0 -> sorted s l0 ->
  exists a b,
    l0 = a ++ b /\ Forall (below (skl_arena s) k) a /\
    (forall y, head b = Some y -> bytes_Compare k (skey (skl_arena s) y) <> Gt) /\
    findNear s k less allowEqual = Ok (near_result s k less allowEqual a b).
Proof.
  intros Hwf Hs. pose proof Hwf as [Hb _]. pose proof (wf_height _ _ Hb) as HH.
  unfold findNear, getHeight.
  destruct (Nat.eqb_spec (skl_height s) 0); [lia|].
  apply (findNear_loop_spec s l0 k less allowEqual Hwf Hs _ _ [] l0);
    [reflexivity|constructor|discriminate|lia|].
  pose proof (wf_fuel s l0 l0 (skl_height s - 1) Hwf). lia.
Qed.

(** The cut of the base list at [k] is unique. *)
Lemma cut_unique (A : ArenaMmap) (k : key) (a b a' b' : list Z) :
  a ++ b = a' ++ b' ->
  Forall (below A k) a -> Forall (below A k) a' ->
  (forall y, head b = Some y -> bytes_Compare k (skey A y) <> Gt) ->
  (forall y, head b' = Some y -> bytes_Compare k (skey A y) <> Gt) ->
  a = a' /\ b = b'.
Proof.
  revert a'. induction a as [|x a IH]; intros a' Heq Ha Ha' Hb Hb'.
  - destruct a' as [|x' a']; [now split|]. exfalso.
    simpl in Heq. subst b. apply (Hb x' eq_refl).
    now inversion Ha'.
  - destruct a' as [|x' a'].
    + exfalso. simpl in Heq. subst b'. apply (Hb' x eq_refl). now inversion Ha.
    + simpl in Heq. injection Heq as <- Heq.
      inversion Ha; inversion Ha'; subst.
      destruct (IH a' Heq) as [-> ->]; auto.
Qed.

Lemma findNear_at (s : SkiplistMmap) (l0 a b : list Z) (k : key) (less allowEqual : bool) :
  wf s l0 -> sorted s l0 -> l0 = a ++ b ->
  Forall (below (skl_arena s) k) a ->
  (forall y, head b = Some y -> bytes_Compare k (skey (skl_arena s) y) <> Gt) ->
  findNear s k less allowEqual = Ok (near_result s k less allowEqual a b).
Proof.
  intros Hwf Hs Hl0 Ha Hb.
  destruct (findNear_spec s l0 k less allowEqual Hwf Hs) as (a' & b' & Hl0' & Ha' & Hb' & ->).
  destruct (cut_unique (skl_arena s) k a b a' b') as [-> ->]; auto. congruence.
Qed.

(** ** Get *)

Lemma lookup_key_app (c1 c2 : list (key * Z)) (k : key) :
  lookup_key (c1 ++ c2) k =
  match lookup_key c1 k with
  | Some v => Some v
  | None => lookup_key c2 k
  end.
Proof.
  induction c1 as [|[k' v] c1 IH]; [reflexivity|]. simpl.
  now destruct (bytes_Equal k k').
Qed.

Lemma contents_app (s : SkiplistMmap) (a b : list Z) :
  contents s (a ++ b) = contents s a ++ contents s b.
Proof. apply map_app. Qed.

Lemma lookup_key_none (s : SkiplistMmap) (l : list Z) (k : key) :
  Forall (fun p => bytes_Compare k (skey (skl_arena s) p) <> Eq) l ->
  lookup_key (contents s l) k = None.
Proof.
  induction 1 as [|p l Hp _ IH]; [reflexivity|]. simpl.
  unfold bytes_Equal. destruct (bytes_Compare k (skey (skl_arena s) p)); [contradiction|..];
    exact IH.
Qed.

Lemma lookup_key_below (s : SkiplistMmap) (l : list Z) (k : key) :
  Forall (below (skl_arena s) k) l -> lookup_key (contents s l) k = None.
Proof.
  intros H. apply lookup_key_none. eapply Forall_impl; [exact H|].
  unfold below. intros p ->. discriminate.
Qed.

Lemma lookup_key_above (s : SkiplistMmap) (l : list Z) (k : key) :
  Forall (fun p => key_lt k (skey (skl_arena s) p)) l ->
  lookup_key (contents s l) k = None.
Proof.
  intros H. apply lookup_key_none. eapply Forall_impl; [exact H|].
  unfold key_lt. intros p ->. discriminate.
Qed.

Lemma sorted_above (s : SkiplistMmap) (a b : list Z) (y : Z) (k : key) :
  sorted s (a ++ y :: b) -> key_lt k (skey (skl_arena s) y) ->
  Forall (fun p => key_lt k (skey (skl_arena s) p)) (y :: b).
Proof.
  intros Hs Hy. apply sorted_split in Hs as [_ Hs]. constructor; [exact Hy|].
  eapply Forall_impl; [exact Hs|]. intros p Hp. eapply key_lt_trans; eassumption.
Qed.

Lemma Get_spec (s : SkiplistMmap) (l0 : list Z) (k : key) :
  wf s l0 -> sorted s l0 ->
  Get s k = Ok (default 0 (lookup_key (contents s l0) k)).
Proof.
  intros Hwf Hs.
  destruct (findNear_spec s l0 k false true Hwf Hs) as (a & b & Hl0 & Ha & Hb & Hfn).
  unfold Get. rewrite Hfn. rewrite Hl0, contents_app, lookup_key_app.
  rewrite (lookup_key_below s a k Ha).
  destruct b as [|y b]; cbn [near_result rbind].
  - reflexivity.
  - assert (Hyok : node_ok s y).
    { apply (wf_lookup s l0 y Hwf). rewrite Hl0. apply elem_of_app. right.
      apply list_elem_of_here. }
    pose proof (node_ok_key _ _ Hyok) as Hkey. unfold keyMmap in Hkey.
    destruct Hyok as (Hy0 & ny & kb & Hny & _).
    assert (Hval : getValue (skl_arena s) y = Ok (sval (skl_arena s) y)).
    { unfold sval, getValue. now rewrite (deref_Some _ _ _ Hy0 Hny). }
    rewrite (deref_Some _ _ _ Hy0 Hny) in Hkey. cbn [rbind] in Hkey.
    specialize (Hb y eq_refl).
    simpl lookup_key. unfold bytes_Equal.
    destruct (bytes_Compare k (skey (skl_arena s) y)) eqn:E; [| |contradiction].
    + cbn [rbind]. destruct (Z.eqb_spec y 0); [contradiction|].
      rewrite (deref_Some _ _ _ Hy0 Hny). cbn [rbind]. rewrite Hkey. cbn [rbind].
      unfold bytes_Equal. rewrite E. cbn [negb]. exact Hval.
    + cbn [rbind]. destruct (Z.eqb_spec y 0); [contradiction|].
      rewrite (deref_Some _ _ _ Hy0 Hny). cbn [rbind]. rewrite Hkey. cbn [rbind].
      unfold bytes_Equal. rewrite E. cbn [negb].
      rewrite Hl0 in Hs. apply sorted_split in Hs as [_ Hs].
      rewrite (lookup_key_above s b k); [reflexivity|].
      eapply Forall_impl; [exact Hs|]. intros p Hp. eapply key_lt_trans; eassumption.
Qed.

(** ** What Put does to a sorted skiplist *)

Lemma lookup_key_insert_mid (ca cb : list (key * Z)) (k : key) (v : Z) (k' : key) :
  lookup_key ca k = None ->
  lookup_key (ca ++ (k, v) :: cb) k' =
  if bytes_Equal k' k then Some v else lookup_key (ca ++ cb) k'.
Proof.
  intros Hnone. rewrite !lookup_key_app. cbn [lookup_key].
  destruct (bytes_Equal k' k) eqn:E; [|reflexivity].
  apply bytes_Equal_true in E. subst k'. now rewrite Hnone.
Qed.

Lemma contents_ext (s s' : SkiplistMmap) (l : list Z) :
  (forall p, p ∈ l -> skey (skl_arena s') p = skey (skl_arena s) p /\
                      sval (skl_arena s') p = sval (skl_arena s) p) ->
  contents s' l = contents s l.
Proof.
  induction l as [|p l IH]; intros H; [reflexivity|].
  unfold contents in *. cbn [map].
  destruct (H p ltac:(apply list_elem_of_here)) as [-> ->].
  rewrite IH; [reflexivity|]. intros q Hq. apply H. now apply list_elem_of_further.
Qed.

Lemma sorted_ext (s s' : SkiplistMmap) (l : list Z) :
  (forall p, p ∈ l -> skey (skl_arena s') p = skey (skl_arena s) p) ->
  sorted s l -> sorted s' l.
Proof.
  intros H. unfold sorted.
  replace (map (skey (skl_arena s')) l) with (map (skey (skl_arena s)) l); [auto|].
  induction l as [|p l IH]; [reflexivity|]. cbn [map].
  rewrite (H p) by apply list_elem_of_here.
  rewrite IH; [reflexivity|]. intros q Hq. apply H. now apply list_elem_of_further.
Qed.

Lemma sorted_app (s : SkiplistMmap) (a b : list Z) :
  sorted s (a ++ b) <->
  sorted s a /\ sorted s b /\
  Forall (fun p => Forall (fun q => key_lt (skey (skl_arena s) p) (skey (skl_arena s) q)) b) a.
Proof.
  unfold sorted. rewrite map_app, increasing_app.
  assert (H : Forall (fun x => Forall (key_lt x) (map (skey (skl_arena s)) b))
                (map (skey (skl_arena s)) a)
              <-> Forall (fun p => Forall (fun q => key_lt (skey (skl_arena s) p)
                                                     (skey (skl_arena s) q)) b) a).
  { induction a as [|p a IH]; cbn [map]; [split; constructor|].
    rewrite !Forall_cons, IH.
    assert (Hq : Forall (key_lt (skey (skl_arena s) p)) (map (skey (skl_arena s)) b)
                 <-> Forall (fun q => key_lt (skey (skl_arena s) p) (skey (skl_arena s) q)) b).
    { clear. induction b as [|q b IHb]; cbn [map]; [split; constructor|].
      rewrite !Forall_cons, IHb. reflexivity. }
    rewrite Hq. reflexivity. }
  rewrite H. reflexivity.
Qed.

Lemma sorted_cons (s : SkiplistMmap) (y : Z) (b : list Z) :
  sorted s (y :: b) <->
  Forall (fun q => key_lt (skey (skl_arena s) y) (skey (skl_arena s) q)) b /\ sorted s b.
Proof.
  unfold sorted. cbn [map increasing].
  assert (Hq : Forall (key_lt (skey (skl_arena s) y)) (map (skey (skl_arena s)) b)
               <-> Forall (fun q => key_lt (skey (skl_arena s) y) (skey (skl_arena s) q)) b).
  { induction b as [|q b IHb]; cbn [map]; [split; constructor|].
    rewrite !Forall_cons, IHb. reflexivity. }
  rewrite Hq. reflexivity.
Qed.

Lemma sorted_below_last (s : SkiplistMmap) (a : list Z) (k : key) :
  sorted s a ->
  (forall y, last a = Some y -> below (skl_arena s) k y) ->
  Forall (below (skl_arena s) k) a.
Proof.
  intros Hs Hlast. destruct (last a) as [y|] eqn:E.
  - apply last_Some in E as [a' ->].
    specialize (Hlast y eq_refl).
    apply Forall_app. split; [|constructor; [exact Hlast|constructor]].
    apply sorted_split in Hs as [Hs _].
    eapply Forall_impl; [exact Hs|]. intros p Hp.
    apply (below_trans _ _ _ y); [exact Hp|].
    unfold below in Hlast. rewrite Hlast. discriminate.
  - apply last_None in E as ->. constructor.
Qed.

Lemma sorted_above_head (s : SkiplistMmap) (b : list Z) (k : key) :
  sorted s b ->
  (forall y, head b = Some y -> key_lt k (skey (skl_arena s) y)) ->
  Forall (fun p => key_lt k (skey (skl_arena s) p)) b.
Proof.
  intros Hs Hhead. destruct b as [|y b]; [constructor|].
  apply (sorted_above s [] b y k Hs). now apply Hhead.
Qed.

Lemma take_uint16_short (k : key) : short_key k -> take (uint16 (length k)) k = k.
Proof.
  intros H. rewrite uint16_small by exact H. now apply take_ge.
Qed.

Lemma Put_sorted (rnd : nat -> Z) (s s' : SkiplistMmap) (l0 : list Z) (k : key) (uid : Z) :
  wf s l0 -> sorted s l0 -> short_key k ->
  Put rnd s k uid = Ok s' ->
  exists l0',
    wf s' l0' /\ sorted s' l0' /\
    forall k', lookup_key (contents s' l0') k' =
               if bytes_Equal k' k then Some uid else lookup_key (contents s l0) k'.
Proof.
  intros Hwf Hs Hshort Hput. pose proof Hwf as [Hb _].
  destruct (Put_spec rnd s l0 k uid Hwf)
    as [(y & nd & Hy & Hky & Hnd & Hrun & Hwf')
       |(a & b & Hl0 & Hlast & Hhead &
         [[Hfull _]|(s1 & x & h & Hrun & Hwf' & Hxl & Hold & Hxk & Hxv & _)])].
  - (* the key is there: its value is overwritten *)
    rewrite Hrun in Hput. injection Hput as <-.
    set (s' := with_arena s (store (skl_arena s) y (set_value nd uid))) in *.
    assert (Hkeys : forall p, skey (skl_arena s') p = skey (skl_arena s) p).
    { intros p. apply (skey_store _ _ _ nd); [exact Hnd|apply same_frame_set_value]. }
    exists l0. split; [exact Hwf'|]. split.
    { apply (sorted_ext s); [|exact Hs]. intros p _. apply Hkeys. }
    destruct (list_elem_of_split _ _ Hy) as (a & b & Hl0).
    destruct (wf_split_ne0 s l0 a b y Hwf Hl0) as [Hy0 _].
    pose proof (wf_nodup _ _ Hb) as Hndp. rewrite Hl0 in Hndp.
    apply NoDup_app in Hndp as (_ & Hya & Hndp). apply NoDup_cons in Hndp as [Hyb _].
    assert (Hother : forall l, y ∉ l -> contents s' l = contents s l).
    { intros l Hyl. apply contents_ext. intros p Hp. split; [apply Hkeys|].
      apply sval_store_ne. intros ->. contradiction. }
    assert (Hca : lookup_key (contents s a) k = None).
    { apply lookup_key_below. rewrite Hl0 in Hs. apply sorted_split in Hs as [Hs _].
      eapply Forall_impl; [exact Hs|]. intros p Hp. apply below_lt. now rewrite <- Hky. }
    intros k'. rewrite Hl0, !contents_app.
    rewrite (Hother a) by (intros Hin; now apply (Hya y Hin), list_elem_of_here).
    cbn [contents map]. fold (contents s' b). fold (contents s b).
    rewrite (Hother b) by exact Hyb.
    rewrite Hkeys, Hky.
    replace (sval (skl_arena s') y) with uid
      by (symmetry; apply (sval_store_eq (skl_arena s) y (set_value nd uid) Hy0)).
    rewrite !(lookup_key_insert_mid _ _ k) by exact Hca.
    now destruct (bytes_Equal k' k).
  - congruence.
  - (* the key is new: a node is linked in *)
    rewrite Hrun in Hput. injection Hput as <-.
    rewrite take_uint16_short in Hxk by exact Hshort.
    assert (Hsa : sorted s a /\ sorted s b /\
                  Forall (fun p => Forall (fun q => key_lt (skey (skl_arena s) p)
                                                     (skey (skl_arena s) q)) b) a)
      by (apply sorted_app; now rewrite <- Hl0).
    destruct Hsa as (Hsa & Hsb & Hab).
    assert (Ha : Forall (below (skl_arena s) k) a) by now apply sorted_below_last.
    assert (Hbk : Forall (fun p => key_lt k (skey (skl_arena s) p)) b)
      by now apply sorted_above_head.
    assert (Hina : forall p, p ∈ a -> p ∈ l0)
      by (intros p Hp; rewrite Hl0; apply elem_of_app; now left).
    assert (Hinb : forall p, p ∈ b -> p ∈ l0)
      by (intros p Hp; rewrite Hl0; apply elem_of_app; now right).
    exists (a ++ x :: b). split; [exact Hwf'|]. split.
    + apply sorted_app. split; [|split].
      * apply (sorted_ext s); [|exact Hsa]. intros p Hp. now apply Hold, Hina.
      * apply sorted_cons. split.
        -- rewrite Hxk. apply Forall_forall. intros q Hq.
           destruct (Hold q (Hinb q Hq)) as (-> & _).
           rewrite Forall_forall in Hbk. now apply Hbk.
        -- apply (sorted_ext s); [|exact Hsb]. intros p Hp. now apply Hold, Hinb.
      * apply Forall_forall. intros p Hp.
        destruct (Hold p (Hina p Hp)) as (-> & _).
        constructor.
        -- rewrite Hxk. apply below_lt. rewrite Forall_forall in Ha. now apply Ha.
        -- rewrite Forall_forall in Hab. specialize (Hab p Hp).
           apply Forall_forall. intros q Hq.
           destruct (Hold q (Hinb q Hq)) as (-> & _).
           rewrite Forall_forall in Hab. now apply Hab.
    + intros k'. rewrite Hl0, !contents_app. cbn [contents map].
      fold (contents s1 b). fold (contents s b). rewrite Hxk, Hxv.
      rewrite (contents_ext s s1 a)
        by (intros p Hp; destruct (Hold p (Hina p Hp)) as (? & ? & _); now split).
      rewrite (contents_ext s s1 b)
        by (intros p Hp; destruct (Hold p (Hinb p Hp)) as (? & ? & _); now split).
      apply lookup_key_insert_mid. now apply lookup_key_below.
Qed.

(** ** Runs of Put *)

Lemma Put_outcome (rnd : nat -> Z) (s : SkiplistMmap) (l0 : list Z) (k : key) (uid : Z) :
  wf s l0 ->
  (Put rnd s k uid = Err ArenaFull /\
   arena_cap (skl_arena s) < arena_n (skl_arena s) + put_space k) \/
  exists s' l0', Put rnd s k uid = Ok s' /\ wf s' l0' /\ l0' <> [] /\
                 (skl_height s <= skl_height s')%nat /\
                 arena_n (skl_arena s) <= arena_n (skl_arena s') /\
                 arena_n (skl_arena s') <= arena_n (skl_arena s) + put_space k /\
                 arena_cap (skl_arena s') = arena_cap (skl_arena s).
Proof.
  intros Hwf. unfold put_space.
  destruct (Put_spec rnd s l0 k uid Hwf)
    as [(y & nd & Hy & Hky & Hnd & Hrun & Hwf')
       |(a & b & Hl0 & Hlast & Hhead &
         [[Hfull Hcap]|(s1 & x & h & Hrun & Hwf' & Hxl & Hold & Hxk & Hxv & _ & _ & Hh & _
                        & Hn & Hn' & Hc)])].
  - right. eexists _, l0. split; [exact Hrun|]. split; [exact Hwf'|].
    split; [|repeat split; cbn; lia].
    intros ->. exact (not_elem_of_nil _ Hy).
  - left. split; [exact Hfull|lia].
  - right. exists s1, (a ++ x :: b). split; [exact Hrun|]. split; [exact Hwf'|].
    split; [|repeat split; lia]. now destruct a.
Qed.

Lemma puts_space_nonneg (ops : list put_call) : 0 <= puts_space ops.
Proof. induction ops as [|op ops IH]; cbn [puts_space]; unfold put_space; lia. Qed.

Lemma Puts_wf (ops : list put_call) :
  forall (s : SkiplistMmap) (l0 : list Z),
    wf s l0 ->
    (Puts s ops = Err ArenaFull /\
     arena_cap (skl_arena s) < arena_n (skl_arena s) + puts_space ops) \/
    exists s' l0', Puts s ops = Ok s' /\ wf s' l0' /\
                   (ops <> [] -> l0' <> []) /\ (ops = [] -> s' = s /\ l0' = l0).
Proof.
  induction ops as [|op ops IH]; intros s l0 Hwf.
  - right. exists s, l0. split; [reflexivity|]. split; [exact Hwf|].
    split; [congruence|now split].
  - cbn [Puts puts_space]. pose proof (puts_space_nonneg ops) as Hnn.
    destruct (Put_outcome (put_rnd op) s l0 (put_key op) (put_val op) Hwf)
      as [[-> Hcap]|(s1 & l1 & -> & Hwf1 & Hne & _ & _ & Hn1 & Hc1)];
      [left; split; [reflexivity|lia]|].
    cbn [rbind].
    destruct (IH s1 l1 Hwf1) as [[-> Hcap]|(s2 & l2 & -> & Hwf2 & Hne2 & Hnil)];
      [left; split; [reflexivity|lia]|].
    right. exists s2, l2. split; [reflexivity|]. split; [exact Hwf2|].
    split; [|discriminate]. intros _.
    destruct ops as [|op' ops]; [|apply Hne2; discriminate].
    now destruct (Hnil eq_refl) as [_ ->].
Qed.

Lemma Puts_sorted (ops : list put_call) :
  forall (s : SkiplistMmap) (l0 : list Z),
    wf s l0 -> sorted s l0 ->
    Forall (fun op => short_key (put_key op)) ops ->
    Puts s ops = Err ArenaFull \/
    exists s' l0',
      Puts s ops = Ok s' /\ wf s' l0' /\ sorted s' l0' /\
      forall k, lookup_key (contents s' l0') k =
                match last_put ops k with
                | Some v => Some v
                | None => lookup_key (contents s l0) k
                end.
Proof.
  induction ops as [|op ops IH]; intros s l0 Hwf Hs Hshort.
  - right. exists s, l0. split; [reflexivity|]. split; [exact Hwf|].
    split; [exact Hs|reflexivity].
  - cbn [Puts]. inversion Hshort as [|? ? Hop Hrest]; subst.
    destruct (Put_outcome (put_rnd op) s l0 (put_key op) (put_val op) Hwf)
      as [[-> _]|(s1 & l1' & Hput & _)]; [now left|].
    destruct (Put_sorted _ _ _ _ _ _ Hwf Hs Hop Hput) as (l1 & Hwf1 & Hs1 & Hlk1).
    rewrite Hput. cbn [rbind].
    destruct (IH s1 l1 Hwf1 Hs1 Hrest) as [->|(s2 & l2 & -> & Hwf2 & Hs2 & Hlk2)];
      [now left|].
    right. exists s2, l2. split; [reflexivity|]. split; [exact Hwf2|].
    split; [exact Hs2|]. intros k. rewrite Hlk2, Hlk1. cbn [last_put].
    destruct (last_put ops k); [reflexivity|].
    now destruct (bytes_Equal k (put_key op)).
Qed.

Lemma NewSkiplist_sorted (s : SkiplistMmap) : sorted s [].
Proof. exact I. Qed.

(** An arena of 104 bytes for the head and [puts_space ops] bytes for the
    calls is never exhausted. *)
Lemma NewAndPuts_enough_space (arenaSize : Z) (ops : list put_call) :
  104 + puts_space ops <= arenaSize ->
  exists s, NewAndPuts arenaSize ops = Ok s.
Proof.
  intros Hspace. unfold NewAndPuts. pose proof (puts_space_nonneg ops).
  destruct (NewSkiplistMmap_spec arenaSize)
    as [[_ Hsmall]|(s0 & -> & Hwf0 & _ & Hn0 & Hc0)]; [lia|].
  cbn [rbind].
  destruct (Puts_wf ops s0 [] Hwf0) as [[_ Hcap]|(s & l0 & -> & _)]; [lia|].
  now exists s.
Qed.

(* ===================================================================== *)
(** * The main theorems *)
(* ===================================================================== *)

(** C1, as amended.  For every run of Put on a new skiplist whose keys are
    shorter than 65536 bytes (the range of the 16-bit keySize field), the
    run either stops on a full arena or returns, and then, for every key
    [k], Get(k) returns the value of the last Put with key [k], and 0 when
    no Put had key [k].  The run returns when the arena has 104 bytes for
    the head and, for each call, 103 bytes and the length of its key. *)
Theorem Get_returns_last_Put (arenaSize : Z) (ops : list put_call) :
  Forall (fun op => short_key (put_key op)) ops ->
  (NewAndPuts arenaSize ops = Err ArenaFull \/
   exists s, NewAndPuts arenaSize ops = Ok s /\
             forall k, Get s k = Ok (default 0 (last_put ops k))) /\
  (104 + puts_space ops <= arenaSize -> exists s, NewAndPuts arenaSize ops = Ok s).
Proof.
  intros Hshort. split; [|apply NewAndPuts_enough_space]. unfold NewAndPuts.
  destruct (NewSkiplistMmap_spec arenaSize) as [[-> _]|(s0 & -> & Hwf0 & _)]; [now left|].
  cbn [rbind].
  destruct (Puts_sorted ops s0 [] Hwf0 (NewSkiplist_sorted s0) Hshort)
    as [->|(s & l0 & -> & Hwf & Hs & Hlk)]; [now left|].
  right. exists s. split; [reflexivity|]. intros k.
  rewrite (Get_spec s l0 k Hwf Hs), Hlk. cbn [contents map lookup_key].
  now destruct (last_put ops k).
Qed.

Lemma Get_returns_last_Put_witness :
  (NewAndPuts 4096 (mkPut rnd_low key_a 7 :: mkPut rnd_grow key_a 9 :: puts_abc)
   = Err ArenaFull \/
   exists s,
     NewAndPuts 4096 (mkPut rnd_low key_a 7 :: mkPut rnd_grow key_a 9 :: puts_abc) = Ok s /\
     forall k, Get s k
               = Ok (default 0 (last_put (mkPut rnd_low key_a 7 :: mkPut rnd_grow key_a 9
                                            :: puts_abc) k))) /\
  (104 + puts_space (mkPut rnd_low key_a 7 :: mkPut rnd_grow key_a 9 :: puts_abc) <= 4096 ->
   exists s,
     NewAndPuts 4096 (mkPut rnd_low key_a 7 :: mkPut rnd_grow key_a 9 :: puts_abc) = Ok s).
Proof.
  apply (Get_returns_last_Put 4096
           (mkPut rnd_low key_a 7 :: mkPut rnd_grow key_a 9 :: puts_abc)).
  repeat (constructor; [reflexivity|]). constructor.
Defined.

(** C1 fails as stated: a key of 65536 bytes is stored with keySize 0, and
    Get of that key returns 0 right after Put gave it the value 5. *)
Lemma Get_misses_long_key :
  last_put [mkPut rnd_low key_64k 5] key_64k = Some 5 /\
  (s <- NewAndPuts 100000 [mkPut rnd_low key_64k 5] ;; Get s key_64k) = Ok 0.
Proof. split; vm_compute; reflexivity. Qed.

(** ** Walking the base level *)

Lemma Key_node (s : SkiplistMmap) (y : Z) :
  node_ok s y -> Key s (mkIter y) = Ok (skey (skl_arena s) y).
Proof. intros H. apply (node_ok_key s y H). Qed.

Lemma Next_node (s : SkiplistMmap) (l0 a b : list Z) (y : Z) :
  wf s l0 -> l0 = a ++ y :: b -> Next s (mkIter y) = Ok (mkIter (hd0 b)).
Proof.
  intros Hwf Hl0. destruct (wf_split_ne0 s l0 a b y Hwf Hl0) as [Hy0 _].
  assert (Hyok : node_ok s y).
  { apply (wf_lookup s l0 y Hwf). rewrite Hl0. apply elem_of_app. right.
    apply list_elem_of_here. }
  unfold Next, Valid. cbn [it_n]. destruct (Z.eqb_spec y 0); [contradiction|].
  cbn [negb AssertTrue rbind].
  replace y with (lastd (skl_head s) (a ++ [y])) by apply lastd_snoc.
  rewrite (getNext_level s l0 (a ++ [y]) b 0 Hwf).
  - cbn [rbind]. rewrite level_list_zero; [reflexivity|].
    pose proof Hwf as [Hb _]. pose proof (wf_nodes _ _ Hb) as Hn. rewrite Hl0 in Hn.
    apply Forall_app in Hn as [_ Hn]. now inversion Hn.
  - rewrite Hl0. now rewrite <- app_assoc.
  - unfold maxHeight. lia.
  - intros y' Hy'. rewrite last_snoc in Hy'. injection Hy' as <-.
    apply node_ok_hgt in Hyok. lia.
Qed.

Lemma SeekToFirst_spec (s : SkiplistMmap) (l0 : list Z) (it : IteratorMmap) :
  wf s l0 -> SeekToFirst s it = Ok (mkIter (hd0 l0)).
Proof.
  intros Hwf. unfold SeekToFirst.
  change (skl_head s) with (lastd (skl_head s) []).
  rewrite (getNext_level s l0 [] l0 0 Hwf eq_refl);
    [|unfold maxHeight; lia|discriminate].
  cbn [rbind]. rewrite level_list_zero; [reflexivity|].
  destruct Hwf as [Hb _]. apply (wf_nodes _ _ Hb).
Qed.

Lemma walk_spec (s : SkiplistMmap) (l0 : list Z) :
  wf s l0 ->
  forall (fuel : nat) (a b : list Z),
    l0 = a ++ b -> (length b < fuel)%nat ->
    walk fuel s (mkIter (hd0 b)) = Ok (map (skey (skl_arena s)) b, mkIter 0).
Proof.
  intros Hwf. induction fuel as [|fuel IH]; intros a b Hl0 Hfuel; [lia|].
  destruct b as [|y b]; [reflexivity|].
  rewrite hd0_cons. cbn [walk].
  destruct (wf_split_ne0 s l0 a b y Hwf Hl0) as [Hy0 _].
  unfold Valid at 1. cbn [it_n]. destruct (Z.eqb_spec y 0); [contradiction|].
  cbn [negb].
  rewrite Key_node
    by (apply (wf_lookup s l0 y Hwf); rewrite Hl0; apply elem_of_app; right;
        apply list_elem_of_here).
  cbn [rbind]. rewrite (Next_node s l0 a b y Hwf Hl0). cbn [rbind].
  rewrite (IH (a ++ [y]) b); [reflexivity| |cbn [length] in Hfuel; lia].
  rewrite Hl0. now rewrite <- app_assoc.
Qed.

Lemma iterate_spec (s : SkiplistMmap) (l0 : list Z) :
  wf s l0 -> iterate s = Ok (map (skey (skl_arena s)) l0, mkIter 0).
Proof.
  intros Hwf. unfold iterate. rewrite (SeekToFirst_spec s l0 _ Hwf). cbn [rbind].
  apply (walk_spec s l0 Hwf _ [] l0 eq_refl).
  pose proof (wf_fuel s l0 l0 0 Hwf). lia.
Qed.

Lemma lookup_key_keys (s : SkiplistMmap) (l : list Z) (k : key) :
  is_Some (lookup_key (contents s l) k) <-> k ∈ map (skey (skl_arena s)) l.
Proof.
  induction l as [|p l IH]; cbn [contents map lookup_key].
  - split; [intros [? [=]]|intros H; now apply elem_of_nil in H].
  - fold (contents s l). rewrite elem_of_cons, <- IH.
    destruct (bytes_Equal k (skey (skl_arena s) p)) eqn:E.
    + apply bytes_Equal_true in E. split; [now left|eauto].
    + split; [now right|]. intros [->|H]; [|exact H].
      unfold bytes_Equal in E. now rewrite bytes_Compare_refl in E.
Qed.

Lemma last_put_keys (ops : list put_call) (k : key) :
  is_Some (last_put ops k) <-> exists op, op ∈ ops /\ put_key op = k.
Proof.
  induction ops as [|op ops IH]; cbn [last_put].
  - split; [intros [? [=]]|intros (op & H & _); now apply elem_of_nil in H].
  - destruct (last_put ops k) as [v|].
    + split; [|eauto]. intros _.
      destruct (proj1 IH ltac:(eauto)) as (op' & Hin & Hk).
      exists op'. split; [now apply list_elem_of_further|exact Hk].
    + destruct (bytes_Equal k (put_key op)) eqn:E.
      * apply bytes_Equal_true in E. split; [|eauto]. intros _.
        exists op. split; [apply list_elem_of_here|now symmetry].
      * split; [intros [? [=]]|]. intros (op' & Hin & Hk).
        apply elem_of_cons in Hin as [->|Hin].
        -- unfold bytes_Equal in E. now rewrite Hk, bytes_Compare_refl in E.
        -- apply IH. eauto.
Qed.

Lemma increasing_NoDup (l : list key) : increasing l -> NoDup l.
Proof.
  induction l as [|k l IH]; [constructor|]. intros [Hk Hl].
  apply NoDup_cons. split; [|auto].
  intros Hin. rewrite Forall_forall in Hk. now apply (key_lt_irrefl k), Hk.
Qed.

(** C2, as amended.  For every run of Put on a new skiplist whose keys are
    shorter than 65536 bytes, if the run returns then SeekToFirst followed
    by Next for as long as the iterator is valid returns too, ends on an
    invalid iterator, and has visited exactly the keys that were Put, each
    once, in strictly increasing byte-lexicographic order.  The run returns
    when the arena has 104 bytes for the head and, for each call, 103 bytes
    and the length of its key. *)
Theorem iteration_sorted_and_complete (arenaSize : Z) (ops : list put_call) :
  Forall (fun op => short_key (put_key op)) ops ->
  (NewAndPuts arenaSize ops = Err ArenaFull \/
   exists s ks last,
     NewAndPuts arenaSize ops = Ok s /\
     iterate s = Ok (ks, last) /\
     Valid last = false /\
     increasing ks /\ NoDup ks /\
     forall k, k ∈ ks <-> exists op, op ∈ ops /\ put_key op = k) /\
  (104 + puts_space ops <= arenaSize -> exists s, NewAndPuts arenaSize ops = Ok s).
Proof.
  intros Hshort. split; [|apply NewAndPuts_enough_space]. unfold NewAndPuts.
  destruct (NewSkiplistMmap_spec arenaSize) as [[-> _]|(s0 & -> & Hwf0 & _)]; [now left|].
  cbn [rbind].
  destruct (Puts_sorted ops s0 [] Hwf0 (NewSkiplist_sorted s0) Hshort)
    as [->|(s & l0 & -> & Hwf & Hs & Hlk)]; [now left|].
  right. exists s, (map (skey (skl_arena s)) l0), (mkIter 0).
  split; [reflexivity|]. split; [now apply iterate_spec|]. split; [reflexivity|].
  split; [exact Hs|]. split; [now apply increasing_NoDup|].
  intros k. rewrite <- lookup_key_keys, Hlk, <- last_put_keys.
  cbn [contents map lookup_key]. destruct (last_put ops k); [|reflexivity].
  split; eauto.
Qed.

Lemma iteration_sorted_and_complete_witness :
  (NewAndPuts 4096 puts_abc = Err ArenaFull \/
   exists s ks last,
     NewAndPuts 4096 puts_abc = Ok s /\
     iterate s = Ok (ks, last) /\
     Valid last = false /\
     increasing ks /\ NoDup ks /\
     forall k, k ∈ ks <-> exists op, op ∈ puts_abc /\ put_key op = k) /\
  (104 + puts_space puts_abc <= 4096 -> exists s, NewAndPuts 4096 puts_abc = Ok s).
Proof.
  apply (iteration_sorted_and_complete 4096 puts_abc).
  repeat (constructor; [reflexivity|]). constructor.
Defined.

(** C2 fails as stated: after Put("c") and Put of a 65537-byte key that
    starts with "c", which is stored with keySize 1, the iteration visits
    the key "c" twice. *)
Lemma iteration_repeats_truncated_key :
  (s <- NewAndPuts 100000 [mkPut rnd_low key_c 1; mkPut rnd_low key_c_long 2] ;;
   iterate s) = Ok ([key_c; key_c], mkIter 0) /\
  ~ increasing [key_c; key_c] /\ ~ NoDup [key_c; key_c].
Proof.
  split; [vm_compute; reflexivity|]. split.
  - intros [H _]. inversion H as [|? ? Hlt _]; subst. now apply key_lt_irrefl in Hlt.
  - intros H. apply NoDup_cons in H as [H _]. apply H, list_elem_of_here.
Qed.

(** Every skiplist built by Put from keys shorter than 65536 bytes is
    well formed and sorted, and its keys are the keys that were Put. *)
Lemma NewAndPuts_good (arenaSize : Z) (ops : list put_call) (s : SkiplistMmap) :
  Forall (fun op => short_key (put_key op)) ops ->
  NewAndPuts arenaSize ops = Ok s ->
  exists l0, wf s l0 /\ sorted s l0 /\
             forall k, k ∈ map (skey (skl_arena s)) l0 <->
                       exists op, op ∈ ops /\ put_key op = k.
Proof.
  intros Hshort Hrun. unfold NewAndPuts in Hrun.
  destruct (NewSkiplistMmap_spec arenaSize) as [[E _]|(s0 & E & Hwf0 & _)];
    rewrite E in Hrun; [discriminate|]. cbn [rbind] in Hrun.
  destruct (Puts_sorted ops s0 [] Hwf0 (NewSkiplist_sorted s0) Hshort)
    as [E'|(s' & l0 & E' & Hwf & Hs & Hlk)]; rewrite E' in Hrun; [discriminate|].
  injection Hrun as <-. exists l0. split; [exact Hwf|]. split; [exact Hs|].
  intros k. rewrite <- lookup_key_keys, Hlk, <- last_put_keys.
  cbn [contents map lookup_key]. destruct (last_put ops k); [|reflexivity].
  split; eauto.
Qed.

Lemma skl_abc_run : NewAndPuts 4096 puts_abc = Ok skl_abc.
Proof. vm_compute. reflexivity. Qed.

Lemma skl_abc_good :
  exists l0, wf skl_abc l0 /\ sorted skl_abc l0 /\
             forall k, k ∈ map (skey (skl_arena skl_abc)) l0 <->
                       exists op, op ∈ puts_abc /\ put_key op = k.
Proof.
  apply (NewAndPuts_good 4096 puts_abc skl_abc).
  - repeat (constructor; [reflexivity|]). constructor.
  - exact skl_abc_run.
Qed.

Lemma key_inj (s : SkiplistMmap) (l0 : list Z) (p q : Z) :
  sorted s l0 -> p ∈ l0 -> q ∈ l0 ->
  skey (skl_arena s) p = skey (skl_arena s) q -> p = q.
Proof.
  intros Hs Hp Hq Hk.
  destruct (list_elem_of_split _ _ Hp) as (l1 & l2 & ->).
  apply sorted_split in Hs as [H1 H2]. rewrite Forall_forall in H1, H2.
  apply elem_of_app in Hq as [Hq|Hq].
  - specialize (H1 q Hq). rewrite Hk in H1. now apply key_lt_irrefl in H1.
  - apply elem_of_cons in Hq as [->|Hq]; [reflexivity|].
    specialize (H2 q Hq). rewrite Hk in H2. now apply key_lt_irrefl in H2.
Qed.

Lemma keys_elem (s : SkiplistMmap) (l : list Z) (k : key) :
  k ∈ map (skey (skl_arena s)) l <-> exists y, y ∈ l /\ skey (skl_arena s) y = k.
Proof.
  induction l as [|p l IH]; cbn [map].
  - split; [intros H; now apply elem_of_nil in H|intros (y & H & _); now apply elem_of_nil in H].
  - rewrite elem_of_cons, IH. split.
    + intros [->|(y & Hy & Hk)]; [exists p|exists y]; split; auto using list_elem_of_here.
      now apply list_elem_of_further.
    + intros (y & Hy & Hk). apply elem_of_cons in Hy as [->|Hy]; [now left|right; eauto].
Qed.

(** C3, as amended.  On a well-formed skiplist whose stored keys increase
    strictly (as they do in every skiplist built by Put from keys shorter
    than 65536 bytes) and in which a node of the list stores the key [k],
    Put(k, v) returns, allocates nothing (MemSize, the height, the head and
    the key bytes are what they were), leaves every other node as it was,
    and changes in the node of [k] the value word only. *)
Theorem Put_present_key_in_place (rnd : nat -> Z) (s : SkiplistMmap) (l0 : list Z)
    (k : key) (uid : Z) :
  wf s l0 -> sorted s l0 ->
  k ∈ map (skey (skl_arena s)) l0 ->
  exists y nd s',
    y ∈ l0 /\ skey (skl_arena s) y = k /\
    arena_nodes (skl_arena s) !! y = Some nd /\
    Put rnd s k uid = Ok s' /\
    MemSize s' = MemSize s /\
    skl_height s' = skl_height s /\ skl_head s' = skl_head s /\
    skl_ref s' = skl_ref s /\
    arena_cap (skl_arena s') = arena_cap (skl_arena s) /\
    arena_keys (skl_arena s') = arena_keys (skl_arena s) /\
    (forall p, p <> y -> arena_nodes (skl_arena s') !! p = arena_nodes (skl_arena s) !! p) /\
    arena_nodes (skl_arena s') !! y
    = Some (mkNode uid (node_keyOffset nd) (node_keySize nd) (node_height nd)
              (node_tower nd)).
Proof.
  intros Hwf Hs Hk. apply keys_elem in Hk as (y & Hy & Hky).
  destruct (Put_spec rnd s l0 k uid Hwf)
    as [(y' & nd & Hy' & Hky' & Hnd & Hrun & Hwf')
       |(a & b & Hl0 & Hlast & Hhead & _)].
  - assert (y' = y) as -> by (apply (key_inj s l0); congruence).
    exists y, nd, (with_arena s (store (skl_arena s) y (set_value nd uid))).
    split; [exact Hy|]. split; [exact Hky|]. split; [exact Hnd|]. split; [exact Hrun|].
    cbn [with_arena store MemSize arena_size skl_arena skl_height skl_head skl_ref
         arena_n arena_cap arena_keys arena_nodes].
    repeat (split; [reflexivity|]). split.
    + intros p Hp. now rewrite lookup_insert_ne by congruence.
    + now rewrite lookup_insert_eq.
  - exfalso.
    assert (Hsab : sorted s (a ++ b)) by now rewrite <- Hl0.
    apply sorted_app in Hsab as (Hsa & Hsb & _).
    assert (Ha : Forall (below (skl_arena s) k) a) by now apply sorted_below_last.
    assert (Hb : Forall (fun p => key_lt k (skey (skl_arena s) p)) b)
      by now apply sorted_above_head.
    rewrite Forall_forall in Ha, Hb.
    rewrite Hl0 in Hy. apply elem_of_app in Hy as [Hy|Hy].
    + specialize (Ha y Hy). apply below_lt in Ha. rewrite Hky in Ha.
      now apply key_lt_irrefl in Ha.
    + specialize (Hb y Hy). rewrite Hky in Hb. now apply key_lt_irrefl in Hb.
Qed.

Lemma Put_present_key_in_place_witness :
  exists l0,
    wf skl_abc l0 /\ sorted skl_abc l0 /\
    key_a ∈ map (skey (skl_arena skl_abc)) l0 /\
    exists y nd s',
      y ∈ l0 /\ skey (skl_arena skl_abc) y = key_a /\
      arena_nodes (skl_arena skl_abc) !! y = Some nd /\
      Put rnd_grow skl_abc key_a 42 = Ok s' /\
      MemSize s' = MemSize skl_abc /\
      skl_height s' = skl_height skl_abc /\ skl_head s' = skl_head skl_abc /\
      skl_ref s' = skl_ref skl_abc /\
      arena_cap (skl_arena s') = arena_cap (skl_arena skl_abc) /\
      arena_keys (skl_arena s') = arena_keys (skl_arena skl_abc) /\
      (forall p, p <> y ->
         arena_nodes (skl_arena s') !! p = arena_nodes (skl_arena skl_abc) !! p) /\
      arena_nodes (skl_arena s') !! y
      = Some (mkNode 42 (node_keyOffset nd) (node_keySize nd) (node_height nd)
                (node_tower nd)).
Proof.
  destruct skl_abc_good as (l0 & Hwf & Hs & Hk).
  assert (Hin : key_a ∈ map (skey (skl_arena skl_abc)) l0).
  { apply Hk. exists (mkPut rnd_low key_a 1). split; [|reflexivity].
    apply list_elem_of_further, list_elem_of_here. }
  exists l0. split; [exact Hwf|]. split; [exact Hs|]. split; [exact Hin|].
  exact (Put_present_key_in_place rnd_grow skl_abc l0 key_a 42 Hwf Hs Hin).
Defined.

(** C3 fails as stated: a key of 65536 bytes or more is stored truncated,
    which can leave the stored keys out of order, and then a search passes
    by a node that stores the key it looks for.  After Put("b", 2) and Put
    of a key of 65536 bytes "zz...z" with value 5, the list holds "b" and
    then the empty key, the 0 bytes kept of the long key.  Put("", 7)
    compares "" with "b" first, stops there, and links a new node before
    "b": the node that stored the empty key keeps its value 5, the list
    has three nodes and MemSize has grown. *)
Lemma Put_stored_key_out_of_order_allocates :
  (s <- NewAndPuts 200000 [mkPut rnd_low key_b 2; mkPut rnd_low key_z64k 5] ;;
   before <- uni_iterate s false ;;
   s' <- Put rnd_low s [] 7 ;;
   after <- uni_iterate s' false ;;
   Ok (before, after, MemSize s <? MemSize s'))
  = Ok ([(key_b, 2); ([], 5)], [([], 7); (key_b, 2); ([], 5)], true).
Proof. vm_compute. reflexivity. Qed.

(** ** Seeking a key that is present *)

Lemma findNear_present (s : SkiplistMmap) (l0 a b : list Z) (y : Z)
    (less allowEqual : bool) :
  wf s l0 -> sorted s l0 -> l0 = a ++ y :: b ->
  findNear s (skey (skl_arena s) y) less allowEqual
  = Ok (if allowEqual then (y, true)
        else if less then (lastd 0 a, false) else (hd0 b, false)).
Proof.
  intros Hwf Hs Hl0. pose proof Hwf as [Hb _].
  rewrite (findNear_at s l0 a (y :: b) _ less allowEqual Hwf Hs Hl0).
  - cbn [near_result]. rewrite bytes_Compare_refl.
    destruct allowEqual; [reflexivity|]. destruct less; [|reflexivity].
    f_equal. unfold not_head. destruct a as [|z a].
    + cbn. now rewrite Z.eqb_refl.
    + assert (Hne : lastd (skl_head s) (z :: a) <> skl_head s).
      { intros E. apply (wf_head_fresh _ _ Hb). rewrite <- E, Hl0.
        apply elem_of_app. left. now apply lastd_in. }
      destruct (Z.eqb_spec (lastd (skl_head s) (z :: a)) (skl_head s)); [contradiction|].
      f_equal. now apply lastd_nonempty.
  - rewrite Hl0 in Hs. apply sorted_split in Hs as [Hs _].
    eapply Forall_impl; [exact Hs|]. intros p Hp. now apply below_lt.
  - intros ? [= <-]. rewrite bytes_Compare_refl. discriminate.
Qed.

(** C4, as amended.  On a well-formed, sorted skiplist that holds key [k],
    in the node [y] between the nodes [a] (smaller keys) and [b] (greater
    keys): SeekForPrev(k) positions the iterator at [k] itself, so that a
    following Next() positions it at the key immediately following [k]
    (it is invalid when [k] is the last key); Seek(k) followed by Prev()
    positions it at the key immediately preceding [k] (it is invalid when
    [k] is the first key). *)
Theorem Seek_then_step (s : SkiplistMmap) (l0 : list Z) (k : key) (it : IteratorMmap) :
  wf s l0 -> sorted s l0 ->
  k ∈ map (skey (skl_arena s)) l0 ->
  exists a y b,
    l0 = a ++ y :: b /\ skey (skl_arena s) y = k /\
    Forall (fun p => key_lt (skey (skl_arena s) p) k) a /\
    Forall (fun p => key_lt k (skey (skl_arena s) p)) b /\
    SeekForPrev s it k = Ok (mkIter y) /\
    (it1 <- SeekForPrev s it k ;; Next s it1) = Ok (mkIter (hd0 b)) /\
    Seek s it k = Ok (mkIter y) /\
    (it1 <- Seek s it k ;; Prev s it1) = Ok (mkIter (lastd 0 a)).
Proof.
  intros Hwf Hs Hk. apply keys_elem in Hk as (y & Hy & Hky).
  destruct (list_elem_of_split _ _ Hy) as (a & b & Hl0).
  exists a, y, b. split; [exact Hl0|]. split; [exact Hky|].
  pose proof Hs as Hs'. rewrite Hl0 in Hs'. apply sorted_split in Hs' as [Hsa Hsb].
  rewrite Hky in Hsa, Hsb. split; [exact Hsa|]. split; [exact Hsb|].
  destruct (wf_split_ne0 s l0 a b y Hwf Hl0) as [Hy0 _].
  assert (Hyok : node_ok s y) by now apply (wf_lookup s l0).
  unfold SeekForPrev, Seek. rewrite <- Hky.
  rewrite !(findNear_present s l0 a b y _ true Hwf Hs Hl0). cbn [rbind].
  split; [reflexivity|]. split; [now apply (Next_node s l0 a b)|].
  split; [reflexivity|].
  unfold Prev, Valid. cbn [it_n]. destruct (Z.eqb_spec y 0); [contradiction|].
  cbn [negb AssertTrue rbind]. rewrite (Key_node s y Hyok). cbn [rbind].
  now rewrite (findNear_present s l0 a b y true false Hwf Hs Hl0).
Qed.

Lemma Seek_then_step_witness :
  exists l0,
    wf skl_abc l0 /\ sorted skl_abc l0 /\
    key_b ∈ map (skey (skl_arena skl_abc)) l0 /\
    exists a y b,
      l0 = a ++ y :: b /\ skey (skl_arena skl_abc) y = key_b /\
      Forall (fun p => key_lt (skey (skl_arena skl_abc) p) key_b) a /\
      Forall (fun p => key_lt key_b (skey (skl_arena skl_abc) p)) b /\
      SeekForPrev skl_abc (mkIter 0) key_b = Ok (mkIter y) /\
      (it1 <- SeekForPrev skl_abc (mkIter 0) key_b ;; Next skl_abc it1)
      = Ok (mkIter (hd0 b)) /\
      Seek skl_abc (mkIter 0) key_b = Ok (mkIter y) /\
      (it1 <- Seek skl_abc (mkIter 0) key_b ;; Prev skl_abc it1)
      = Ok (mkIter (lastd 0 a)).
Proof.
  destruct skl_abc_good as (l0 & Hwf & Hs & Hk).
  assert (Hin : key_b ∈ map (skey (skl_arena skl_abc)) l0).
  { apply Hk. exists (mkPut rnd_grow key_b 2). split; [|reflexivity].
    apply list_elem_of_here. }
  exists l0. split; [exact Hwf|]. split; [exact Hs|]. split; [exact Hin|].
  exact (Seek_then_step skl_abc l0 key_b (mkIter 0) Hwf Hs Hin).
Defined.

(** C4 fails as stated: with the keys "a", "b" and "c" in the list,
    SeekForPrev("a") followed by Next() leaves the iterator at "b", not at
    "a", although "a" is not the last key. *)
Lemma SeekForPrev_Next_leaves_key :
  (s <- NewAndPuts 4096 puts_abc ;;
   it <- SeekForPrev s (mkIter 0) key_a ;;
   it <- Next s it ;;
   Key s it) = Ok key_b /\ key_b <> key_a.
Proof. split; [vm_compute; reflexivity|discriminate]. Qed.

(** ** Reachable nodes *)

Lemma path_succ (a : ArenaMmap) (L : nat) (l : list Z) (e : Z) :
  forall x q p,
    path a L x l e -> q ∈ x :: l -> getNextOffset a q L = Ok p ->
    p = e \/ p ∈ l.
Proof.
  induction l as [|z l IH]; intros x q p Hp Hq Hn; simpl in Hp.
  - apply list_elem_of_singleton in Hq as ->. left. congruence.
  - destruct Hp as [Hp1 Hp2]. apply elem_of_cons in Hq as [->|Hq].
    + right. replace p with z by congruence. apply list_elem_of_here.
    + destruct (IH z q p Hp2 Hq Hn) as [->|H]; [now left|right].
      now apply list_elem_of_further.
Qed.

Lemma getNextOffset_level (a : ArenaMmap) (q p : Z) (L : nat) (x : node) :
  arena_nodes a !! q = Some x -> getNextOffset a q L = Ok p ->
  (L < length (node_tower x))%nat.
Proof.
  intros Hx Hn. unfold getNextOffset in Hn.
  destruct (deref a q) as [x'|] eqn:E; [|discriminate].
  apply deref_inv in E as [_ E]. rewrite Hx in E. injection E as <-.
  cbn [rbind] in Hn. destruct (node_tower x !! L) eqn:El; [|discriminate].
  now apply lookup_lt_Some in El.
Qed.

Lemma reachable_in (s : SkiplistMmap) (l0 : list Z) (p : Z) :
  wf s l0 -> reachable s p -> p ∈ l0.
Proof.
  intros Hwf. pose proof Hwf as [Hb Hl]. pose proof (wf_height _ _ Hb) as HH.
  assert (Hstep : forall q L p', q ∈ skl_head s :: level_list (hgt (skl_arena s)) L l0 ->
             (L < maxHeight)%nat -> getNext s q L = Ok p' -> p' <> 0 -> p' ∈ l0).
  { intros q L p' Hq HL Hn Hp'. rewrite getNext_eq in Hn.
    destruct (path_succ _ _ _ _ _ _ _ (Hl L HL) Hq Hn) as [->|Hin]; [contradiction|].
    now apply level_list_elem in Hin as [_ Hin]. }
  induction 1 as [L p Hn Hp|L q p Hq IH Hn Hp].
  - destruct (wf_head _ _ Hb) as (x & Hx & Hxl).
    apply (Hstep (skl_head s) L); [apply list_elem_of_here| |assumption..].
    rewrite getNext_eq in Hn. rewrite <- Hxl. now apply (getNextOffset_level _ _ _ _ _ Hx Hn).
  - destruct (wf_lookup _ _ _ Hwf IH) as (Hq0 & x & kb & Hx & Hxh & Hxl & _).
    assert (HL : (L < hgt (skl_arena s) q)%nat).
    { unfold hgt. rewrite Hx, <- Hxl. rewrite getNext_eq in Hn.
      now apply (getNextOffset_level _ _ _ _ _ Hx Hn). }
    apply (Hstep q L); [|unfold hgt in HL; rewrite Hx in HL; lia|assumption..].
    apply list_elem_of_further, level_list_elem. now split.
Qed.

Lemma in_reachable (s : SkiplistMmap) (l0 : list Z) (p : Z) :
  wf s l0 -> p ∈ l0 -> reachable s p.
Proof.
  intros Hwf Hp. pose proof Hwf as [Hb Hl].
  specialize (Hl 0%nat ltac:(unfold maxHeight; lia)).
  rewrite level_list_zero in Hl by apply (wf_nodes _ _ Hb).
  pose proof (wf_nodes _ _ Hb) as Hn.
  assert (Hgen : forall l x, path (skl_arena s) 0 x l 0 ->
             (x = skl_head s \/ reachable s x) -> Forall (node_ok s) l ->
             forall p, p ∈ l -> reachable s p).
  { clear. induction l as [|z l IH]; intros x Hpath Hx Hok p Hp.
    - now apply elem_of_nil in Hp.
    - simpl in Hpath. destruct Hpath as [Hz Hpath].
      inversion Hok as [|? ? [Hz0 _] Hok']; subst.
      assert (Hrz : reachable s z).
      { destruct Hx as [->|Hx].
        - apply (reach_first s 0); [now rewrite getNext_eq|exact Hz0].
        - apply (reach_next s 0 x); [exact Hx|now rewrite getNext_eq|exact Hz0]. }
      apply elem_of_cons in Hp as [->|Hp]; [exact Hrz|].
      apply (IH z Hpath (or_intror Hrz) Hok' p Hp). }
  apply (Hgen l0 (skl_head s) Hl (or_introl eq_refl) Hn p Hp).
Qed.

Lemma NewAndPuts_wf (arenaSize : Z) (ops : list put_call) (s : SkiplistMmap) :
  NewAndPuts arenaSize ops = Ok s ->
  exists l0, wf s l0 /\ (ops = [] <-> l0 = []).
Proof.
  intros Hrun. unfold NewAndPuts in Hrun.
  destruct (NewSkiplistMmap_spec arenaSize) as [[E _]|(s0 & E & Hwf0 & _)];
    rewrite E in Hrun; [discriminate|]. cbn [rbind] in Hrun.
  destruct (Puts_wf ops s0 [] Hwf0) as [[E' _]|(s' & l0 & E' & Hwf & Hne & Hnil)];
    rewrite E' in Hrun; [discriminate|].
  injection Hrun as <-. exists l0. split; [exact Hwf|]. split.
  - intros H. now destruct (Hnil H).
  - intros H. destruct ops as [|op ops]; [reflexivity|].
    exfalso. now apply Hne.
Qed.

(** C5.  randomHeight returns a height h with 1 <= h <= H_MAX, for every
    sequence of draws; and after any run of Put on a new skiplist the
    height of the skiplist is at least 1 and at most H_MAX, and every node
    reached from the head has a tower height of at least 1 and at most the
    height of the skiplist. *)
Theorem heights_bounded :
  (forall rnd : nat -> Z,
      exists h, randomHeight rnd = Ok h /\ (1 <= h <= maxHeight)%nat) /\
  (forall (arenaSize : Z) (ops : list put_call) (s : SkiplistMmap),
      NewAndPuts arenaSize ops = Ok s ->
      (1 <= skl_height s <= maxHeight)%nat /\
      forall p, reachable s p ->
                (1 <= hgt (skl_arena s) p <= skl_height s)%nat).
Proof.
  split; [exact randomHeight_ok|].
  intros arenaSize ops s Hrun.
  destruct (NewAndPuts_wf arenaSize ops s Hrun) as (l0 & Hwf & _).
  pose proof Hwf as [Hb _]. split; [apply (wf_height _ _ Hb)|].
  intros p Hp. apply node_ok_hgt, (wf_lookup s l0 p Hwf).
  now apply (reachable_in s l0).
Qed.

Lemma heights_bounded_witness :
  (exists h, randomHeight rnd_grow = Ok h /\ (1 <= h <= maxHeight)%nat) /\
  (1 <= skl_height skl_abc <= maxHeight)%nat /\
  reachable skl_abc 136 /\
  (1 <= hgt (skl_arena skl_abc) 136 <= skl_height skl_abc)%nat.
Proof.
  assert (Hr : reachable skl_abc 136).
  { apply (reach_first skl_abc 0); [vm_compute; reflexivity|discriminate]. }
  destruct heights_bounded as [H1 H2].
  destruct (H2 4096 puts_abc skl_abc skl_abc_run) as [Hh Hp].
  split; [apply H1|]. split; [exact Hh|]. split; [exact Hr|]. now apply Hp.
Defined.

(** C6.  After a run of Put on a new skiplist, Empty() returns, and it
    returns true if and only if no node is reached from the head: true
    when no Put was made (the new skiplist), false after any Put. *)
Theorem Empty_iff_no_node (arenaSize : Z) (ops : list put_call) (s : SkiplistMmap) :
  NewAndPuts arenaSize ops = Ok s ->
  exists e : bool,
    Empty s = Ok e /\
    (e = true <-> forall p, ~ reachable s p) /\
    (ops = [] -> e = true) /\
    (ops <> [] -> e = false).
Proof.
  intros Hrun.
  destruct (NewAndPuts_wf arenaSize ops s Hrun) as (l0 & Hwf & Hnil).
  unfold Empty. rewrite (findLast_spec s l0 Hwf). cbn [rbind].
  exists (lastd 0 l0 =? 0). split; [reflexivity|].
  assert (He : (lastd 0 l0 =? 0) = true <-> l0 = []).
  { split.
    - intros E. apply Z.eqb_eq in E. destruct l0 as [|z l0]; [reflexivity|].
      exfalso. assert (Hin : lastd 0 (z :: l0) ∈ z :: l0) by now apply lastd_in.
      destruct (wf_lookup s _ _ Hwf Hin) as [H0 _]. contradiction.
    - intros ->. reflexivity. }
  split; [|split].
  - rewrite He. split.
    + intros -> p Hp. apply (reachable_in s [] p Hwf) in Hp.
      now apply elem_of_nil in Hp.
    + intros Hno. destruct l0 as [|z l0]; [reflexivity|]. exfalso.
      apply (Hno z), (in_reachable s (z :: l0) z Hwf), list_elem_of_here.
  - intros H. apply He, Hnil, H.
  - intros H. destruct (lastd 0 l0 =? 0) eqn:E; [|reflexivity].
    exfalso. apply H, Hnil, He. reflexivity.
Qed.

Lemma Empty_iff_no_node_witness :
  exists e : bool,
    Empty skl_abc = Ok e /\
    (e = true <-> forall p, ~ reachable skl_abc p) /\
    (puts_abc = [] -> e = true) /\
    (puts_abc <> [] -> e = false).
Proof.
  apply (Empty_iff_no_node 4096 puts_abc skl_abc). vm_compute. reflexivity.
Defined.





(** ** Seeking with allowEqual, whatever the order of the stored keys *)

Lemma not_head_lastd (s : SkiplistMmap) (l0 a b : list Z) :
  wf s l0 -> l0 = a ++ b ->
  not_head s (lastd (skl_head s) a) = (lastd 0 a, false).
Proof.
  intros [Hb _] Hl0. unfold not_head. destruct a as [|z a].
  - cbn. now rewrite Z.eqb_refl.
  - assert (Hne : lastd (skl_head s) (z :: a) <> skl_head s).
    { intros E. apply (wf_head_fresh _ _ Hb). rewrite <- E, Hl0.
      apply elem_of_app. left. now apply lastd_in. }
    destruct (Z.eqb_spec (lastd (skl_head s) (z :: a)) (skl_head s)); [contradiction|].
    f_equal. now apply lastd_nonempty.
Qed.

(** The walk of findNear with allowEqual needs no order of the keys to end:
    it ends on a node with the key searched, or between a node with a
    smaller key and a node with a greater key. *)
Lemma findNear_loop_equal (s : SkiplistMmap) (l0 : list Z) (k : key) (less : bool) :
  wf s l0 ->
  forall (fuel level : nat) (a b : list Z),
    l0 = a ++ b ->
    (forall y, last a = Some y ->
       below (skl_arena s) k y /\ (level < hgt (skl_arena s) y)%nat) ->
    (level < maxHeight)%nat ->
    (length b + level < fuel)%nat ->
    exists a' b',
      l0 = a' ++ b' /\
      findNear_loop fuel s k less true (lastd (skl_head s) a) level
      = Ok (near_result s k less true a' b') /\
      ((exists y, head b' = Some y /\ skey (skl_arena s) y = k) \/
       ((forall y, last a' = Some y -> below (skl_arena s) k y) /\
        (forall y, head b' = Some y -> key_lt k (skey (skl_arena s) y)))).
Proof.
  intros Hwf. pose proof Hwf as [Hb _].
  induction fuel as [|fuel IH]; intros level a b Hl0 Hlast HL Hfuel; [lia|].
  assert (Hlast' : forall y, last a = Some y -> (level < hgt (skl_arena s) y)%nat)
    by (intros y Hy; now apply Hlast).
  assert (Hdown : (0 < level)%nat ->
    exists a' b',
      l0 = a' ++ b' /\
      findNear_loop fuel s k less true (lastd (skl_head s) a) (level - 1)
      = Ok (near_result s k less true a' b') /\
      ((exists y, head b' = Some y /\ skey (skl_arena s) y = k) \/
       ((forall y, last a' = Some y -> below (skl_arena s) k y) /\
        (forall y, head b' = Some y -> key_lt k (skey (skl_arena s) y))))).
  { intros Hpos. apply (IH (level - 1)%nat a b Hl0); [|lia..].
    intros y Hy. apply Hlast in Hy as [Hy1 Hy2]. split; [exact Hy1|lia]. }
  assert (Hnb : Forall (node_ok s) b).
  { pose proof (wf_nodes _ _ Hb) as Hn. rewrite Hl0 in Hn.
    now apply Forall_app in Hn as [_ Hn]. }
  cbn [findNear_loop].
  rewrite (getNext_level s l0 a b level Hwf Hl0 HL Hlast'). cbn [rbind].
  destruct (level_list (hgt (skl_arena s)) level b) as [|y t] eqn:El.
  - rewrite hd0_nil. change (0 =? 0) with true. cbv iota.
    destruct (Nat.ltb_spec 0 level) as [Hpos|Hz]; [now apply Hdown|].
    assert (level = 0%nat) as -> by lia.
    rewrite level_list_zero in El by exact Hnb. subst b.
    exists a, []. split; [exact Hl0|]. split; [cbn [near_result]; now destruct less|].
    right. split; [intros y Hy; now apply Hlast|discriminate].
  - rewrite hd0_cons.
    destruct (level_list_head_split _ _ _ _ _ El) as (c & b1 & Hb1 & Hc & Hy & Ht).
    assert (Hl0' : l0 = (a ++ c) ++ y :: b1)
      by (rewrite Hl0, Hb1; now rewrite <- app_assoc).
    destruct (wf_split_ne0 s l0 (a ++ c) b1 y Hwf Hl0') as [Hy0 _].
    destruct (Z.eqb_spec y 0); [contradiction|].
    assert (Hyok : node_ok s y).
    { apply (wf_lookup s l0 y Hwf). rewrite Hl0'. apply elem_of_app. right.
      apply list_elem_of_here. }
    rewrite (node_ok_key _ _ Hyok). cbn [rbind].
    assert (Hc0 : level = 0%nat -> c = []).
    { intros ->. rewrite Hb1 in Hnb. apply Forall_app in Hnb as [Hnc _].
      now rewrite level_list_zero in Hc. }
    destruct (bytes_Compare k (skey (skl_arena s) y)) eqn:E.
    + (* the key of next equals k *)
      exists (a ++ c), (y :: b1). split; [exact Hl0'|].
      split; [cbn [near_result]; now rewrite E|].
      left. exists y. split; [reflexivity|]. symmetry. now apply bytes_Compare_eq.
    + (* the key of next is above k *)
      destruct (Nat.ltb_spec 0 level) as [Hpos|Hz]; [now apply Hdown|].
      assert (level = 0%nat) as Hlz by lia. rewrite (Hc0 Hlz) in *.
      exists a, (y :: b1). split; [now rewrite Hl0, Hb1|].
      split; [cbn [near_result]; rewrite E; now destruct less|].
      right. split; [intros y' Hy'; now apply Hlast|].
      intros ? [= <-]. exact E.
    + (* the key of next is below k: move right *)
      replace y with (lastd (skl_head s) ((a ++ c) ++ [y])) by apply lastd_snoc.
      apply (IH level ((a ++ c) ++ [y]) b1).
      * rewrite Hl0'. now rewrite <- !app_assoc.
      * intros y' Hy'. rewrite last_snoc in Hy'. injection Hy' as <-.
        split; [exact E|exact Hy].
      * exact HL.
      * rewrite Hb1, length_app in Hfuel. cbn [length] in Hfuel. lia.
Qed.

Lemma findNear_equal (s : SkiplistMmap) (l0 : list Z) (k : key) (less : bool) :
  wf s l0 ->
  exists a b,
    l0 = a ++ b /\
    findNear s k less true = Ok (near_result s k less true a b) /\
    ((exists y, head b = Some y /\ skey (skl_arena s) y = k) \/
     ((forall y, last a = Some y -> below (skl_arena s) k y) /\
      (forall y, head b = Some y -> key_lt k (skey (skl_arena s) y)))).
Proof.
  intros Hwf. pose proof Hwf as [Hb _]. pose proof (wf_height _ _ Hb) as HH.
  unfold findNear, getHeight.
  destruct (Nat.eqb_spec (skl_height s) 0); [lia|].
  apply (findNear_loop_equal s l0 k less Hwf _ _ [] l0);
    [reflexivity|discriminate|lia|].
  pose proof (wf_fuel s l0 l0 (skl_height s - 1) Hwf). lia.
Qed.

(** Seek(target) on a well-formed skiplist: the iterator it leaves depends
    on the list and the target only. *)
Lemma Seek_position (s : SkiplistMmap) (l0 : list Z) (it : IteratorMmap) (target : key) :
  wf s l0 ->
  exists a b,
    l0 = a ++ b /\ Seek s it target = Ok (mkIter (hd0 b)) /\
    ((exists y, head b = Some y /\ skey (skl_arena s) y = target) \/
     ((forall y, last a = Some y -> key_lt (skey (skl_arena s) y) target) /\
      (forall y, head b = Some y -> key_lt target (skey (skl_arena s) y)))).
Proof.
  intros Hwf.
  destruct (findNear_equal s l0 target false Hwf) as (a & b & Hl0 & Hfn & Hpos).
  exists a, b. split; [exact Hl0|]. split.
  - unfold Seek. rewrite Hfn.
    destruct Hpos as [(y & Hy & Hk)|[_ Hab]].
    + destruct b as [|y' b]; [discriminate|]. injection Hy as ->.
      cbn [near_result]. rewrite Hk, bytes_Compare_refl. reflexivity.
    + destruct b as [|y b]; [reflexivity|].
      cbn [near_result]. rewrite (Hab y eq_refl). reflexivity.
  - destruct Hpos as [Hpos|[Ha Hab]]; [now left|right].
    split; [|exact Hab]. intros y Hy. now apply below_lt, Ha.
Qed.

(** SeekForPrev(target) on a well-formed skiplist. *)
Lemma SeekForPrev_position (s : SkiplistMmap) (l0 : list Z) (it : IteratorMmap)
    (target : key) :
  wf s l0 ->
  exists a b,
    l0 = a ++ b /\ SeekForPrev s it target = Ok (mkIter (lastd 0 a)) /\
    ((exists y, last a = Some y /\ skey (skl_arena s) y = target) \/
     ((forall y, last a = Some y -> key_lt (skey (skl_arena s) y) target) /\
      (forall y, head b = Some y -> key_lt target (skey (skl_arena s) y)))).
Proof.
  intros Hwf.
  destruct (findNear_equal s l0 target true Hwf) as (a & b & Hl0 & Hfn & Hpos).
  unfold SeekForPrev. rewrite Hfn.
  destruct Hpos as [(y & Hy & Hk)|[Ha Hab]].
  - destruct b as [|y' b]; [discriminate|]. injection Hy as ->.
    exists (a ++ [y]), b. split; [rewrite Hl0; now rewrite <- app_assoc|].
    split.
    + cbn [near_result]. rewrite Hk, bytes_Compare_refl. cbn [rbind].
      now rewrite lastd_snoc.
    + left. exists y. split; [apply last_snoc|exact Hk].
  - exists a, b. split; [exact Hl0|]. split.
    + assert (E : near_result s target true true a b
                  = not_head s (lastd (skl_head s) a)).
      { destruct b as [|y b]; [reflexivity|].
        cbn [near_result]. now rewrite (Hab y eq_refl). }
      rewrite E, (not_head_lastd s l0 a b Hwf Hl0). reflexivity.
    + right. split; [|exact Hab]. intros y Hy. now apply below_lt, Ha.
Qed.

(** C10.  Next and Prev assert Valid(): on an iterator whose node is nil
    both stop with a failed assertion, whatever the skiplist.  Seek,
    SeekForPrev, SeekToFirst and SeekToLast do not look at the position of
    the iterator and reposition it: after any run of Put on a new
    skiplist, with keys of any length, and from any iterator, valid or
    not, SeekToFirst leaves it on the first node of the list and SeekToLast
    on the last one; Seek(target) leaves it on a node that stores the
    target, or else on the node that follows the place where the stored
    keys pass from below the target to above it (nil when that place is
    the end of the list); SeekForPrev(target) leaves it on a node that
    stores the target, or else on the node before that place (nil when
    that place is the front of the list).  In a run of keys shorter than
    65536 bytes the stored keys increase strictly, so that there is one such
    place. *)
Theorem Next_Prev_assert_valid :
  (forall (s : SkiplistMmap) (it : IteratorMmap),
      Valid it = false ->
      Next s it = Err AssertFailed /\ Prev s it = Err AssertFailed) /\
  (forall (arenaSize : Z) (ops : list put_call) (s : SkiplistMmap),
      NewAndPuts arenaSize ops = Ok s ->
      exists l0,
        wf s l0 /\
        (Forall (fun op => short_key (put_key op)) ops -> sorted s l0) /\
        forall (it : IteratorMmap) (target : key),
          SeekToFirst s it = Ok (mkIter (hd0 l0)) /\
          SeekToLast s it = Ok (mkIter (lastd 0 l0)) /\
          (exists a b,
             l0 = a ++ b /\ Seek s it target = Ok (mkIter (hd0 b)) /\
             ((exists y, head b = Some y /\ skey (skl_arena s) y = target) \/
              ((forall y, last a = Some y -> key_lt (skey (skl_arena s) y) target) /\
               (forall y, head b = Some y -> key_lt target (skey (skl_arena s) y))))) /\
          (exists a b,
             l0 = a ++ b /\ SeekForPrev s it target = Ok (mkIter (lastd 0 a)) /\
             ((exists y, last a = Some y /\ skey (skl_arena s) y = target) \/
              ((forall y, last a = Some y -> key_lt (skey (skl_arena s) y) target) /\
               (forall y, head b = Some y -> key_lt target (skey (skl_arena s) y)))))).
Proof.
  split.
  { intros s it Hv. split; [unfold Next|unfold Prev]; now rewrite Hv. }
  intros arenaSize ops s Hrun.
  assert (Hl0 : exists l0, wf s l0 /\
            (Forall (fun op => short_key (put_key op)) ops -> sorted s l0)).
  { assert (Hdec : forall op, Decision (short_key (put_key op)))
      by (intros op; unfold short_key; apply _).
    destruct (Forall_dec (fun op => short_key (put_key op)) ops) as [Hshort|Hlong].
    - destruct (NewAndPuts_good arenaSize ops s Hshort Hrun) as (l0 & Hwf & Hs & _).
      exists l0. now split.
    - destruct (NewAndPuts_wf arenaSize ops s Hrun) as (l0 & Hwf & _).
      exists l0. split; [exact Hwf|]. intros Hshort. contradiction. }
  destruct Hl0 as (l0 & Hwf & Hs).
  exists l0. split; [exact Hwf|]. split; [exact Hs|].
  intros it target.
  split; [now apply SeekToFirst_spec|].
  split; [unfold SeekToLast; now rewrite (findLast_spec s l0 Hwf)|].
  split; [now apply Seek_position|now apply SeekForPrev_position].
Qed.

Lemma Next_Prev_assert_valid_witness :
  Valid (mkIter 0) = false /\
  (Next skl_abc (mkIter 0) = Err AssertFailed /\
   Prev skl_abc (mkIter 0) = Err AssertFailed) /\
  NewAndPuts 4096 puts_abc = Ok skl_abc /\
  exists l0,
    wf skl_abc l0 /\
    (Forall (fun op => short_key (put_key op)) puts_abc -> sorted skl_abc l0) /\
    forall (it : IteratorMmap) (target : key),
      SeekToFirst skl_abc it = Ok (mkIter (hd0 l0)) /\
      SeekToLast skl_abc it = Ok (mkIter (lastd 0 l0)) /\
      (exists a b,
         l0 = a ++ b /\ Seek skl_abc it target = Ok (mkIter (hd0 b)) /\
         ((exists y, head b = Some y /\ skey (skl_arena skl_abc) y = target) \/
          ((forall y, last a = Some y -> key_lt (skey (skl_arena skl_abc) y) target) /\
           (forall y, head b = Some y -> key_lt target (skey (skl_arena skl_abc) y))))) /\
      (exists a b,
         l0 = a ++ b /\ SeekForPrev skl_abc it target = Ok (mkIter (lastd 0 a)) /\
         ((exists y, last a = Some y /\ skey (skl_arena skl_abc) y = target) \/
          ((forall y, last a = Some y -> key_lt (skey (skl_arena skl_abc) y) target) /\
           (forall y, head b = Some y -> key_lt target (skey (skl_arena skl_abc) y))))).
Proof.
  destruct Next_Prev_assert_valid as [H1 H2].
  split; [reflexivity|]. split; [exact (H1 skl_abc (mkIter 0) eq_refl)|].
  split; [vm_compute; reflexivity|].
  apply (H2 4096 puts_abc skl_abc). vm_compute. reflexivity.
Defined.

(* ===================================================================== *)
(** * The scenarios of the specification *)
(* ===================================================================== *)

Lemma scenario_A : (s <- NewAndPuts (2 ^ 20) [] ;; Get s key_a) = Ok 0.
Proof. vm_compute. reflexivity. Qed.

Lemma scenario_B :
  (s <- NewAndPuts (2 ^ 20) [mkPut rnd_grow key_a 7] ;;
   v1 <- Get s key_a ;;
   s <- Put rnd_low s key_a 9 ;;
   v2 <- Get s key_a ;;
   Ok (v1, v2)) = Ok (7, 9).
Proof. vm_compute. reflexivity. Qed.

Lemma scenario_C :
  (s <- NewAndPuts (2 ^ 20) puts_abc ;; iterate s)
  = Ok ([key_a; key_b; key_c], mkIter 0).
Proof. vm_compute. reflexivity. Qed.

Lemma scenario_D :
  (s <- NewAndPuts (2 ^ 20) puts_abc ;;
   it <- Seek s (mkIter 0) key_b ;;
   it <- Next s it ;;
   Key s it) = Ok key_c.
Proof. vm_compute. reflexivity. Qed.

Lemma scenario_E :
  (s <- NewAndPuts (2 ^ 20) puts_abc ;;
   it <- SeekToLast s (mkIter 0) ;;
   it <- Prev s it ;;
   Key s it) = Ok key_b.
Proof. vm_compute. reflexivity. Qed.

Lemma scenario_F :
  (s <- NewAndPuts (2 ^ 20)
          [mkPut rnd_low ["a"; "a"]%byte 1; mkPut rnd_grow ["a"; "b"]%byte 2] ;;
   it <- SeekForPrev s (mkIter 0) ["a"; "c"]%byte ;;
   k <- Key s it ;;
   v <- Value s it ;;
   Ok (k, v)) = Ok (["a"; "b"]%byte, 2).
Proof. vm_compute. reflexivity. Qed.

Lemma scenario_G :
  (s <- NewAndPuts (2 ^ 20) [] ;;
   e1 <- Empty s ;;
   s <- Put rnd_low s ["x"%byte] 1 ;;
   e2 <- Empty s ;;
   Ok (e1, e2)) = Ok (true, false).
Proof. vm_compute. reflexivity. Qed.

(* ===================================================================== *)
(** * Further properties of the code *)
(* ===================================================================== *)

(** ** zeroOut at and beyond the end of the slice *)

Lemma zeroOut_exact (data : list byte) (offset : Z) :
  0 <= offset < Z.of_nat (length data) ->
  Z.of_nat (length data) <= 2 ^ 62 ->
  zeroOut data offset
  = Ok (take (Z.to_nat offset) data
        ++ replicate (length data - Z.to_nat offset) x00).
Proof.
  intros Hoff Hlen. unfold zeroOut.
  replace ((offset <? 0) || (Z.of_nat (length data) <? offset)) with false
    by (symmetry; apply orb_false_iff; lia).
  assert (Hdl : length (drop (Z.to_nat offset) data) = (length data - Z.to_nat offset)%nat)
    by apply length_drop.
  destruct (drop (Z.to_nat offset) data) as [|b rest] eqn:Ed; [simpl in Hdl; lia|].
  rewrite (zeroOut_loop_spec 63 (x00 :: rest) 1); try lia.
  - cbn [rbind]. simpl length in *. now rewrite Hdl.
  - simpl length in *. lia.
  - simpl length in *. change (2 ^ Z.of_nat 63) with (2 ^ 63). lia.
  - simpl. constructor; [reflexivity|constructor].
Qed.

(** X1.  zeroOut stops on an index out of range for every offset that is
    not an index of the slice: a negative one, one beyond the length, and
    the length itself, where data[offset:] is empty and data[0] does not
    exist.  An empty slice has no valid offset at all. *)
Theorem zeroOut_bad_offset (data : list byte) (offset : Z) :
  offset < 0 \/ Z.of_nat (length data) <= offset ->
  zeroOut data offset = Err BadAccess.
Proof.
  intros H. unfold zeroOut.
  destruct ((offset <? 0) || (Z.of_nat (length data) <? offset)) eqn:E; [reflexivity|].
  apply orb_false_iff in E as [E1 E2].
  rewrite drop_ge by lia. reflexivity.
Qed.

Lemma zeroOut_bad_offset_witness :
  zeroOut [x01; x02; x03] 3 = Err BadAccess /\ zeroOut [] 0 = Err BadAccess.
Proof.
  split.
  - apply (zeroOut_bad_offset [x01; x02; x03] 3). right. simpl. lia.
  - apply (zeroOut_bad_offset [] 0). right. simpl. lia.
Defined.

(** X2.  Two calls of zeroOut on the same slice amount to one call at the
    smaller of the two offsets; in particular a second call at the same
    offset changes nothing. *)
Theorem zeroOut_twice (data : list byte) (o1 o2 : Z) :
  0 <= o1 < Z.of_nat (length data) ->
  0 <= o2 < Z.of_nat (length data) ->
  Z.of_nat (length data) <= 2 ^ 62 ->
  (d1 <- zeroOut data o1 ;; zeroOut d1 o2) = zeroOut data (Z.min o1 o2).
Proof.
  intros H1 H2 Hlen.
  rewrite (zeroOut_exact data o1 H1 Hlen). cbn [rbind].
  set (d1 := take (Z.to_nat o1) data ++ replicate (length data - Z.to_nat o1) x00).
  assert (Hl1 : length d1 = length data).
  { unfold d1. rewrite length_app, length_take, length_replicate. lia. }
  rewrite (zeroOut_exact d1 o2) by (rewrite Hl1; lia).
  rewrite (zeroOut_exact data (Z.min o1 o2)) by lia.
  rewrite Hl1. f_equal.
  destruct (Z.le_gt_cases o2 o1) as [Hle|Hgt].
  - rewrite Z.min_r by exact Hle. f_equal.
    unfold d1. rewrite take_app_le by (rewrite length_take; lia).
    rewrite take_take. f_equal. lia.
  - rewrite Z.min_l by lia.
    unfold d1. rewrite take_app_ge by (rewrite length_take; lia).
    rewrite length_take, take_replicate, <- app_assoc, <- replicate_add.
    f_equal. f_equal. lia.
Qed.

Lemma zeroOut_twice_witness :
  (d1 <- zeroOut [x01; x02; x03; x04; x05] 3 ;; zeroOut d1 1)
  = zeroOut [x01; x02; x03; x04; x05] (Z.min 3 1).
Proof.
  apply (zeroOut_twice [x01; x02; x03; x04; x05] 3 1); simpl; lia.
Defined.

(** ** The height randomHeight chooses *)

Lemma randomHeight_loop_exact (rnd : nat -> Z) :
  forall (fuel draws h h' : nat),
    randomHeight_loop fuel rnd draws h = Ok h' ->
    (h <= h')%nat /\
    (forall i, (i < h' - h)%nat -> FastRand rnd (draws + i) <= heightIncrease) /\
    ((h' < maxHeight)%nat -> heightIncrease < FastRand rnd (draws + (h' - h))).
Proof.
  induction fuel as [|fuel IH]; intros draws h h' Hrun; [discriminate|].
  cbn [randomHeight_loop] in Hrun.
  destruct (Nat.ltb_spec h maxHeight) as [Hlt|Hge]; cbn [andb] in Hrun.
  - destruct (Z.leb_spec (FastRand rnd draws) heightIncrease) as [Hle|Hgt].
    + apply IH in Hrun as (Hh & Hsmall & Hstop).
      split; [lia|]. split.
      * intros i Hi. destruct i as [|i]; [now rewrite Nat.add_0_r|].
        replace (draws + S i)%nat with (S draws + i)%nat by lia. apply Hsmall. lia.
      * intros Hm. replace (draws + (h' - h))%nat with (S draws + (h' - S h))%nat by lia.
        now apply Hstop.
    + injection Hrun as <-. split; [lia|]. split; [intros i Hi; lia|].
      intros _. now rewrite Nat.sub_diag, Nat.add_0_r.
  - injection Hrun as <-. split; [lia|]. split; [intros i Hi; lia|]. lia.
Qed.

(** X3.  randomHeight returns one more than the number of leading draws of
    FastRand that are at most heightIncrease, capped at maxHeight: the
    height h it returns has its first h - 1 draws at most heightIncrease,
    and, when h is below maxHeight, the next draw above heightIncrease. *)
Theorem randomHeight_counts_small_draws (rnd : nat -> Z) :
  exists h,
    randomHeight rnd = Ok h /\
    (1 <= h <= maxHeight)%nat /\
    (forall i, (i < h - 1)%nat -> FastRand rnd i <= heightIncrease) /\
    ((h < maxHeight)%nat -> heightIncrease < FastRand rnd (h - 1)).
Proof.
  destruct (randomHeight_ok rnd) as (h & Hrun & Hh).
  exists h. split; [exact Hrun|]. split; [exact Hh|].
  apply randomHeight_loop_exact in Hrun as (_ & Hsmall & Hstop).
  split; [exact Hsmall|exact Hstop].
Qed.

Lemma randomHeight_counts_small_draws_witness :
  exists h,
    randomHeight rnd_grow = Ok h /\
    (1 <= h <= maxHeight)%nat /\
    (forall i, (i < h - 1)%nat -> FastRand rnd_grow i <= heightIncrease) /\
    ((h < maxHeight)%nat -> heightIncrease < FastRand rnd_grow (h - 1)).
Proof.
  exact (randomHeight_counts_small_draws rnd_grow).
Defined.

(** ** The new skiplist *)

Lemma findNear_empty (s : SkiplistMmap) (k : key) (less allowEqual : bool) :
  wf s [] -> findNear s k less allowEqual = Ok (0, false).
Proof.
  intros Hwf.
  rewrite (findNear_at s [] [] [] k less allowEqual Hwf (NewSkiplist_sorted s) eq_refl);
    [|constructor|discriminate].
  cbn [near_result]. destruct less; [|reflexivity].
  unfold not_head. rewrite lastd_nil. now rewrite Z.eqb_refl.
Qed.

(** X4.  The skiplist NewSkiplistMmap returns has height 1 and one
    reference, is Empty, answers 0 to Get of every key, and leaves the
    iterator invalid after every seek; the iteration from SeekToFirst
    visits nothing. *)
Theorem new_skiplist_is_empty (arenaSize : Z) (s : SkiplistMmap) :
  NewSkiplistMmap arenaSize = Ok s ->
  skl_height s = 1%nat /\ skl_ref s = 1 /\
  Empty s = Ok true /\
  (forall k, Get s k = Ok 0) /\
  (forall it k, Seek s it k = Ok (mkIter 0) /\ SeekForPrev s it k = Ok (mkIter 0)) /\
  (forall it, SeekToFirst s it = Ok (mkIter 0) /\ SeekToLast s it = Ok (mkIter 0)) /\
  iterate s = Ok ([], mkIter 0).
Proof.
  intros Hrun.
  assert (Href : skl_ref s = 1).
  { unfold NewSkiplistMmap in Hrun.
    destruct (newNodeMmap (newArenaMmap arenaSize) [] 0 maxHeight) as [[hd a]|];
      [|discriminate].
    cbn [rbind] in Hrun. now injection Hrun as <-. }
  destruct (NewSkiplistMmap_spec arenaSize) as [[E _]|(s0 & E & Hwf & Hh & _)];
    rewrite E in Hrun; [discriminate|]. injection Hrun as ->.
  split; [exact Hh|]. split; [exact Href|]. split.
  { unfold Empty. now rewrite (findLast_spec s [] Hwf). }
  split.
  { intros k. unfold Get. now rewrite (findNear_empty s k false true Hwf). }
  split.
  { intros it k. unfold Seek, SeekForPrev. now rewrite !(findNear_empty s k _ _ Hwf). }
  split.
  { intros it. split; [apply (SeekToFirst_spec s [] it Hwf)|].
    unfold SeekToLast. now rewrite (findLast_spec s [] Hwf). }
  apply (iterate_spec s [] Hwf).
Qed.

Lemma new_skiplist_is_empty_witness :
  skl_height skl_new = 1%nat /\ skl_ref skl_new = 1 /\
  Empty skl_new = Ok true /\
  (forall k, Get skl_new k = Ok 0) /\
  (forall it k, Seek skl_new it k = Ok (mkIter 0) /\
                SeekForPrev skl_new it k = Ok (mkIter 0)) /\
  (forall it, SeekToFirst skl_new it = Ok (mkIter 0) /\
              SeekToLast skl_new it = Ok (mkIter 0)) /\
  iterate skl_new = Ok ([], mkIter 0).
Proof.
  apply (new_skiplist_is_empty 4096 skl_new). vm_compute. reflexivity.
Defined.

(** ** What stops a run of Put *)

(** X5.  A run of Put on a new skiplist, with keys of any length and any
    draws, returns or stops on a full arena: no assertion of Put fails, no
    nil node is read, no compare-and-swap of Put fails and no search runs
    on for ever.  It stops on a full arena only when the arena is smaller
    than 104 bytes for the head plus, for each call, 103 bytes and the
    length of its key. *)
Theorem Puts_stop_only_on_full_arena (arenaSize : Z) (ops : list put_call) :
  (exists s, NewAndPuts arenaSize ops = Ok s) \/
  (NewAndPuts arenaSize ops = Err ArenaFull /\ arenaSize < 104 + puts_space ops).
Proof.
  unfold NewAndPuts. pose proof (puts_space_nonneg ops).
  destruct (NewSkiplistMmap_spec arenaSize)
    as [[-> Hsmall]|(s0 & -> & Hwf0 & _ & Hn0 & Hc0)]; [right; split; [reflexivity|lia]|].
  cbn [rbind].
  destruct (Puts_wf ops s0 [] Hwf0) as [[-> Hcap]|(s & l0 & -> & _)].
  - right. split; [reflexivity|lia].
  - left. now exists s.
Qed.

Lemma Puts_stop_only_on_full_arena_witness :
  (exists s, NewAndPuts 4096 puts_abc = Ok s) \/
  (NewAndPuts 4096 puts_abc = Err ArenaFull /\ 4096 < 104 + puts_space puts_abc).
Proof.
  exact (Puts_stop_only_on_full_arena 4096 puts_abc).
Defined.

(** ** Put and Get on one skiplist *)

(** X6.  On a well-formed, sorted skiplist, when Put(k, v) of a key shorter
    than 65536 bytes returns, Get(k) returns v and Get of every other key
    returns what it returned before the Put. *)
Theorem Put_then_Get (rnd : nat -> Z) (s s' : SkiplistMmap) (l0 : list Z)
    (k : key) (uid : Z) :
  wf s l0 -> sorted s l0 -> short_key k ->
  Put rnd s k uid = Ok s' ->
  Get s' k = Ok uid /\
  forall k', k' <> k -> Get s' k' = Get s k'.
Proof.
  intros Hwf Hs Hshort Hput.
  destruct (Put_sorted rnd s s' l0 k uid Hwf Hs Hshort Hput) as (l1 & Hwf1 & Hs1 & Hlk).
  split.
  - rewrite (Get_spec s' l1 k Hwf1 Hs1), Hlk.
    replace (bytes_Equal k k) with true by (symmetry; now apply bytes_Equal_true).
    reflexivity.
  - intros k' Hne.
    rewrite (Get_spec s' l1 k' Hwf1 Hs1), (Get_spec s l0 k' Hwf Hs), Hlk.
    destruct (bytes_Equal k' k) eqn:E; [|reflexivity].
    apply bytes_Equal_true in E. contradiction.
Qed.

Lemma skl_abcd_run : Put rnd_low skl_abc key_d 4 = Ok skl_abcd.
Proof. vm_compute. reflexivity. Qed.

Lemma Put_then_Get_witness :
  exists l0,
    wf skl_abc l0 /\ sorted skl_abc l0 /\ short_key key_d /\
    Put rnd_low skl_abc key_d 4 = Ok skl_abcd /\
    Get skl_abcd key_d = Ok 4 /\
    forall k', k' <> key_d -> Get skl_abcd k' = Get skl_abc k'.
Proof.
  destruct skl_abc_good as (l0 & Hwf & Hs & _).
  exists l0. split; [exact Hwf|]. split; [exact Hs|].
  split; [reflexivity|]. split; [exact skl_abcd_run|].
  exact (Put_then_Get rnd_low skl_abc skl_abcd l0 key_d 4 Hwf Hs eq_refl skl_abcd_run).
Defined.

(** ** What Put keeps *)

(** X7.  On a well-formed skiplist, with a key of any length, when Put
    returns MemSize has not gone down and has grown by at most 103 bytes
    and the length of the key, the height has not gone down and is at most
    maxHeight, and the head and the capacity of the arena are what they
    were. *)
Theorem Put_grows_only (rnd : nat -> Z) (s s' : SkiplistMmap) (l0 : list Z)
    (k : key) (uid : Z) :
  wf s l0 ->
  Put rnd s k uid = Ok s' ->
  MemSize s <= MemSize s' <= MemSize s + 103 + Z.of_nat (length k) /\
  (skl_height s <= skl_height s' <= maxHeight)%nat /\
  skl_head s' = skl_head s /\
  arena_cap (skl_arena s') = arena_cap (skl_arena s).
Proof.
  intros Hwf Hput. unfold MemSize, arena_size.
  pose proof Hwf as [Hb _]. pose proof (wf_height _ _ Hb) as HH.
  destruct (Put_spec rnd s l0 k uid Hwf)
    as [(y & nd & Hy & Hky & Hnd & Hrun & Hwf')
       |(a & b & Hl0 & Hlast & Hhead &
         [[Hfull _]|(s1 & x & h & Hrun & Hwf' & Hxl & Hold & Hxk & Hxv & Hrh & _ & Hh
                     & Hhd & Hn & Hn' & Hc)])].
  - rewrite Hrun in Hput. injection Hput as <-.
    cbn [with_arena store skl_arena skl_height skl_head arena_n arena_cap].
    repeat split; lia.
  - congruence.
  - rewrite Hrun in Hput. injection Hput as <-.
    destruct Hwf' as [Hb' _]. pose proof (wf_height _ _ Hb').
    repeat split; try lia; assumption.
Qed.

Lemma Put_grows_only_witness :
  exists l0,
    wf skl_abc l0 /\
    Put rnd_low skl_abc key_d 4 = Ok skl_abcd /\
    MemSize skl_abc <= MemSize skl_abcd
    <= MemSize skl_abc + 103 + Z.of_nat (length key_d) /\
    (skl_height skl_abc <= skl_height skl_abcd <= maxHeight)%nat /\
    skl_head skl_abcd = skl_head skl_abc /\
    arena_cap (skl_arena skl_abcd) = arena_cap (skl_arena skl_abc).
Proof.
  destruct skl_abc_good as (l0 & Hwf & _).
  exists l0. split; [exact Hwf|]. split; [exact skl_abcd_run|].
  exact (Put_grows_only rnd_low skl_abc skl_abcd l0 key_d 4 Hwf skl_abcd_run).
Defined.

(** ** Put of a key that is there, again *)

Lemma Put_present_overwrites (rnd : nat -> Z) (s : SkiplistMmap) (l0 : list Z)
    (y : Z) (uid : Z) :
  wf s l0 -> sorted s l0 -> y ∈ l0 ->
  exists nd,
    arena_nodes (skl_arena s) !! y = Some nd /\
    Put rnd s (skey (skl_arena s) y) uid
    = Ok (with_arena s (store (skl_arena s) y (set_value nd uid))).
Proof.
  intros Hwf Hs Hy.
  destruct (Put_spec rnd s l0 (skey (skl_arena s) y) uid Hwf)
    as [(y' & nd & Hy' & Hky' & Hnd & Hrun & _)
       |(a & b & Hl0 & Hlast & Hhead & _)].
  - assert (y' = y) as -> by (apply (key_inj s l0); assumption).
    now exists nd.
  - exfalso.
    assert (Hsab : sorted s (a ++ b)) by now rewrite <- Hl0.
    apply sorted_app in Hsab as (Hsa & Hsb & _).
    assert (Ha : Forall (below (skl_arena s) (skey (skl_arena s) y)) a)
      by now apply sorted_below_last.
    assert (Hb : Forall (fun p => key_lt (skey (skl_arena s) y) (skey (skl_arena s) p)) b)
      by now apply sorted_above_head.
    rewrite Forall_forall in Ha, Hb.
    rewrite Hl0 in Hy. apply elem_of_app in Hy as [Hy|Hy].
    + specialize (Ha y Hy). apply below_lt in Ha. now apply key_lt_irrefl in Ha.
    + specialize (Hb y Hy). now apply key_lt_irrefl in Hb.
Qed.

Lemma lookup_key_at (s : SkiplistMmap) (l : list Z) (y : Z) :
  sorted s l -> y ∈ l ->
  lookup_key (contents s l) (skey (skl_arena s) y) = Some (sval (skl_arena s) y).
Proof.
  intros Hs Hy. destruct (list_elem_of_split _ _ Hy) as (a & b & ->).
  apply sorted_split in Hs as [Ha _].
  rewrite contents_app, lookup_key_app, lookup_key_below.
  - cbn [contents map lookup_key].
    replace (bytes_Equal (skey (skl_arena s) y) (skey (skl_arena s) y)) with true
      by (symmetry; now apply bytes_Equal_true).
    reflexivity.
  - eapply Forall_impl; [exact Ha|]. intros p Hp. now apply below_lt.
Qed.

(** X8.  On a well-formed, sorted skiplist, when Put(k, v) of a key shorter
    than 65536 bytes has returned, a second Put(k, v), whatever its draws,
    returns the very same skiplist: every field of the list, of the arena
    and of every node is what the first Put left. *)
Theorem Put_twice_same (rnd rnd' : nat -> Z) (s s1 : SkiplistMmap) (l0 : list Z)
    (k : key) (uid : Z) :
  wf s l0 -> sorted s l0 -> short_key k ->
  Put rnd s k uid = Ok s1 ->
  Put rnd' s1 k uid = Ok s1.
Proof.
  intros Hwf Hs Hshort Hput.
  destruct (Put_sorted rnd s s1 l0 k uid Hwf Hs Hshort Hput) as (l1 & Hwf1 & Hs1 & Hlk).
  specialize (Hlk k).
  replace (bytes_Equal k k) with true in Hlk by (symmetry; now apply bytes_Equal_true).
  assert (Hin : k ∈ map (skey (skl_arena s1)) l1)
    by (apply lookup_key_keys; rewrite Hlk; eauto).
  apply keys_elem in Hin as (y & Hy & Hky).
  destruct (Put_present_overwrites rnd' s1 l1 y uid Hwf1 Hs1 Hy) as (nd & Hnd & Hrun).
  rewrite Hky in Hrun. rewrite Hrun. f_equal.
  destruct (wf_lookup s1 l1 y Hwf1 Hy) as [Hy0 _].
  assert (Hv : node_value nd = uid).
  { pose proof (lookup_key_at s1 l1 y Hs1 Hy) as Hat. rewrite Hky, Hlk in Hat.
    injection Hat as Hat. unfold sval, getValue in Hat.
    now rewrite (deref_Some _ _ _ Hy0 Hnd) in Hat. }
  assert (Hsame : set_value nd uid = nd) by (destruct nd; cbn in *; now subst).
  rewrite Hsame. unfold with_arena, store. rewrite (insert_id _ _ _ Hnd).
  destruct s1 as [h hd r [n c nodes keys]]. reflexivity.
Qed.

Lemma Put_twice_same_witness :
  exists l0,
    wf skl_abc l0 /\ sorted skl_abc l0 /\ short_key key_d /\
    Put rnd_low skl_abc key_d 4 = Ok skl_abcd /\
    Put rnd_grow skl_abcd key_d 4 = Ok skl_abcd.
Proof.
  destruct skl_abc_good as (l0 & Hwf & Hs & _).
  exists l0. split; [exact Hwf|]. split; [exact Hs|].
  split; [reflexivity|]. split; [exact skl_abcd_run|].
  exact (Put_twice_same rnd_low rnd_grow skl_abc skl_abcd l0 key_d 4 Hwf Hs eq_refl
           skl_abcd_run).
Defined.

(** ** Put and the iteration *)

Lemma keys_ext (a a' : ArenaMmap) (l : list Z) :
  (forall p, p ∈ l -> skey a' p = skey a p) -> map (skey a') l = map (skey a) l.
Proof.
  induction l as [|p l IH]; intros H; [reflexivity|]. cbn [map].
  rewrite (H p) by apply list_elem_of_here.
  rewrite IH; [reflexivity|]. intros q Hq. apply H. now apply list_elem_of_further.
Qed.

Lemma keys_below (s : SkiplistMmap) (l : list Z) (k : key) :
  Forall (fun p => key_lt (skey (skl_arena s) p) k) l ->
  Forall (fun x => key_lt x k) (map (skey (skl_arena s)) l).
Proof. induction 1; cbn [map]; constructor; auto. Qed.

Lemma keys_above (s : SkiplistMmap) (l : list Z) (k : key) :
  Forall (fun p => key_lt k (skey (skl_arena s) p)) l ->
  Forall (key_lt k) (map (skey (skl_arena s)) l).
Proof. induction 1; cbn [map]; constructor; auto. Qed.

(** X9.  On a well-formed, sorted skiplist, Put(k, v) of a key shorter
    than 65536 bytes changes the iteration from SeekToFirst by the key k
    alone: with [ka] the keys below k and [kb] the keys above k, the
    iteration is ka, k, kb after the Put, and it was that already (k was
    there) or ka, kb (k was not) before. *)
Theorem Put_inserts_in_order (rnd : nat -> Z) (s s' : SkiplistMmap) (l0 : list Z)
    (k : key) (uid : Z) :
  wf s l0 -> sorted s l0 -> short_key k ->
  Put rnd s k uid = Ok s' ->
  exists ka kb,
    Forall (fun x => key_lt x k) ka /\ Forall (key_lt k) kb /\
    iterate s' = Ok (ka ++ k :: kb, mkIter 0) /\
    (iterate s = Ok (ka ++ k :: kb, mkIter 0) \/ iterate s = Ok (ka ++ kb, mkIter 0)).
Proof.
  intros Hwf Hs Hshort Hput.
  destruct (Put_spec rnd s l0 k uid Hwf)
    as [(y & nd & Hy & Hky & Hnd & Hrun & Hwf')
       |(a & b & Hl0 & Hlast & Hhead &
         [[Hfull _]|(s1 & x & h & Hrun & Hwf' & Hxl & Hold & Hxk & Hxv & _)])].
  - rewrite Hrun in Hput. injection Hput as <-.
    destruct (list_elem_of_split _ _ Hy) as (a & b & Hl0).
    pose proof Hs as Hs'. rewrite Hl0 in Hs'. apply sorted_split in Hs' as [Ha Hb].
    rewrite Hky in Ha, Hb.
    exists (map (skey (skl_arena s)) a), (map (skey (skl_arena s)) b).
    split; [now apply keys_below|]. split; [now apply keys_above|].
    assert (Hit : iterate s = Ok (map (skey (skl_arena s)) a
                                  ++ k :: map (skey (skl_arena s)) b, mkIter 0)).
    { rewrite (iterate_spec s l0 Hwf), Hl0, map_app. cbn [map]. now rewrite Hky. }
    split; [|now left].
    rewrite (iterate_spec _ l0 Hwf'). cbn [with_arena skl_arena].
    rewrite (keys_ext (skl_arena s))
      by (intros p _; apply (skey_store _ _ _ nd); [exact Hnd|apply same_frame_set_value]).
    rewrite Hl0, map_app. cbn [map]. now rewrite Hky.
  - congruence.
  - rewrite Hrun in Hput. injection Hput as <-.
    rewrite take_uint16_short in Hxk by exact Hshort.
    assert (Hsab : sorted s (a ++ b)) by now rewrite <- Hl0.
    apply sorted_app in Hsab as (Hsa & Hsb & _).
    assert (Ha : Forall (below (skl_arena s) k) a) by now apply sorted_below_last.
    assert (Hb : Forall (fun p => key_lt k (skey (skl_arena s) p)) b)
      by now apply sorted_above_head.
    exists (map (skey (skl_arena s)) a), (map (skey (skl_arena s)) b).
    split.
    { apply keys_below. eapply Forall_impl; [exact Ha|]. intros p Hp. now apply below_lt. }
    split; [now apply keys_above|]. split.
    + rewrite (iterate_spec s1 _ Hwf'), map_app. cbn [map]. rewrite Hxk.
      rewrite !(keys_ext (skl_arena s) (skl_arena s1)); [reflexivity| |];
        intros p Hp; apply Hold; rewrite Hl0; apply elem_of_app; [now right|now left].
    + right. now rewrite (iterate_spec s l0 Hwf), Hl0, map_app.
Qed.

Lemma Put_inserts_in_order_witness :
  exists l0,
    wf skl_abc l0 /\ sorted skl_abc l0 /\ short_key key_d /\
    Put rnd_low skl_abc key_d 4 = Ok skl_abcd /\
    exists ka kb,
      Forall (fun x => key_lt x key_d) ka /\ Forall (key_lt key_d) kb /\
      iterate skl_abcd = Ok (ka ++ key_d :: kb, mkIter 0) /\
      (iterate skl_abc = Ok (ka ++ key_d :: kb, mkIter 0) \/
       iterate skl_abc = Ok (ka ++ kb, mkIter 0)).
Proof.
  destruct skl_abc_good as (l0 & Hwf & Hs & _).
  exists l0. split; [exact Hwf|]. split; [exact Hs|].
  split; [reflexivity|]. split; [exact skl_abcd_run|].
  exact (Put_inserts_in_order rnd_low skl_abc skl_abcd l0 key_d 4 Hwf Hs eq_refl
           skl_abcd_run).
Defined.

(** ** What findNear finds *)

Lemma findNear_cut (s : SkiplistMmap) (l0 : list Z) (k : key) :
  wf s l0 -> sorted s l0 ->
  exists a m b,
    l0 = a ++ m ++ b /\
    Forall (fun p => key_lt (skey (skl_arena s) p) k) a /\
    (m = [] \/ exists y, m = [y] /\ skey (skl_arena s) y = k) /\
    Forall (fun p => key_lt k (skey (skl_arena s) p)) b /\
    findNear s k false true = Ok (hd0 (m ++ b), match m with [] => false | _ => true end) /\
    findNear s k true true = Ok (lastd 0 (a ++ m), match m with [] => false | _ => true end) /\
    findNear s k false false = Ok (hd0 b, false) /\
    findNear s k true false = Ok (lastd 0 a, false).
Proof.
  intros Hwf Hs.
  destruct (findNear_spec s l0 k false true Hwf Hs) as (a & b & Hl0 & Ha & Hb & _).
  assert (Hat : forall less ae,
             findNear s k less ae = Ok (near_result s k less ae a b))
    by (intros; now apply (findNear_at s l0)).
  assert (Ha' : Forall (fun p => key_lt (skey (skl_arena s) p) k) a).
  { eapply Forall_impl; [exact Ha|]. intros p Hp. now apply below_lt. }
  pose proof (not_head_lastd s l0 a b Hwf Hl0) as Hnh.
  destruct b as [|y b].
  - exists a, [], []. split; [now rewrite Hl0|]. split; [exact Ha'|].
    split; [now left|]. split; [constructor|].
    rewrite !Hat. cbn [near_result]. rewrite Hnh, !app_nil_r. now repeat split.
  - specialize (Hb y eq_refl).
    destruct (bytes_Compare k (skey (skl_arena s) y)) eqn:E; [| |contradiction].
    + exists a, [y], b. split; [exact Hl0|]. split; [exact Ha'|].
      apply bytes_Compare_eq in E as Hk.
      split; [right; exists y; now split|]. split.
      { rewrite Hl0 in Hs. apply sorted_split in Hs as [_ Hs]. now rewrite Hk. }
      rewrite !Hat. cbn [near_result]. rewrite E, Hnh, lastd_snoc. now repeat split.
    + exists a, [], (y :: b). split; [exact Hl0|]. split; [exact Ha'|].
      split; [now left|]. split.
      { rewrite Hl0 in Hs. now apply (sorted_above s a b y k). }
      rewrite !Hat. cbn [near_result]. rewrite E, Hnh, app_nil_r. now repeat split.
Qed.

(** X10.  findNear does on a well-formed, sorted skiplist what its comment
    says.  With the nodes cut in [a] (keys below k), [m] (the node of k, if
    there is one) and [b] (keys above k): for less=false it returns the
    leftmost node with key >= k (allowEqual) or > k, for less=true the
    rightmost node with key <= k (allowEqual) or < k, nil when there is
    none, and the flag is true exactly when the node of k is returned
    under allowEqual.  Hence Seek stands on the first key >= target and
    SeekForPrev on the last key <= target. *)
Theorem findNear_contract (s : SkiplistMmap) (l0 : list Z) (k : key) (it : IteratorMmap) :
  wf s l0 -> sorted s l0 ->
  exists a m b,
    l0 = a ++ m ++ b /\
    Forall (fun p => key_lt (skey (skl_arena s) p) k) a /\
    (m = [] \/ exists y, m = [y] /\ skey (skl_arena s) y = k) /\
    Forall (fun p => key_lt k (skey (skl_arena s) p)) b /\
    findNear s k false true = Ok (hd0 (m ++ b), match m with [] => false | _ => true end) /\
    findNear s k true true = Ok (lastd 0 (a ++ m), match m with [] => false | _ => true end) /\
    findNear s k false false = Ok (hd0 b, false) /\
    findNear s k true false = Ok (lastd 0 a, false) /\
    Seek s it k = Ok (mkIter (hd0 (m ++ b))) /\
    SeekForPrev s it k = Ok (mkIter (lastd 0 (a ++ m))).
Proof.
  intros Hwf Hs.
  destruct (findNear_cut s l0 k Hwf Hs)
    as (a & m & b & Hl0 & Ha & Hm & Hb & H1 & H2 & H3 & H4).
  exists a, m, b. unfold Seek, SeekForPrev. rewrite H1, H2, H3, H4.
  now repeat split.
Qed.

Lemma findNear_contract_witness :
  exists l0,
    wf skl_abc l0 /\ sorted skl_abc l0 /\
    exists a m b,
      l0 = a ++ m ++ b /\
      Forall (fun p => key_lt (skey (skl_arena skl_abc) p) key_b) a /\
      (m = [] \/ exists y, m = [y] /\ skey (skl_arena skl_abc) y = key_b) /\
      Forall (fun p => key_lt key_b (skey (skl_arena skl_abc) p)) b /\
      findNear skl_abc key_b false true
      = Ok (hd0 (m ++ b), match m with [] => false | _ => true end) /\
      findNear skl_abc key_b true true
      = Ok (lastd 0 (a ++ m), match m with [] => false | _ => true end) /\
      findNear skl_abc key_b false false = Ok (hd0 b, false) /\
      findNear skl_abc key_b true false = Ok (lastd 0 a, false) /\
      Seek skl_abc (mkIter 0) key_b = Ok (mkIter (hd0 (m ++ b))) /\
      SeekForPrev skl_abc (mkIter 0) key_b = Ok (mkIter (lastd 0 (a ++ m))).
Proof.
  destruct skl_abc_good as (l0 & Hwf & Hs & _).
  exists l0. split; [exact Hwf|]. split; [exact Hs|].
  exact (findNear_contract skl_abc l0 key_b (mkIter 0) Hwf Hs).
Defined.

(** X11.  The find functions never return the head: on a well-formed,
    sorted skiplist the node findNear returns, in each of its four modes,
    and the node findLast returns are nil or a node of the list, and
    neither is the head. *)
Theorem find_never_returns_head (s : SkiplistMmap) (l0 : list Z) (k : key)
    (less allowEqual : bool) :
  wf s l0 -> sorted s l0 ->
  exists n e last,
    findNear s k less allowEqual = Ok (n, e) /\
    findLast s = Ok last /\
    n <> skl_head s /\ last <> skl_head s /\
    (n = 0 \/ n ∈ l0) /\ (last = 0 \/ last ∈ l0).
Proof.
  intros Hwf Hs. pose proof Hwf as [Hbase _].
  assert (Hok : forall n, n = 0 \/ n ∈ l0 -> n <> skl_head s).
  { intros n [->|Hin]; [apply not_eq_sym, (wf_head_ne _ _ Hbase)|].
    intros ->. now apply (wf_head_fresh _ _ Hbase). }
  assert (Hl : forall a, (forall p, p ∈ a -> p ∈ l0) -> lastd 0 a = 0 \/ lastd 0 a ∈ l0).
  { intros a Hsub. destruct (lastd_elem 0 a) as [->|H]; [now left|right; auto]. }
  assert (Hh : forall b, (forall p, p ∈ b -> p ∈ l0) -> hd0 b = 0 \/ hd0 b ∈ l0).
  { intros b Hsub. destruct (hd0_elem b) as [->|H]; [now left|right; auto]. }
  destruct (findNear_cut s l0 k Hwf Hs)
    as (a & m & b & Hl0 & _ & _ & _ & H1 & H2 & H3 & H4).
  assert (Hsa : forall p, p ∈ a -> p ∈ l0)
    by (intros p Hp; rewrite Hl0; apply elem_of_app; now left).
  assert (Hsam : forall p, p ∈ a ++ m -> p ∈ l0).
  { intros p Hp. rewrite Hl0, app_assoc. apply elem_of_app. now left. }
  assert (Hsmb : forall p, p ∈ m ++ b -> p ∈ l0)
    by (intros p Hp; rewrite Hl0; apply elem_of_app; now right).
  assert (Hsb : forall p, p ∈ b -> p ∈ l0).
  { intros p Hp. apply Hsmb. apply elem_of_app. now right. }
  assert (Hlast : lastd 0 l0 = 0 \/ lastd 0 l0 ∈ l0) by (apply Hl; auto).
  destruct less, allowEqual.
  - eexists _, _, _. split; [exact H2|]. split; [apply (findLast_spec s l0 Hwf)|].
    split; [apply Hok, Hl, Hsam|]. split; [now apply Hok|]. split; [apply Hl, Hsam|exact Hlast].
  - eexists _, _, _. split; [exact H4|]. split; [apply (findLast_spec s l0 Hwf)|].
    split; [apply Hok, Hl, Hsa|]. split; [now apply Hok|]. split; [apply Hl, Hsa|exact Hlast].
  - eexists _, _, _. split; [exact H1|]. split; [apply (findLast_spec s l0 Hwf)|].
    split; [apply Hok, Hh, Hsmb|]. split; [now apply Hok|]. split; [apply Hh, Hsmb|exact Hlast].
  - eexists _, _, _. split; [exact H3|]. split; [apply (findLast_spec s l0 Hwf)|].
    split; [apply Hok, Hh, Hsb|]. split; [now apply Hok|]. split; [apply Hh, Hsb|exact Hlast].
Qed.

Lemma find_never_returns_head_witness :
  exists l0,
    wf skl_abc l0 /\ sorted skl_abc l0 /\
    exists n e last,
      findNear skl_abc key_a true false = Ok (n, e) /\
      findLast skl_abc = Ok last /\
      n <> skl_head skl_abc /\ last <> skl_head skl_abc /\
      (n = 0 \/ n ∈ l0) /\ (last = 0 \/ last ∈ l0).
Proof.
  destruct skl_abc_good as (l0 & Hwf & Hs & _).
  exists l0. split; [exact Hwf|]. split; [exact Hs|].
  exact (find_never_returns_head skl_abc l0 key_a true false Hwf Hs).
Defined.

(** ** Stepping an iterator *)

Lemma Prev_node (s : SkiplistMmap) (l0 a b : list Z) (y : Z) :
  wf s l0 -> sorted s l0 -> l0 = a ++ y :: b ->
  Prev s (mkIter y) = Ok (mkIter (lastd 0 a)).
Proof.
  intros Hwf Hs Hl0. destruct (wf_split_ne0 s l0 a b y Hwf Hl0) as [Hy0 _].
  assert (Hyok : node_ok s y).
  { apply (wf_lookup s l0 y Hwf). rewrite Hl0. apply elem_of_app. right.
    apply list_elem_of_here. }
  unfold Prev, Valid. cbn [it_n]. destruct (Z.eqb_spec y 0); [contradiction|].
  cbn [negb AssertTrue rbind]. rewrite (Key_node s y Hyok). cbn [rbind].
  now rewrite (findNear_present s l0 a b y true false Hwf Hs Hl0).
Qed.

(** X12.  On a well-formed, sorted skiplist, from an iterator that stands
    on a node, Next moves to the node of the next greater key and Prev to
    the node of the next smaller key, and each leaves the iterator invalid
    when there is no such node.  Next followed by Prev comes back to the
    node unless it was the last one, and Prev followed by Next comes back
    to it unless it was the first one. *)
Theorem Next_Prev_inverse (s : SkiplistMmap) (l0 a b : list Z) (y : Z) :
  wf s l0 -> sorted s l0 -> l0 = a ++ y :: b ->
  Next s (mkIter y) = Ok (mkIter (hd0 b)) /\
  Prev s (mkIter y) = Ok (mkIter (lastd 0 a)) /\
  (b = [] -> Valid (mkIter (hd0 b)) = false) /\
  (a = [] -> Valid (mkIter (lastd 0 a)) = false) /\
  (b <> [] -> (it <- Next s (mkIter y) ;; Prev s it) = Ok (mkIter y)) /\
  (a <> [] -> (it <- Prev s (mkIter y) ;; Next s it) = Ok (mkIter y)).
Proof.
  intros Hwf Hs Hl0.
  rewrite (Next_node s l0 a b y Hwf Hl0), (Prev_node s l0 a b y Hwf Hs Hl0).
  split; [reflexivity|]. split; [reflexivity|].
  split; [now intros ->|]. split; [now intros ->|]. split.
  - intros Hb. destruct b as [|z b]; [contradiction|]. cbn [rbind]. rewrite hd0_cons.
    rewrite (Prev_node s l0 (a ++ [y]) b z Hwf Hs) by (rewrite Hl0; now rewrite <- app_assoc).
    now rewrite lastd_snoc.
  - intros Ha. destruct (last a) as [w|] eqn:E; [|apply last_None in E; contradiction].
    apply last_Some in E as [a' ->]. cbn [rbind]. rewrite lastd_snoc.
    now rewrite (Next_node s l0 a' (y :: b) w Hwf)
      by (rewrite Hl0; now rewrite <- app_assoc).
Qed.

Lemma Next_Prev_inverse_witness :
  exists l0 a y b,
    wf skl_abc l0 /\ sorted skl_abc l0 /\ l0 = a ++ y :: b /\
    Next skl_abc (mkIter y) = Ok (mkIter (hd0 b)) /\
    Prev skl_abc (mkIter y) = Ok (mkIter (lastd 0 a)) /\
    (b = [] -> Valid (mkIter (hd0 b)) = false) /\
    (a = [] -> Valid (mkIter (lastd 0 a)) = false) /\
    (b <> [] -> (it <- Next skl_abc (mkIter y) ;; Prev skl_abc it) = Ok (mkIter y)) /\
    (a <> [] -> (it <- Prev skl_abc (mkIter y) ;; Next skl_abc it) = Ok (mkIter y)).
Proof.
  destruct skl_abc_good as (l0 & Hwf & Hs & Hk).
  assert (Hin : key_b ∈ map (skey (skl_arena skl_abc)) l0).
  { apply Hk. exists (mkPut rnd_grow key_b 2). split; [|reflexivity].
    apply list_elem_of_here. }
  apply keys_elem in Hin as (y & Hy & _).
  destruct (list_elem_of_split _ _ Hy) as (a & b & Hl0).
  exists l0, a, y, b. split; [exact Hwf|]. split; [exact Hs|]. split; [exact Hl0|].
  exact (Next_Prev_inverse skl_abc l0 a b y Hwf Hs Hl0).
Defined.

(** ** The two ends of the list *)

Lemma sorted_first_least (s : SkiplistMmap) (y : Z) (l : list Z) :
  sorted s (y :: l) ->
  Forall (fun x => x = skey (skl_arena s) y \/ key_lt (skey (skl_arena s) y) x)
         (map (skey (skl_arena s)) (y :: l)).
Proof.
  intros Hs. apply sorted_cons in Hs as [Hy _]. cbn [map].
  constructor; [now left|]. induction Hy; cbn [map]; constructor; auto.
Qed.

Lemma sorted_last_greatest (s : SkiplistMmap) (y : Z) (l : list Z) :
  sorted s (l ++ [y]) ->
  Forall (fun x => x = skey (skl_arena s) y \/ key_lt x (skey (skl_arena s) y))
         (map (skey (skl_arena s)) (l ++ [y])).
Proof.
  intros Hs. apply sorted_split in Hs as [Hl _]. rewrite map_app. cbn [map].
  apply Forall_app. split; [|constructor; [now left|constructor]].
  induction Hl; cbn [map]; constructor; auto.
Qed.

(** X13.  On a well-formed, sorted skiplist SeekToFirst and SeekToLast
    leave the iterator valid if and only if the list is not empty, as
    their comments say; SeekToFirst then stands on the least key of the
    iteration and SeekToLast on the greatest. *)
Theorem SeekToFirst_SeekToLast_ends (s : SkiplistMmap) (l0 : list Z) (it : IteratorMmap) :
  wf s l0 -> sorted s l0 ->
  exists first last e ks,
    SeekToFirst s it = Ok first /\ SeekToLast s it = Ok last /\
    Empty s = Ok e /\ iterate s = Ok (ks, mkIter 0) /\
    Valid first = negb e /\ Valid last = negb e /\
    (e = true <-> ks = []) /\
    (e = false ->
     exists k1 k2,
       Key s first = Ok k1 /\ Key s last = Ok k2 /\
       head ks = Some k1 /\ list.last ks = Some k2 /\
       Forall (fun x => x = k1 \/ key_lt k1 x) ks /\
       Forall (fun x => x = k2 \/ key_lt x k2) ks).
Proof.
  intros Hwf Hs.
  exists (mkIter (hd0 l0)), (mkIter (lastd 0 l0)), (lastd 0 l0 =? 0),
         (map (skey (skl_arena s)) l0).
  split; [apply (SeekToFirst_spec s l0 it Hwf)|]. split.
  { unfold SeekToLast. now rewrite (findLast_spec s l0 Hwf). }
  split; [unfold Empty; now rewrite (findLast_spec s l0 Hwf)|].
  split; [apply (iterate_spec s l0 Hwf)|].
  destruct l0 as [|y l].
  { cbn. repeat split; try reflexivity. discriminate. }
  assert (Hy : node_ok s y) by (apply (wf_lookup s _ y Hwf), list_elem_of_here).
  assert (Hlast : lastd 0 (y :: l) ∈ y :: l) by now apply lastd_in.
  assert (Hz : node_ok s (lastd 0 (y :: l))) by now apply (wf_lookup s _ _ Hwf).
  assert (Hy0 : y <> 0) by apply Hy.
  assert (Hz0 : lastd 0 (y :: l) <> 0) by apply Hz.
  rewrite hd0_cons. unfold Valid. cbn [it_n].
  destruct (Z.eqb_spec y 0); [contradiction|].
  destruct (Z.eqb_spec (lastd 0 (y :: l)) 0); [contradiction|].
  split; [reflexivity|]. split; [reflexivity|].
  split; [split; discriminate|]. intros _.
  exists (skey (skl_arena s) y), (skey (skl_arena s) (lastd 0 (y :: l))).
  split; [now apply Key_node|]. split; [now apply Key_node|].
  split; [reflexivity|].
  destruct (list.last (y :: l)) as [w|] eqn:E; [|now apply last_None in E].
  apply last_Some in E as [l' E]. rewrite E in *. rewrite lastd_snoc.
  split; [rewrite map_app; cbn [map]; now rewrite last_snoc|].
  split; [rewrite <- E in *; now apply sorted_first_least|].
  now apply sorted_last_greatest.
Qed.

Lemma SeekToFirst_SeekToLast_ends_witness :
  exists l0,
    wf skl_abc l0 /\ sorted skl_abc l0 /\
    exists first last e ks,
      SeekToFirst skl_abc (mkIter 0) = Ok first /\ SeekToLast skl_abc (mkIter 0) = Ok last /\
      Empty skl_abc = Ok e /\ iterate skl_abc = Ok (ks, mkIter 0) /\
      Valid first = negb e /\ Valid last = negb e /\
      (e = true <-> ks = []) /\
      (e = false ->
       exists k1 k2,
         Key skl_abc first = Ok k1 /\ Key skl_abc last = Ok k2 /\
         head ks = Some k1 /\ list.last ks = Some k2 /\
         Forall (fun x => x = k1 \/ key_lt k1 x) ks /\
         Forall (fun x => x = k2 \/ key_lt x k2) ks).
Proof.
  destruct skl_abc_good as (l0 & Hwf & Hs & _).
  exists l0. split; [exact Hwf|]. split; [exact Hs|].
  exact (SeekToFirst_SeekToLast_ends skl_abc l0 (mkIter 0) Hwf Hs).
Defined.

(** ** The unidirectional iterator *)

Lemma wf_IncrRef (s : SkiplistMmap) (l0 : list Z) : wf s l0 -> wf (IncrRef s) l0.
Proof.
  intros [Hb Hl]. split; [|exact Hl].
  destruct Hb as [H1 H2 H3 H4 H5 H6 H7 H8 H9 H10]. constructor; assumption.
Qed.

Lemma Value_node (s : SkiplistMmap) (y : Z) :
  node_ok s y -> Value s (mkIter y) = Ok (sval (skl_arena s) y).
Proof.
  intros (Hy0 & x & kb & Hx & _). unfold Value, sval, getValue. cbn [it_n].
  now rewrite (deref_Some _ _ _ Hy0 Hx).
Qed.

Lemma uni_walk_forward (s : SkiplistMmap) (l0 : list Z) :
  wf s l0 ->
  forall (fuel : nat) (a b : list Z),
    l0 = a ++ b -> (length b < fuel)%nat ->
    uni_walk fuel s (mkUni (mkIter (hd0 b)) false) = Ok (contents s b).
Proof.
  intros Hwf. induction fuel as [|fuel IH]; intros a b Hl0 Hfuel; [lia|].
  destruct b as [|y b]; [reflexivity|].
  rewrite hd0_cons. cbn [uni_walk].
  destruct (wf_split_ne0 s l0 a b y Hwf Hl0) as [Hy0 _].
  assert (Hyok : node_ok s y).
  { apply (wf_lookup s l0 y Hwf). rewrite Hl0. apply elem_of_app. right.
    apply list_elem_of_here. }
  unfold UniValid, UniKey, UniValue, UniNext. cbn [uni_iter uni_reversed negb].
  unfold Valid at 1. cbn [it_n]. destruct (Z.eqb_spec y 0); [contradiction|].
  cbn [negb]. rewrite (Key_node s y Hyok), (Value_node s y Hyok). cbn [rbind].
  rewrite (Next_node s l0 a b y Hwf Hl0). cbn [rbind]. unfold with_iter.
  cbn [uni_reversed].
  rewrite (IH (a ++ [y]) b); [reflexivity| |cbn [length] in Hfuel; lia].
  rewrite Hl0. now rewrite <- app_assoc.
Qed.

Lemma uni_walk_backward (s : SkiplistMmap) (l0 : list Z) :
  wf s l0 -> sorted s l0 ->
  forall (fuel : nat) (a b : list Z),
    l0 = a ++ b -> (length a < fuel)%nat ->
    uni_walk fuel s (mkUni (mkIter (lastd 0 a)) true) = Ok (reverse (contents s a)).
Proof.
  intros Hwf Hs. induction fuel as [|fuel IH]; intros a b Hl0 Hfuel; [lia|].
  destruct (last a) as [y|] eqn:E.
  - apply last_Some in E as [a' ->]. rewrite lastd_snoc. cbn [uni_walk].
    assert (Hl0' : l0 = a' ++ y :: b) by (rewrite Hl0; now rewrite <- app_assoc).
    destruct (wf_split_ne0 s l0 a' b y Hwf Hl0') as [Hy0 _].
    assert (Hyok : node_ok s y).
    { apply (wf_lookup s l0 y Hwf). rewrite Hl0'. apply elem_of_app. right.
      apply list_elem_of_here. }
    unfold UniValid, UniKey, UniValue, UniNext. cbn [uni_iter uni_reversed negb].
    unfold Valid at 1. cbn [it_n]. destruct (Z.eqb_spec y 0); [contradiction|].
    cbn [negb]. rewrite (Key_node s y Hyok), (Value_node s y Hyok). cbn [rbind].
    rewrite (Prev_node s l0 a' b y Hwf Hs Hl0'). cbn [rbind]. unfold with_iter.
    cbn [uni_reversed].
    rewrite (IH a' (y :: b) Hl0') by (rewrite length_app in Hfuel; cbn in Hfuel; lia).
    cbn [rbind]. rewrite contents_app. cbn [contents map].
    now rewrite reverse_snoc.
  - apply last_None in E as ->. reflexivity.
Qed.

Lemma uni_iterate_spec (s : SkiplistMmap) (l0 : list Z) :
  wf s l0 -> sorted s l0 ->
  uni_iterate s false = Ok (contents s l0) /\
  uni_iterate s true = Ok (reverse (contents s l0)).
Proof.
  intros Hwf Hs. pose proof (wf_IncrRef s l0 Hwf) as Hwf'.
  assert (Hs' : sorted (IncrRef s) l0) by exact Hs.
  unfold uni_iterate, NewUniIterator, NewIterator, UniRewind.
  cbn [uni_reversed uni_iter negb]. split.
  - rewrite (SeekToFirst_spec (IncrRef s) l0 _ Hwf'). cbn [rbind]. unfold with_iter.
    cbn [uni_reversed].
    rewrite (uni_walk_forward (IncrRef s) l0 Hwf' _ [] l0 eq_refl); [reflexivity|].
    pose proof (wf_fuel _ l0 l0 0 Hwf'). lia.
  - unfold SeekToLast. rewrite (findLast_spec (IncrRef s) l0 Hwf'). cbn [rbind].
    unfold with_iter. cbn [uni_reversed].
    rewrite (uni_walk_backward (IncrRef s) l0 Hwf' Hs' _ l0 []);
      [reflexivity|now rewrite app_nil_r|].
    pose proof (wf_fuel _ l0 l0 0 Hwf'). lia.
Qed.

(** X14.  On a well-formed, sorted skiplist Get agrees with the iteration:
    the forward walk of a new unidirectional iterator returns, and Get(k)
    is the value the walk shows next to the key k, and 0 when the walk
    does not show k. *)
Theorem Get_agrees_with_iteration (s : SkiplistMmap) (l0 : list Z) :
  wf s l0 -> sorted s l0 ->
  exists kvs,
    uni_iterate s false = Ok kvs /\
    forall k, Get s k = Ok (default 0 (lookup_key kvs k)).
Proof.
  intros Hwf Hs. exists (contents s l0).
  split; [apply (uni_iterate_spec s l0 Hwf Hs)|].
  intros k. apply (Get_spec s l0 k Hwf Hs).
Qed.

Lemma Get_agrees_with_iteration_witness :
  exists l0,
    wf skl_abc l0 /\ sorted skl_abc l0 /\
    exists kvs,
      uni_iterate skl_abc false = Ok kvs /\
      forall k, Get skl_abc k = Ok (default 0 (lookup_key kvs k)).
Proof.
  destruct skl_abc_good as (l0 & Hwf & Hs & _).
  exists l0. split; [exact Hwf|]. split; [exact Hs|].
  exact (Get_agrees_with_iteration skl_abc l0 Hwf Hs).
Defined.

(** X15.  On a well-formed, sorted skiplist the reversed unidirectional
    iterator, rewound and stepped to the end, shows the keys and values of
    the forward one in the opposite order; the forward one shows the keys
    of the iteration from SeekToFirst, in strictly increasing order. *)
Theorem reversed_iteration_mirrors (s : SkiplistMmap) (l0 : list Z) :
  wf s l0 -> sorted s l0 ->
  exists kvs,
    uni_iterate s false = Ok kvs /\
    uni_iterate s true = Ok (reverse kvs) /\
    iterate s = Ok (map fst kvs, mkIter 0) /\
    increasing (map fst kvs).
Proof.
  intros Hwf Hs. exists (contents s l0).
  destruct (uni_iterate_spec s l0 Hwf Hs) as [-> ->].
  split; [reflexivity|]. split; [reflexivity|].
  assert (Hk : map fst (contents s l0) = map (skey (skl_arena s)) l0).
  { unfold contents. clear. induction l0 as [|p l IH]; [reflexivity|].
    cbn [map fst]. now rewrite IH. }
  rewrite Hk. split; [apply (iterate_spec s l0 Hwf)|exact Hs].
Qed.

Lemma reversed_iteration_mirrors_witness :
  exists l0,
    wf skl_abc l0 /\ sorted skl_abc l0 /\
    exists kvs,
      uni_iterate skl_abc false = Ok kvs /\
      uni_iterate skl_abc true = Ok (reverse kvs) /\
      iterate skl_abc = Ok (map fst kvs, mkIter 0) /\
      increasing (map fst kvs).
Proof.
  destruct skl_abc_good as (l0 & Hwf & Hs & _).
  exists l0. split; [exact Hwf|]. split; [exact Hs|].
  exact (reversed_iteration_mirrors skl_abc l0 Hwf Hs).
Defined.

(** ** Reference counts *)

Lemma wrap_int32_small (z : Z) : - 2 ^ 31 <= z < 2 ^ 31 -> wrap_int32 z = z.
Proof. intros H. unfold wrap_int32. rewrite Z.mod_small; lia. Qed.

Lemma open_iterators_ref (n : nat) :
  forall s : SkiplistMmap,
    - 2 ^ 31 <= skl_ref s -> skl_ref s + Z.of_nat n < 2 ^ 31 ->
    open_iterators n s
    = mkSkl (skl_height s) (skl_head s) (skl_ref s + Z.of_nat n) (skl_arena s).
Proof.
  induction n as [|n IH]; intros s Hlo Hhi.
  - cbn [open_iterators]. rewrite Z.add_0_r. now destruct s.
  - cbn [open_iterators NewIterator fst]. rewrite IH; unfold IncrRef;
      cbn [skl_height skl_head skl_ref skl_arena];
      rewrite wrap_int32_small by lia; [f_equal|..]; lia.
Qed.

Lemma close_iterators_live (h : nat) (hd : Z) (a : ArenaMmap) (n : nat) :
  forall r : Z,
    Z.of_nat n < r < 2 ^ 31 ->
    close_iterators n (mkSkl h hd r a) = Live (mkSkl h hd (r - Z.of_nat n) a).
Proof.
  induction n as [|n IH]; intros r Hr.
  - cbn [close_iterators]. now rewrite Z.sub_0_r.
  - cbn [close_iterators]. unfold Close, DecrRef. cbn [skl_ref skl_height skl_head skl_arena].
    rewrite wrap_int32_small by lia.
    destruct (Z.ltb_spec 0 (r - 1)); [|lia].
    rewrite IH by lia. do 2 f_equal. lia.
Qed.

Lemma close_iterators_release (h : nat) (hd : Z) (a : ArenaMmap) (n : nat) :
  Z.of_nat n + 1 < 2 ^ 31 ->
  close_iterators (S n) (mkSkl h hd (Z.of_nat n + 1) a) = Released h 0.
Proof.
  induction n as [|n IH]; intros Hn.
  - reflexivity.
  - cbn [close_iterators]. unfold Close, DecrRef at 1.
    cbn [skl_ref skl_height skl_head skl_arena].
    rewrite wrap_int32_small by lia.
    destruct (Z.ltb_spec 0 (Z.of_nat (S n) + 1 - 1)); [|lia].
    replace (Z.of_nat (S n) + 1 - 1) with (Z.of_nat n + 1) by lia.
    apply IH. lia.
Qed.

(** X16.  Creating iterators and closing them gives the skiplist back: on
    a skiplist with a positive reference count, n calls of NewIterator
    followed by n calls of Close leave the skiplist live and equal to what
    it was, as long as the count stays below 2^31. *)
Theorem iterators_open_close (n : nat) (s : SkiplistMmap) :
  0 < skl_ref s -> skl_ref s + Z.of_nat n < 2 ^ 31 ->
  close_iterators n (open_iterators n s) = Live s.
Proof.
  intros Hlo Hhi. rewrite open_iterators_ref by lia.
  rewrite close_iterators_live by lia.
  destruct s as [h hd r a]. cbn. do 2 f_equal. lia.
Qed.

Lemma iterators_open_close_witness :
  0 < skl_ref skl_abc /\ skl_ref skl_abc + Z.of_nat 3 < 2 ^ 31 /\
  close_iterators 3 (open_iterators 3 skl_abc) = Live skl_abc.
Proof.
  split; [reflexivity|]. split; [reflexivity|].
  apply (iterators_open_close 3 skl_abc); reflexivity.
Defined.

Lemma NewSkiplistMmap_ref (arenaSize : Z) (s : SkiplistMmap) :
  NewSkiplistMmap arenaSize = Ok s -> skl_ref s = 1 /\ skl_height s = 1%nat.
Proof.
  unfold NewSkiplistMmap.
  destruct (newNodeMmap (newArenaMmap arenaSize) [] 0 maxHeight) as [[hd a]|];
    [|discriminate].
  cbn [rbind]. now intros [= <-].
Qed.

(** X17.  The arena is released when the last reference is dropped, not
    before: a new skiplist on which n iterators were created stays live
    through n calls of DecrRef, by Close or by the owner, with the count
    going down by one each time, and the call after those releases it,
    leaving the count at 0. *)
Theorem release_on_last_reference (arenaSize : Z) (s : SkiplistMmap) (n : nat) :
  NewSkiplistMmap arenaSize = Ok s ->
  Z.of_nat n + 1 < 2 ^ 31 ->
  (forall j, (j <= n)%nat ->
     close_iterators j (open_iterators n s)
     = Live (mkSkl (skl_height s) (skl_head s) (1 + Z.of_nat n - Z.of_nat j) (skl_arena s))) /\
  close_iterators (S n) (open_iterators n s) = Released 1 0.
Proof.
  intros Hnew Hn. destruct (NewSkiplistMmap_ref arenaSize s Hnew) as [Href Hh].
  rewrite open_iterators_ref by lia. rewrite Href. split.
  - intros j Hj. now rewrite close_iterators_live by lia.
  - rewrite Hh. replace (1 + Z.of_nat n) with (Z.of_nat n + 1) by lia.
    now apply close_iterators_release.
Qed.

Lemma release_on_last_reference_witness :
  (forall j, (j <= 2)%nat ->
     close_iterators j (open_iterators 2 skl_new)
     = Live (mkSkl (skl_height skl_new) (skl_head skl_new)
               (1 + Z.of_nat 2 - Z.of_nat j) (skl_arena skl_new))) /\
  close_iterators 3 (open_iterators 2 skl_new) = Released 1 0.
Proof.
  apply (release_on_last_reference 4096 skl_new 2).
  - vm_compute. reflexivity.
  - reflexivity.
Defined.

(** ** What findSpliceForLevel finds *)

(** X18.  findSpliceForLevel does on a well-formed skiplist, searching a
    level from the head, what its comment says: it returns
    (outBefore, outAfter) with outBefore = outAfter a node whose key is the
    key searched, or else with outBefore the head or a node of a smaller
    key, outAfter nil or a node of a greater key, and outAfter the
    successor of outBefore at that level. *)
Theorem findSpliceForLevel_contract (s : SkiplistMmap) (l0 : list Z) (k : key) (L : nat) :
  wf s l0 -> (L < maxHeight)%nat ->
  exists p n,
    findSpliceForLevel s k (skl_head s) L = Ok (p, n) /\
    ((p = n /\ p ∈ l0 /\ skey (skl_arena s) p = k) \/
     (p <> n /\
      (p = skl_head s \/ (p ∈ l0 /\ key_lt (skey (skl_arena s) p) k)) /\
      (n = 0 \/ (n ∈ l0 /\ key_lt k (skey (skl_arena s) n))) /\
      getNext s p L = Ok n)).
Proof.
  intros Hwf HL. pose proof Hwf as [Hb Hl]. specialize (Hl L HL).
  set (lv := level_list (hgt (skl_arena s)) L l0) in *.
  assert (Hsub : forall q, q ∈ lv -> q ∈ l0)
    by (intros q Hq; now apply level_list_elem in Hq as [_ Hq]).
  assert (Hok : Forall (node_ok s) lv)
    by (apply level_list_forall, (wf_nodes _ _ Hb)).
  assert (Hfuel : (length lv < loop_fuel s)%nat).
  { pose proof (wf_fuel s l0 lv 0 Hwf (level_list_length _ _ _)). lia. }
  destruct (findSplice_loop_spec s k L lv (loop_fuel s) (skl_head s) Hl Hok Hfuel)
    as (l1 & l2 & Hsplit & Hbelow & Hres).
  fold (findSpliceForLevel s k (skl_head s) L) in Hres.
  pose proof Hl as Hl'. rewrite Hsplit in Hl'. apply path_app_inv in Hl' as [_ Hp2].
  apply path_next in Hp2. rewrite <- getNext_eq in Hp2.
  assert (Hp : lastd (skl_head s) l1 = skl_head s
               \/ (lastd (skl_head s) l1 ∈ l0
                   /\ key_lt (skey (skl_arena s) (lastd (skl_head s) l1)) k)).
  { destruct (lastd_elem (skl_head s) l1) as [->|Hin]; [now left|right].
    split; [apply Hsub; rewrite Hsplit; apply elem_of_app; now left|].
    rewrite Forall_forall in Hbelow. now apply below_lt, Hbelow. }
  assert (Hp0 : lastd (skl_head s) l1 <> 0).
  { destruct Hp as [->|[Hin _]]; [apply (wf_head_ne _ _ Hb)|].
    now destruct (wf_lookup s l0 _ Hwf Hin). }
  destruct l2 as [|y l2].
  - exists (lastd (skl_head s) l1), 0. split; [exact Hres|]. right.
    split; [exact Hp0|]. split; [exact Hp|]. split; [now left|exact Hp2].
  - assert (Hy : y ∈ l0).
    { apply Hsub. rewrite Hsplit. apply elem_of_app. right. apply list_elem_of_here. }
    destruct (bytes_Compare k (skey (skl_arena s) y)) eqn:E; [| |contradiction].
    + exists y, y. split; [exact Hres|]. left.
      split; [reflexivity|]. split; [exact Hy|]. symmetry. now apply bytes_Compare_eq.
    + exists (lastd (skl_head s) l1), y. split; [exact Hres|]. right.
      split; [|split; [exact Hp|split; [right; now split|exact Hp2]]].
      intros Heq.
      assert (Hnd : NoDup (l1 ++ y :: l2)).
      { rewrite <- Hsplit. apply (NoDup_filter _), (wf_nodup _ _ Hb). }
      apply NoDup_app in Hnd as (_ & Hdisj & _).
      destruct (lastd_elem (skl_head s) l1) as [E1|Hin].
      * apply (wf_head_fresh _ _ Hb). rewrite <- E1, Heq. exact Hy.
      * apply (Hdisj _ Hin). rewrite Heq. apply list_elem_of_here.
Qed.

Lemma findSpliceForLevel_contract_witness :
  exists l0,
    wf skl_abc l0 /\ (1 < maxHeight)%nat /\
    exists p n,
      findSpliceForLevel skl_abc key_b (skl_head skl_abc) 1 = Ok (p, n) /\
      ((p = n /\ p ∈ l0 /\ skey (skl_arena skl_abc) p = key_b) \/
       (p <> n /\
        (p = skl_head skl_abc \/ (p ∈ l0 /\ key_lt (skey (skl_arena skl_abc) p) key_b)) /\
        (n = 0 \/ (n ∈ l0 /\ key_lt key_b (skey (skl_arena skl_abc) n))) /\
        getNext skl_abc p 1 = Ok n)).
Proof.
  destruct skl_abc_good as (l0 & Hwf & _).
  assert (HL : (1 < maxHeight)%nat) by (unfold maxHeight; lia).
  exists l0. split; [exact Hwf|]. split; [exact HL|].
  exact (findSpliceForLevel_contract skl_abc l0 key_b 1 Hwf HL).
Defined.

(** ** Put of a key that is not there *)

(** X19.  On a well-formed skiplist that holds no node with the key k,
    when Put(k, v) returns it has linked exactly one new node: the node
    was not reached from the head before and is now, the nodes reached
    before still are, with their heights, keys and values; the tower
    height of the new node is the height randomHeight draws and the list
    height becomes the larger of its old value and that height; the value
    of the new node is v and its key is the first len(k) mod 65536 bytes of
    k, that is k itself when k is shorter than 65536 bytes. *)
Theorem Put_absent_links_one_node (rnd : nat -> Z) (s s' : SkiplistMmap) (l0 : list Z)
    (k : key) (uid : Z) :
  wf s l0 ->
  (k ∉ map (skey (skl_arena s)) l0) ->
  Put rnd s k uid = Ok s' ->
  exists x h,
    randomHeight rnd = Ok h /\
    skl_height s' = Nat.max (skl_height s) h /\
    hgt (skl_arena s') x = h /\
    ~ reachable s x /\ reachable s' x /\
    (forall p, reachable s' p <-> p = x \/ reachable s p) /\
    (forall p, reachable s p ->
       hgt (skl_arena s') p = hgt (skl_arena s) p /\
       Key s' (mkIter p) = Key s (mkIter p) /\
       Value s' (mkIter p) = Value s (mkIter p)) /\
    Key s' (mkIter x) = Ok (take (uint16 (length k)) k) /\
    (short_key k -> Key s' (mkIter x) = Ok k) /\
    Value s' (mkIter x) = Ok uid.
Proof.
  intros Hwf Habs Hput.
  destruct (Put_spec rnd s l0 k uid Hwf)
    as [(y & nd & Hy & Hky & _)
       |(a & b & Hl0 & Hlast & Hhead &
         [[Hfull _]|(s1 & x & h & Hrun & Hwf' & Hxl & Hold & Hxk & Hxv & Hrh & Hxh & Hh
                     & _)])].
  - exfalso. apply Habs, keys_elem. eauto.
  - congruence.
  - rewrite Hrun in Hput. injection Hput as <-.
    assert (Hxin : x ∈ a ++ x :: b) by (apply elem_of_app; right; apply list_elem_of_here).
    assert (Hxok : node_ok s1 x) by now apply (wf_lookup s1 _ x Hwf').
    assert (Hiff : forall p, p ∈ a ++ x :: b <-> p = x \/ p ∈ l0).
    { intros p. rewrite Hl0, !elem_of_app, elem_of_cons. tauto. }
    exists x, h. split; [exact Hrh|]. split; [exact Hh|]. split; [exact Hxh|].
    split; [intros Hr; apply Hxl; now apply (reachable_in s l0)|].
    split; [now apply (in_reachable s1 _ x Hwf')|]. split.
    { intros p. split.
      - intros Hr. apply (reachable_in s1 _ p Hwf'), Hiff in Hr as [->|Hr]; [now left|].
        right. now apply (in_reachable s l0).
      - intros [->|Hr]; [now apply (in_reachable s1 _ x Hwf')|].
        apply (in_reachable s1 _ p Hwf'), Hiff. right. now apply (reachable_in s l0). }
    split.
    { intros p Hr. apply (reachable_in s l0 p Hwf) in Hr.
      destruct (Hold p Hr) as (Hk & Hv & Hhp).
      assert (Hp1 : node_ok s1 p) by (apply (wf_lookup s1 _ p Hwf'), Hiff; now right).
      assert (Hp0 : node_ok s p) by now apply (wf_lookup s l0).
      split; [exact Hhp|].
      rewrite (Key_node s1 p Hp1), (Key_node s p Hp0), (Value_node s1 p Hp1),
        (Value_node s p Hp0).
      split; congruence. }
    split; [rewrite (Key_node s1 x Hxok); now rewrite Hxk|]. split.
    { intros Hshort. rewrite (Key_node s1 x Hxok), Hxk. now rewrite take_uint16_short. }
    rewrite (Value_node s1 x Hxok). now rewrite Hxv.
Qed.

Lemma Put_absent_links_one_node_witness :
  exists l0,
    wf skl_abc l0 /\ (key_d ∉ map (skey (skl_arena skl_abc)) l0) /\
    Put rnd_low skl_abc key_d 4 = Ok skl_abcd /\
    exists x h,
      randomHeight rnd_low = Ok h /\
      skl_height skl_abcd = Nat.max (skl_height skl_abc) h /\
      hgt (skl_arena skl_abcd) x = h /\
      ~ reachable skl_abc x /\ reachable skl_abcd x /\
      (forall p, reachable skl_abcd p <-> p = x \/ reachable skl_abc p) /\
      (forall p, reachable skl_abc p ->
         hgt (skl_arena skl_abcd) p = hgt (skl_arena skl_abc) p /\
         Key skl_abcd (mkIter p) = Key skl_abc (mkIter p) /\
         Value skl_abcd (mkIter p) = Value skl_abc (mkIter p)) /\
      Key skl_abcd (mkIter x) = Ok (take (uint16 (length key_d)) key_d) /\
      (short_key key_d -> Key skl_abcd (mkIter x) = Ok key_d) /\
      Value skl_abcd (mkIter x) = Ok 4.
Proof.
  destruct skl_abc_good as (l0 & Hwf & _ & Hk).
  assert (Habs : key_d ∉ map (skey (skl_arena skl_abc)) l0).
  { intros Hin. apply Hk in Hin as (op & Hop & Hkey).
    unfold puts_abc in Hop.
    repeat (apply elem_of_cons in Hop as [->|Hop]; [discriminate Hkey|]).
    now apply elem_of_nil in Hop. }
  exists l0. split; [exact Hwf|]. split; [exact Habs|]. split; [exact skl_abcd_run|].
  exact (Put_absent_links_one_node rnd_low skl_abc skl_abcd l0 key_d 4 Hwf Habs skl_abcd_run).
Defined.
